(** * FastCircularQueue (circular_buffer.h): a shallow embedding

    The C++ class template [circ::FastCircularQueue<T, SizeType>] keeps a
    power-of-two block of raw memory and three unsigned indices.  The
    embedding follows the header line by line:

    - [SizeType] is the default template argument [uint32_t]; every
      arithmetic step on it is reduced modulo [2^32] by [wrap];
    - raw memory is a heap of byte blocks ([std::malloc], [std::realloc],
      [std::memcpy], [std::free]); a byte that was never written is
      indeterminate ([None]);
    - the element type [T] is known through its object representation
      ([sizeof], the bytes of a value, the value left behind by
      [std::move]);
    - a member function is a state transformer over the object's fields
      and the heap whose result is a value, a C++ exception, or undefined
      behaviour (an access outside a block, a read of indeterminate
      bytes); the state reached when the exception or the fault happens is
      kept, as it is in C++;
    - the loops take fuel; the theorems say how much is enough.

    The iterator classes and the move constructor are not part of the
    embedding. *)

From Stdlib Require Import ZArith Lia.
From Stdlib.Strings Require Import String Byte.
From stdpp Require Import base list.

Open Scope Z_scope.

(** ** SizeType arithmetic *)

Definition bits : Z := 32.
Definition modulus : Z := 2 ^ bits.

(** Reduction of an integer to [uint32_t]. *)
Definition wrap (x : Z) : Z := x mod modulus.

(** [size_t] products ([count * sizeof(T)]) are 64-bit. *)
Definition size_mul (a b : Z) : Z := (a * b) mod 2 ^ 64.

(** [roundup<uint32_t>]: the [if constexpr] steps for [sizeof(T) > 1] and
    [sizeof(T) > 2] are taken, the one for [sizeof(T) > 4] is not. *)
Definition roundup (x : Z) : Z :=
  let x := wrap (x - 1) in
  let x := Z.lor x (Z.shiftr x 1) in
  let x := Z.lor x (Z.shiftr x 2) in
  let x := Z.lor x (Z.shiftr x 4) in
  let x := Z.lor x (Z.shiftr x 8) in
  let x := Z.lor x (Z.shiftr x 16) in
  wrap (x + 1).

(** ** Raw memory *)

(** A byte of storage; [None] is an indeterminate byte. *)
Definition cell : Type := option byte.
Definition block : Type := list cell.

(** Blocks are named by their position in [blocks]; a released block
    leaves [None] behind, so that its name is never reused.  [avail] is
    the number of bytes the allocator can still hand out. *)
Record heap : Type := Heap { blocks : list (option block); avail : Z }.

Definition live_block (p : nat) (h : heap) : option block :=
  match blocks h !! p with
  | Some (Some b) => Some b
  | _ => None
  end.

Definition len (b : block) : Z := Z.of_nat (length b).

(** [std::malloc]: [None] is the null pointer. *)
Definition malloc (n : Z) (h : heap) : option nat * heap :=
  if n <=? avail h
  then (Some (length (blocks h)),
        Heap (blocks h ++ [Some (replicate (Z.to_nat n) None)]) (avail h - n))
  else (None, h).

(** [std::free] of a block that is not live is undefined ([None]). *)
Definition free_block (p : nat) (h : heap) : option heap :=
  match live_block p h with
  | Some b => Some (Heap (<[p := None]> (blocks h)) (avail h + len b))
  | None => None
  end.

(** [std::realloc]: the block moves to a fresh name, its old contents are
    kept up to the new size and the rest is indeterminate.  On failure
    the null pointer is returned and the old block stays.  A request for
    zero bytes releases the block and returns the null pointer, as glibc
    does. The outer [None] is a call on a block that is not live. *)
Definition realloc (p : nat) (n : Z) (h : heap) : option (option nat * heap) :=
  match live_block p h with
  | None => None
  | Some b =>
      if n =? 0 then
        Some (None, Heap (<[p := None]> (blocks h)) (avail h + len b))
      else if n - len b <=? avail h then
        let b' := take (Z.to_nat n) (b ++ replicate (Z.to_nat n - length b) None) in
        Some (Some (length (blocks h)),
              Heap (<[p := None]> (blocks h) ++ [Some b']) (avail h - (n - len b)))
      else Some (None, h)
  end.

(** A pointer into a block: the block and a byte offset. *)
Record ptr : Type := Ptr { base : nat; offset : Z }.

Definition load_bytes (p : ptr) (n : Z) (h : heap) : option (list cell) :=
  match live_block (base p) h with
  | Some b =>
      if (0 <=? offset p) && (0 <=? n) && (offset p + n <=? len b)
      then Some (take (Z.to_nat n) (drop (Z.to_nat (offset p)) b))
      else None
  | None => None
  end.

Definition store_bytes (p : ptr) (bs : list cell) (h : heap) : option heap :=
  match live_block (base p) h with
  | Some b =>
      if (0 <=? offset p) && (offset p + len bs <=? len b)
      then Some (Heap (<[base p :=
                          Some (take (Z.to_nat (offset p)) b ++ bs ++
                                drop (Z.to_nat (offset p + len bs)) b)]> (blocks h))
                      (avail h))
      else None
  | None => None
  end.

(** [std::memcpy(dst, src, n)]: [None] when either range leaves its
    block. *)
Definition memcpy (dst src : ptr) (n : Z) (h : heap) : option heap :=
  match load_bytes src n h with
  | Some bs => store_bytes dst bs h
  | None => None
  end.

(** ** The element type *)

(** What the queue needs to know of [T]: its size, the object
    representation of a value, the value denoted by [sizeof(T)]
    determinate bytes, and the state [std::move] leaves its source in
    (the identity for a trivially copyable type). *)
Class Elem (T : Type) : Type := {
  sizeofT : Z;
  repr : T -> list byte;
  unrepr : list byte -> T;
  moved_from : T -> T
}.

Class ElemLaws (T : Type) `{Elem T} : Prop := {
  sizeofT_pos : 0 < sizeofT;
  repr_length : forall v : T, len (map Some (repr v)) = sizeofT;
  unrepr_repr : forall v : T, unrepr (repr v) = v
}.

(** [unsigned char]. *)
#[export] Instance Elem_byte : Elem byte := {
  sizeofT := 1;
  repr := fun b => [b];
  unrepr := fun bs => match bs with b :: _ => b | [] => x00 end;
  moved_from := fun b => b
}.

Definition byte_of_Z (z : Z) : byte :=
  match Byte.of_N (Z.to_N (z mod 256)) with
  | Some b => b
  | None => x00
  end.

Definition Z_of_byte (b : byte) : Z := Z.of_N (Byte.to_N b).

(** [uint32_t] values as integers, little-endian in memory. *)
#[export] Instance Elem_uint32 : Elem Z := {
  sizeofT := 4;
  repr := fun v => [byte_of_Z v; byte_of_Z (Z.shiftr v 8);
                    byte_of_Z (Z.shiftr v 16); byte_of_Z (Z.shiftr v 24)];
  unrepr := fun bs =>
    fold_right (fun b acc => Z_of_byte b + 256 * acc) 0 (take 4 bs);
  moved_from := fun v => v
}.

(** ** Results of a member function *)

Inductive exn : Type :=
| bad_alloc
| runtime_error (what : string).

Definition empty_msg : string := "Popping item from empty buffer. Abort!".
Definition resize_msg : string :=
  "Attempting to resize to value smaller than queue's size, either from user error or overflowing the size_type. Abort!".

(** The names the specification gives to the three failures. *)
Definition AllocationFailure : exn := bad_alloc.
Definition EmptyQueue : exn := runtime_error empty_msg.
Definition InvalidResize : exn := runtime_error resize_msg.

Inductive fault : Type :=
| out_of_bounds       (* an access outside a live block *)
| indeterminate_read  (* an element read from bytes never written *)
| invalid_free        (* release of a block that is not live *)
| assertion_failed.   (* the constructor's assert *)

Inductive outcome (A : Type) : Type :=
| Done (a : A)
| Throw (e : exn)
| Undefined (f : fault)
| OutOfFuel.
Arguments Done {A} a.
Arguments Throw {A} e.
Arguments Undefined {A} f.
Arguments OutOfFuel {A}.

(** ** The object *)

(** The four data members, in declaration order; [data_] names the
    block the object owns. *)
Record queue : Type := Queue {
  mask_ : Z;
  start_ : Z;
  stop_ : Z;
  data_ : nat
}.

Definition state : Type := queue * heap.
Definition M (A : Type) : Type := state -> outcome A * state.

Definition ret {A} (a : A) : M A := fun s => (Done a, s).
Definition bind {A B} (m : M A) (f : A -> M B) : M B :=
  fun s =>
    match m s with
    | (Done a, s') => f a s'
    | (Throw e, s') => (Throw e, s')
    | (Undefined u, s') => (Undefined u, s')
    | (OutOfFuel, s') => (OutOfFuel, s')
    end.
Definition throw {A} (e : exn) : M A := fun s => (Throw e, s).
Definition undefined {A} (u : fault) : M A := fun s => (Undefined u, s).

Notation "x <- m ;; k" := (bind m (fun x => k))
  (at level 100, m at next level, right associativity).
Notation "m ;;; k" := (bind m (fun _ => k))
  (at level 100, right associativity).

Definition get {A} (f : queue -> A) : M A := fun s => (Done (f (fst s)), s).
Definition set_mask (v : Z) : M unit :=
  fun '(q, h) => (Done tt, (Queue v (start_ q) (stop_ q) (data_ q), h)).
Definition set_start (v : Z) : M unit :=
  fun '(q, h) => (Done tt, (Queue (mask_ q) v (stop_ q) (data_ q), h)).
Definition set_stop (v : Z) : M unit :=
  fun '(q, h) => (Done tt, (Queue (mask_ q) (start_ q) v (data_ q), h)).
Definition set_data (v : nat) : M unit :=
  fun '(q, h) => (Done tt, (Queue (mask_ q) (start_ q) (stop_ q) v, h)).

(** Heap calls inside a member function. *)
Definition std_malloc (n : Z) : M (option nat) :=
  fun '(q, h) => let '(r, h') := malloc n h in (Done r, (q, h')).
Definition std_realloc (p : nat) (n : Z) : M (option nat) :=
  fun '(q, h) =>
    match realloc p n h with
    | Some (r, h') => (Done r, (q, h'))
    | None => (Undefined invalid_free, (q, h))
    end.
Definition std_free (p : nat) : M unit :=
  fun '(q, h) =>
    match free_block p h with
    | Some h' => (Done tt, (q, h'))
    | None => (Undefined invalid_free, (q, h))
    end.
Definition std_memcpy (dst src : ptr) (n : Z) : M unit :=
  fun '(q, h) =>
    match memcpy dst src n h with
    | Some h' => (Done tt, (q, h'))
    | None => (Undefined out_of_bounds, (q, h))
    end.

Definition run_out {A} : M A := fun s => (OutOfFuel, s).

(** [for (i = i0; cond(i); i = step(i))] threading a local accumulator;
    the body of every loop of the class is part of its step expression. *)
Fixpoint for_loop {A} (fuel : nat) (cond : Z -> M bool)
    (step : Z -> A -> M (Z * A)) (i : Z) (a : A) : M A :=
  match fuel with
  | O => run_out
  | S fuel' =>
      c <- cond i ;;
      if c : bool then
        r <- step i a ;;
        for_loop fuel' cond step (fst r) (snd r)
      else ret a
  end.

Section FastCircularQueue.
Context {T : Type} `{Elem T}.

(** [p + i] for [p : T*]. *)
Definition elem_ptr (p : nat) (i : Z) : ptr := Ptr p (i * sizeofT).

Definition determinate (cs : list cell) : option (list byte) :=
  mapM (M := option) id cs.

(** Reading [p[i]] as a [T]. *)
Definition read_elem (p : nat) (i : Z) : M T :=
  fun '(q, h) =>
    match load_bytes (elem_ptr p i) sizeofT h with
    | None => (Undefined out_of_bounds, (q, h))
    | Some cs =>
        match determinate cs with
        | None => (Undefined indeterminate_read, (q, h))
        | Some bs => (Done (unrepr bs), (q, h))
        end
    end.

(** Writing a [T] into [p[i]] (placement new, assignment). *)
Definition write_elem (p : nat) (i : Z) (v : T) : M unit :=
  fun '(q, h) =>
    match store_bytes (elem_ptr p i) (map Some (repr v)) h with
    | None => (Undefined out_of_bounds, (q, h))
    | Some h' => (Done tt, (q, h'))
    end.

(** [T ret(std::move(p[i]))]: the value, and the moved-from state left
    in the slot. *)
Definition move_out (p : nat) (i : Z) : M T :=
  v <- read_elem p i ;;
  write_elem p i (moved_from v) ;;;
  ret v.

(** [FastCircularQueue(SizeType size)]. *)
Definition ctor (size : Z) (h : heap) : outcome queue * heap :=
  let mask := wrap (roundup (wrap (size + 1)) - 1) in
  let '(data, h') := malloc (size_mul (wrap (mask + 1)) sizeofT) h in
  if negb (Z.land mask (wrap (mask + 1)) =? 0) then
    (Undefined assertion_failed, h')
  else
    match data with
    | None => (Throw bad_alloc, h')
    | Some d => (Done (Queue mask 0 0 d), h')
    end.

(** The loop of the copy constructor,
    [for(auto i(other.start_); i != other.stop_; data_[i] = other.data_[i], ++i)]:
    its condition and its step.  The state threaded through it is the
    object under construction. *)
Definition copy_cond (other : queue) (i : Z) : M bool :=
  ret (negb (i =? stop_ other)).

Definition copy_step (other : queue) (i : Z) (_ : unit) : M (Z * unit) :=
  v <- read_elem (data_ other) i ;;
  d <- get data_ ;;
  write_elem d i v ;;;
  ret (wrap (i + 1), tt).

(** [FastCircularQueue(const FastCircularQueue &other)]. *)
Definition copy_ctor (fuel : nat) (other : queue) (h : heap)
    : outcome queue * heap :=
  let '(tmp, h') :=
    malloc (size_mul sizeofT (wrap (mask_ other + 1))) h in
  match tmp with
  | None => (Throw bad_alloc, h')
  | Some d =>
      let this := Queue (mask_ other) (start_ other) (stop_ other) d in
      let '(r, (this', h'')) :=
        for_loop fuel (copy_cond other) (copy_step other)
          (start_ other) tt (this, h') in
      match r with
      | Done _ => (Done this', h'')
      | Throw e => (Throw e, h'')
      | Undefined u => (Undefined u, h'')
      | OutOfFuel => (OutOfFuel, h'')
      end
  end.

Definition start (q : queue) : Z := start_ q.
Definition stop (q : queue) : Z := stop_ q.
Definition mask (q : queue) : Z := mask_ q.
Definition data (q : queue) : nat := data_ q.

Definition capacity (q : queue) : Z := mask_ q.
Definition size (q : queue) : Z := Z.land (wrap (stop_ q - start_ q)) (mask_ q).

Definition resize (new_size : Z) : M unit :=
  mask <- get mask_ ;;
  if new_size <? mask then throw (runtime_error resize_msg) else
  let new_size := roundup new_size in
  data <- get data_ ;;
  tmp <- std_realloc data (size_mul new_size sizeofT) ;;
  match tmp with
  | None => throw bad_alloc
  | Some tmp =>
      set_data tmp ;;;
      data <- get data_ ;;
      start <- get start_ ;;
      stop <- get stop_ ;;
      (if start =? stop then
         if negb (start =? 0) then
           set_stop (wrap (mask + 1)) ;;;
           stop <- get stop_ ;;
           tmp <- std_malloc (size_mul stop sizeofT) ;;
           match tmp with
           | None => throw bad_alloc
           | Some tmp =>
               std_memcpy (elem_ptr tmp 0) (elem_ptr data start)
                 (size_mul (wrap (stop - start)) sizeofT) ;;;
               std_memcpy (elem_ptr tmp (wrap (stop - start))) (elem_ptr data 0)
                 (size_mul stop sizeofT) ;;;
               std_memcpy (elem_ptr data 0) (elem_ptr tmp 0)
                 (size_mul stop sizeofT) ;;;
               std_free tmp ;;;
               set_start 0
           end
         else ret tt
       else if stop <? start then
         tmp <- std_malloc (size_mul (wrap (mask + 1)) sizeofT) ;;
         match tmp with
         | None => throw bad_alloc
         | Some tmp =>
             std_memcpy (elem_ptr tmp 0) (elem_ptr data start)
               (size_mul (wrap (wrap (mask + 1) - start)) sizeofT) ;;;
             std_memcpy (elem_ptr tmp (wrap (wrap (mask + 1) - start)))
               (elem_ptr data 0) (size_mul stop sizeofT) ;;;
             let sz := Z.land (wrap (stop - start)) mask in
             std_memcpy (elem_ptr data 0) (elem_ptr tmp 0) sz ;;;
             std_free tmp ;;;
             set_start 0 ;;;
             set_stop sz
         end
       else ret tt) ;;;
      mask <- get mask_ ;;
      set_mask (wrap (Z.shiftl (wrap (mask + 1)) 1 - 1))
  end.

(** [push_back]; the reference it returns is the index written. *)
Definition push_back (v : T) : M Z :=
  q <- get id ;;
  (if Z.land (wrap (stop_ q + 1)) (mask_ q) =? start_ q
   then resize (wrap (Z.shiftl (wrap (mask_ q + 1)) 1))
   else ret tt) ;;;
  ind <- get stop_ ;;
  set_stop (wrap (ind + 1)) ;;;
  stop <- get stop_ ;;
  mask <- get mask_ ;;
  set_stop (Z.land stop mask) ;;;
  data <- get data_ ;;
  write_elem data ind v ;;;
  ret ind.

Definition emplace_back (v : T) : M Z := push_back v.
Definition push (v : T) : M Z := push_back v.

Definition pop : M T :=
  q <- get id ;;
  if stop_ q =? start_ q then throw (runtime_error empty_msg) else
  set_start (wrap (start_ q + 1)) ;;;
  ret0 <- move_out (data_ q) (start_ q) ;;
  start <- get start_ ;;
  mask <- get mask_ ;;
  set_start (Z.land start mask) ;;;
  ret ret0.

Definition pop_back : M T :=
  q <- get id ;;
  if stop_ q =? start_ q then throw (runtime_error empty_msg) else
  set_stop (wrap (stop_ q - 1)) ;;;
  stop <- get stop_ ;;
  ret0 <- move_out (data_ q) stop ;;
  start <- get start_ ;;
  mask <- get mask_ ;;
  set_start (Z.land start mask) ;;;
  ret ret0.

Definition pop_front : M T := pop.

Definition push_pop (v : T) : M T :=
  ret0 <- pop ;;
  push v ;;;
  ret ret0.

(** [back()] and [front()] return references: the element addressed. *)
Definition back (q : queue) : ptr := elem_ptr (data_ q) (wrap (stop_ q - 1)).
Definition front (q : queue) : ptr := elem_ptr (data_ q) (start_ q).

(** Reading through a reference to a [T]. *)
Definition deref (r : ptr) (h : heap) : outcome T :=
  match load_bytes r sizeofT h with
  | None => Undefined out_of_bounds
  | Some cs =>
      match determinate cs with
      | None => Undefined indeterminate_read
      | Some bs => Done (unrepr bs)
      end
  end.

(** The loop condition [i != stop_]. *)
Definition not_at_stop (i : Z) : M bool :=
  stop <- get stop_ ;; ret (negb (i =? stop)).

(** The step [++i, i &= mask_] of the masked loops. *)
Definition next_index (i : Z) : M Z :=
  mask <- get mask_ ;; ret (Z.land (wrap (i + 1)) mask).

(** [func(data_[i])]: the functor receives a [T&] and may carry state of
    its own; it returns the element as it leaves it and its new state. *)
Definition visit {A} (func : T -> A -> T * A) (i : Z) (a : A) : M A :=
  data <- get data_ ;;
  v <- read_elem data i ;;
  write_elem data i (fst (func v a)) ;;;
  ret (snd (func v a)).

Definition for_each {A} (fuel : nat) (func : T -> A -> T * A) (a : A) : M A :=
  start <- get start_ ;;
  for_loop fuel not_at_stop
    (fun i a => a' <- visit func i a ;; i' <- next_index i ;; ret (i', a'))
    start a.

(** [ret.emplace_back(std::move(data_[i]))]. *)
Definition drain (i : Z) (vec : list T) : M (list T) :=
  data <- get data_ ;;
  v <- move_out data i ;;
  ret (vec ++ [v]).

Definition to_vector (fuel : nat) : M (list T) :=
  start <- get start_ ;;
  for_loop fuel not_at_stop
    (fun i vec => vec' <- drain i vec ;; i' <- next_index i ;; ret (i', vec'))
    start [].

(** [data_[i].~T()]: the destructor of an element has no effect on the
    bytes of its slot; the slot must exist. *)
Definition destroy (i : Z) (_ : unit) : M unit :=
  data <- get data_ ;;
  fun '(q, h) =>
    match load_bytes (elem_ptr data i) sizeofT h with
    | None => (Undefined out_of_bounds, (q, h))
    | Some _ => (Done tt, (q, h))
    end.

Definition clear (fuel : nat) : M unit :=
  start <- get start_ ;;
  for_loop fuel not_at_stop
    (fun i u => u' <- destroy i u ;; i' <- next_index i ;; ret (i', u'))
    start tt ;;;
  set_stop 0 ;;;
  set_start 0.

Definition free (fuel : nat) : M unit :=
  clear fuel ;;;
  data <- get data_ ;;
  std_free data.

End FastCircularQueue.

(** ** Observing the storage *)

Section Storage.
Context {T : Type} `{Elem T}.

(** The bytes of slot [i] of a block, and the element they denote. *)
Definition slot_cells (b : block) (i : Z) : list cell :=
  take (Z.to_nat sizeofT) (drop (Z.to_nat (i * sizeofT)) b).

Definition slot_value (b : block) (i : Z) : option T :=
  match determinate (slot_cells b i) with
  | Some bs => Some (unrepr bs)
  | None => None
  end.

(** A block after slot [i] has been overwritten by [cs]. *)
Definition set_slot (b : block) (i : Z) (cs : list cell) : block :=
  take (Z.to_nat (i * sizeofT)) b ++ cs ++
  drop (Z.to_nat (i * sizeofT + len cs)) b.

(** The object owns a live block of [mask_ + 1] slots. *)
Definition block_ok (q : queue) (h : heap) (b : block) : Prop :=
  live_block (data_ q) h = Some b /\ len b = (mask_ q + 1) * sizeofT.

End Storage.

(** ** Invariants of the data model *)

(** [mask_] has the form [2^k - 1]. *)
Definition pow2_mask (m : Z) : Prop := exists k, 0 <= k <= bits /\ m = Z.ones k.

(** The index invariant: a power-of-two capacity and both offsets inside
    [[0, mask]]. *)
Definition ring_ok (q : queue) : Prop :=
  pow2_mask (mask_ q) /\ 0 <= start_ q <= mask_ q /\ 0 <= stop_ q <= mask_ q.

(** The same invariant as a test. *)
Definition ring_okb (q : queue) : bool :=
  existsb (fun k => mask_ q =? Z.ones (Z.of_nat k)) (seq 0 33) &&
  (0 <=? start_ q) && (start_ q <=? mask_ q) &&
  (0 <=? stop_ q) && (stop_ q <=? mask_ q).

(** Specification side: the indices of the occupied range, front to
    back, with wraparound. *)
Definition ring_indices (q : queue) : list Z :=
  map (fun j => Z.land (start_ q + Z.of_nat j) (mask_ q))
      (seq 0 (Z.to_nat (size q))).

(** Specification side: a loop body run over a given list of indices,
    in order; no fuel. *)
Fixpoint visit_list {A} (body : Z -> A -> M A) (l : list Z) (a : A) : M A :=
  match l with
  | [] => ret a
  | i :: l' => a' <- body i a ;; visit_list body l' a'
  end.

(** Specification side: [h'] differs from [h] at most in the bytes of
    slot [i] of block [p], for elements of [sz] bytes. *)
Definition same_but_slot (sz : Z) (p : nat) (i : Z) (h h' : heap) : Prop :=
  avail h' = avail h /\ length (blocks h') = length (blocks h) /\
  (forall p', p' <> p -> blocks h' !! p' = blocks h !! p') /\
  (forall b, live_block p h = Some b ->
     exists b', live_block p h' = Some b' /\ length b' = length b /\
       forall j : nat,
         ~ (i * sz <= Z.of_nat j < (i + 1) * sz) -> b' !! j = b !! j).

(** ** Scenarios *)

(** An allocator with 4096 bytes to hand out and no block yet. *)
Definition fresh_heap : heap := Heap [] 4096.

(** Construct a queue of the requested size, then run [m] on it. *)
Definition ctor_then {T : Type} `{Elem T} {A} (size : Z) (m : M A) (h : heap)
    : option (outcome A * state) :=
  match ctor size h with
  | (Done q, h') => Some (m (q, h'))
  | _ => None
  end.

(** A [uint32_t] queue of 4 slots whose occupied range wraps: after
    three pushes, two pops and a fourth push the live elements are [3] in
    slot 2 and [4] in slot 3, and [stop_] is 0. *)
Definition wrapped_state : option (outcome Z * state) :=
  ctor_then (T := Z) 3
    (push_back 1 ;;; push_back 2 ;;; push_back 3 ;;;
     (pop : M Z) ;;; (pop : M Z) ;;; push_back 4)
    fresh_heap.

(** A [uint32_t] queue of 4 slots that is empty with [start_ == stop_ == 1]. *)
Definition empty_offset_state : option (outcome Z * state) :=
  ctor_then (T := Z) 3 (push_back 1 ;;; (pop : M Z)) fresh_heap.

(** Four pushes into that empty, offset queue, the last of which finds
    the range wrapped and resizes; then four calls of [pop_front]. *)
Definition fifo_across_wrapped_resize : option (outcome (list Z) * state) :=
  ctor_then (T := Z) 3
    (push_back 1 ;;; (pop : M Z) ;;;
     push_back 10 ;;; push_back 11 ;;; push_back 12 ;;; push_back 13 ;;;
     a <- pop_front ;; b <- pop_front ;; c <- pop_front ;; d <- pop_front ;;
     ret [a; b; c; d])
    fresh_heap.

(** The same calls on a queue of [unsigned char]. *)
Definition fifo_across_wrapped_resize_bytes
    : option (outcome (list byte) * state) :=
  ctor_then (T := byte) 3
    (push_back x01 ;;; (pop : M byte) ;;;
     push_back x0a ;;; push_back x0b ;;; push_back x0c ;;; push_back x0d ;;;
     a <- pop_front ;; b <- pop_front ;; c <- pop_front ;; d <- pop_front ;;
     ret [a; b; c; d])
    fresh_heap.

(** A [uint32_t] queue holding [[10, 11]] in slots 1 and 2. *)
Definition offset_pair_state : option (outcome Z * state) :=
  ctor_then (T := Z) 3
    (push_back 1 ;;; (pop : M Z) ;;; push_back 10 ;;; push_back 11)
    fresh_heap.

(** A queue of [unsigned char] with 4 slots, holding [[x0a, x0b]] in
    slots 1 and 2 after one earlier push and pop, and the heap it lives
    in. *)
Definition bytes_queue : queue := Queue 3 1 3 0.
Definition bytes_block : block := [Some x01; Some x0a; Some x0b; None].
Definition bytes_heap : heap := Heap [Some bytes_block] 4092.

(** The same queue after two more pops: empty at offset 3. *)
Definition drained_queue : queue := Queue 3 3 3 0.

(** The copy as the specification words it ("starting at index 0"): the
    [j]-th live element of the original is found in slot [j] of the block
    of the copy. *)
Definition copied_from_index_zero {T : Type} `{Elem T}
    (other : queue) (h : heap) (copy : queue) (h' : heap) : Prop :=
  forall j, 0 <= j < size other ->
    deref (T := T) (elem_ptr (data_ copy) j) h'
    = deref (elem_ptr (data_ other) (Z.land (start_ other + j) (mask_ other))) h.

(** ** Contents of a buffer, and callers *)

Section Contents.
Context {T : Type} `{Elem T}.

(** Specification side: [q] satisfies the index invariant, owns a live
    block of [mask_ + 1] slots in [h], and its occupied slots hold the
    elements [vs], front to back. *)
Definition holds (q : queue) (h : heap) (vs : list T) : Prop :=
  ring_ok q /\
  exists b, block_ok q h b /\ mapM (slot_value b) (ring_indices q) = Some vs.

(** Specification side: what a functor called on the elements [vs] in
    turn, starting in state [a], leaves in them and in its state. *)
Fixpoint run_func {A} (func : T -> A -> T * A) (vs : list T) (a : A)
    : list T * A :=
  match vs with
  | [] => ([], a)
  | v :: vs' =>
      let r := func v a in
      let rs := run_func func vs' (snd r) in
      (fst r :: fst rs, snd rs)
  end.

(** A caller pushing the elements of a list, in order. *)
Fixpoint push_all (vs : list T) : M unit :=
  match vs with
  | [] => ret tt
  | v :: vs' => push_back v ;;; push_all vs'
  end.

(** A caller popping [n] times from the front, or from the back. *)
Fixpoint pop_front_n (n : nat) : M (list T) :=
  match n with
  | O => ret []
  | S n' => v <- pop_front ;; vs <- pop_front_n n' ;; ret (v :: vs)
  end.

Fixpoint pop_back_n (n : nat) : M (list T) :=
  match n with
  | O => ret []
  | S n' => v <- pop_back ;; vs <- pop_back_n n' ;; ret (v :: vs)
  end.

End Contents.

(** ** Iterators *)

Section Iterators.
Context {T : Type} `{Elem T}.

(** [iterator] and [const_iterator]: a position; the reference [ref_]
    is the object whose member functions are running. *)
Record iterator : Type := Iterator { pos_ : Z }.

Definition begin : M iterator := start <- get start_ ;; ret (Iterator start).
Definition end_ : M iterator := stop <- get stop_ ;; ret (Iterator stop).
Definition cbegin : M iterator := begin.
Definition cend : M iterator := end_.

(** [operator*]. *)
Definition iter_deref (it : iterator) : M T :=
  data <- get data_ ;; read_elem data (pos_ it).

(** [operator++]: [++pos_; pos_ &= ref_.mask_]. *)
Definition iter_incr (it : iterator) : M iterator :=
  mask <- get mask_ ;; ret (Iterator (Z.land (wrap (pos_ it + 1)) mask)).

(** The comparisons look at the positions only. *)
Definition iter_eq (a b : iterator) : bool := pos_ a =? pos_ b.
Definition iter_ne (a b : iterator) : bool := negb (pos_ a =? pos_ b).
Definition iter_lt (a b : iterator) : bool := pos_ a <? pos_ b.
Definition iter_le (a b : iterator) : bool := pos_ a <=? pos_ b.
Definition iter_gt (a b : iterator) : bool := pos_ b <? pos_ a.
Definition iter_ge (a b : iterator) : bool := pos_ b <=? pos_ a.

(** A caller's loop [for (auto it = q.begin(); it != q.end(); ++it)]
    that collects the elements it dereferences. *)
Definition range_for (fuel : nat) : M (list T) :=
  b <- begin ;;
  for_loop fuel
    (fun i => e <- end_ ;; ret (iter_ne (Iterator i) e))
    (fun i vec =>
       v <- iter_deref (Iterator i) ;;
       it <- iter_incr (Iterator i) ;;
       ret (pos_ it, vec ++ [v]))
    (pos_ b) [].

End Iterators.

(** ** More concrete buffers *)

(** A full queue of [unsigned char] with 4 slots that starts at offset
    0, and the heap it lives in. *)
Definition full_queue : queue := Queue 3 0 3 0.
Definition full_block : block := [Some x0a; Some x0b; Some x0c; None].
Definition full_heap : heap := Heap [Some full_block] 4092.

(** A functor that replaces each element by [x00] and counts them. *)
Definition zero_and_count (v : byte) (n : nat) : byte * nat := (x00, S n).

(** The same block with 3 bytes left to allocate. *)
Definition tight_heap : heap := Heap [Some full_block] 3.

(** A wrapped queue of [unsigned char] with 4 slots: the elements
    [x0a; x0b] sit in slots 2 and 3 and [x0c] in slot 0. *)
Definition wrapped_queue : queue := Queue 3 2 1 0.
Definition wrapped_block : block := [Some x0c; None; Some x0a; Some x0b].
Definition wrapped_heap : heap := Heap [Some wrapped_block] 4092.

(** The wrapped block with 6 bytes left to allocate. *)
Definition scarce_heap : heap := Heap [Some wrapped_block] 6.
(** ** Arithmetic of [SizeType] and of the mask *)

(** [unsigned char] satisfies the laws of an element type. *)
#[export] Instance ElemLaws_byte : ElemLaws byte.
Proof. split; [reflexivity | reflexivity | reflexivity]. Qed.

Lemma modulus_eq : modulus = 4294967296.
Proof. reflexivity. Qed.

Lemma wrap_range x : 0 <= wrap x < modulus.
Proof. unfold wrap. apply Z.mod_pos_bound. rewrite modulus_eq. lia. Qed.

Lemma wrap_small x : 0 <= x < modulus -> wrap x = x.
Proof. intros. unfold wrap. apply Z.mod_small. lia. Qed.

Lemma pow2_pos k : 0 <= k -> 0 < 2 ^ k.
Proof. intros. apply Z.pow_pos_nonneg; lia. Qed.

Lemma ones_range k : 0 <= k <= bits -> 0 <= Z.ones k < modulus.
Proof.
  intros Hk. rewrite Z.ones_equiv. unfold modulus.
  pose proof (pow2_pos k).
  assert (2 ^ k <= 2 ^ bits) by (apply Z.pow_le_mono_r; lia).
  lia.
Qed.

Lemma wrap_mod_pow2 x k : 0 <= k <= bits -> wrap x mod 2 ^ k = x mod 2 ^ k.
Proof.
  intros Hk. unfold wrap, modulus.
  apply Z.mod_mod_divide.
  exists (2 ^ (bits - k)). rewrite <- Z.pow_add_r by lia. f_equal. lia.
Qed.

Lemma land_mask_id x m : pow2_mask m -> 0 <= x <= m -> Z.land x m = x.
Proof.
  intros (k & Hk & ->) Hx. rewrite Z.land_ones by lia.
  rewrite Z.ones_equiv in Hx. apply Z.mod_small. lia.
Qed.

Lemma land_mask_range x m : pow2_mask m -> 0 <= Z.land x m <= m.
Proof.
  intros (k & Hk & ->). rewrite Z.land_ones by lia. rewrite Z.ones_equiv.
  pose proof (Z.mod_pos_bound x (2 ^ k) (pow2_pos k ltac:(lia))). lia.
Qed.

Lemma ring_okb_sound q : ring_okb q = true -> ring_ok q.
Proof.
  unfold ring_okb, ring_ok. rewrite !andb_true_iff, existsb_exists.
  intros [[[[(k & Hin & Hk) H1] H2] H3] H4].
  apply in_seq in Hin. apply Z.eqb_eq in Hk.
  split; [exists (Z.of_nat k); unfold bits; split; [lia | exact Hk] | lia].
Qed.

(** ** Frame properties of the heap primitives *)

Lemma live_block_insert_eq p b' h a :
  is_Some (live_block p h) ->
  live_block p (Heap (<[p := Some b']> (blocks h)) a) = Some b'.
Proof.
  unfold live_block. simpl. intros [b Hb].
  destruct (blocks h !! p) as [ob|] eqn:E; [|discriminate].
  rewrite list_lookup_insert_eq; [reflexivity|].
  apply lookup_lt_Some in E. exact E.
Qed.

Lemma store_bytes_frame p bs h h' :
  store_bytes p bs h = Some h' ->
  avail h' = avail h /\ length (blocks h') = length (blocks h) /\
  (forall p', p' <> base p -> blocks h' !! p' = blocks h !! p') /\
  exists b, live_block (base p) h = Some b /\
    0 <= offset p /\ offset p + len bs <= len b /\
    live_block (base p) h' =
      Some (take (Z.to_nat (offset p)) b ++ bs ++
            drop (Z.to_nat (offset p + len bs)) b).
Proof.
  unfold store_bytes.
  destruct (live_block (base p) h) as [b|] eqn:Hb; [|discriminate].
  destruct (_ && _) eqn:Hc; [|discriminate]. intros [= <-]. simpl.
  apply andb_prop in Hc as [H1 H2]. apply Z.leb_le in H1, H2.
  split; [reflexivity|]. split; [apply length_insert|].
  split; [intros; apply list_lookup_insert_ne; congruence|].
  exists b. repeat split; try lia.
  apply live_block_insert_eq. rewrite Hb. eauto.
Qed.

(** Bytes outside the written range keep their value. *)
Lemma splice_lookup_outside (b bs : block) (o : Z) (j : nat) :
  0 <= o -> o + len bs <= len b ->
  ~ (o <= Z.of_nat j < o + len bs) ->
  (take (Z.to_nat o) b ++ bs ++ drop (Z.to_nat (o + len bs)) b) !! j = b !! j.
Proof.
  unfold len. intros Ho Hlen Hj.
  destruct (Z.lt_ge_cases (Z.of_nat j) o) as [Hlt|Hge].
  - rewrite lookup_app_l by (rewrite length_take; lia).
    apply lookup_take_lt. lia.
  - rewrite lookup_app_r by (rewrite length_take; lia).
    rewrite lookup_app_r by (rewrite length_take; lia).
    rewrite lookup_drop. f_equal. rewrite length_take. lia.
Qed.

Lemma splice_length (b bs : block) (o : Z) :
  0 <= o -> o + len bs <= len b ->
  length (take (Z.to_nat o) b ++ bs ++ drop (Z.to_nat (o + len bs)) b)
  = length b.
Proof.
  unfold len. intros. rewrite !length_app, length_take, length_drop. lia.
Qed.

Lemma same_but_slot_refl sz p i h : same_but_slot sz p i h h.
Proof. repeat split; eauto. Qed.

(** Unfolding of the monad, one layer at a time. *)
Ltac run :=
  unfold bind, get, ret, throw, undefined, run_out,
    set_mask, set_start, set_stop, set_data,
    std_malloc, std_realloc, std_free, std_memcpy;
  cbv beta iota zeta;
  cbn [fst snd mask_ start_ stop_ data_ id].

(** ** Member functions: frames, failures, the mask update *)

Section MemberFacts.
Context {T : Type} `{HL : ElemLaws T}.

Lemma read_elem_frame p i q h r q' h' :
  read_elem p i (q, h) = (r, (q', h')) -> q' = q /\ h' = h.
Proof.
  unfold read_elem. repeat case_match; intros [= <- <- <-]; auto.
Qed.

Lemma write_elem_frame p i v q h r q' h' :
  write_elem p i v (q, h) = (r, (q', h')) ->
  q' = q /\ same_but_slot sizeofT p i h h'.
Proof.
  unfold write_elem.
  destruct (store_bytes _ _ h) as [h1|] eqn:Hs; intros [= <- <- <-].
  - split; [reflexivity|].
    apply store_bytes_frame in Hs as (Ha & Hl & Ho & b & Hb & Hoff & Hlen & Hb').
    simpl in *. pose proof (repr_length v) as Hrl.
    repeat split; try assumption.
    intros b0 Hb0. rewrite Hb in Hb0. injection Hb0 as <-.
    eexists. split; [exact Hb'|]. split.
    + apply splice_length; lia.
    + intros j Hj. apply splice_lookup_outside; lia.
  - split; [reflexivity | apply same_but_slot_refl].
Qed.

Lemma move_out_frame p i q h r q' h' :
  move_out p i (q, h) = (r, (q', h')) ->
  q' = q /\ same_but_slot sizeofT p i h h'.
Proof.
  unfold move_out. run.
  destruct (read_elem p i (q, h)) as [r1 [q1 h1]] eqn:Hr.
  apply read_elem_frame in Hr as [-> ->].
  destruct r1;
    try (intros [= <- <- <-]; split; [reflexivity | apply same_but_slot_refl]).
  destruct (write_elem p i (moved_from a) (q, h)) as [r2 [q2 h2]] eqn:Hw.
  apply write_elem_frame in Hw as [-> Hw].
  destruct r2; intros [= <- <- <-]; auto.
Qed.

Lemma size_empty q : start_ q = stop_ q -> size q = 0.
Proof.
  intros E. unfold size. rewrite E, Z.sub_diag. reflexivity.
Qed.

(** C6: whenever [resize] returns, the new mask is
    [((mask_ + 1) << 1) - 1] computed in [SizeType]; for a mask
    [2^k - 1] with [k < 32] that is [2^(k+1) - 1], twice the slot count,
    whatever target was requested. *)
Theorem resize_doubles_mask n q h q' h' :
  resize n (q, h) = (Done tt, (q', h')) ->
  mask_ q' = wrap (Z.shiftl (wrap (mask_ q + 1)) 1 - 1) /\
  (forall k, 0 <= k < bits -> mask_ q = Z.ones k ->
     mask_ q' = Z.ones (k + 1) /\ mask_ q' + 1 = 2 * (mask_ q + 1)).
Proof.
  intros Hr.
  assert (Hm : mask_ q' = wrap (Z.shiftl (wrap (mask_ q + 1)) 1 - 1)).
  { revert Hr. unfold resize. run.
    repeat (case_match; run; simplify_eq; try discriminate);
      intros [= <- <-]; reflexivity. }
  split; [exact Hm|]. intros k Hk Hq. rewrite Hm, Hq.
  rewrite Z.ones_equiv, Z.shiftl_mul_pow2 by lia.
  replace (Z.pred (2 ^ k) + 1) with (2 ^ k) by lia.
  pose proof (pow2_pos k ltac:(lia)).
  assert (2 ^ k * 2 <= modulus).
  { unfold modulus. replace bits with (k + 1 + (bits - (k + 1))) by lia.
    rewrite Z.pow_add_r, Z.pow_add_r by lia.
    pose proof (pow2_pos (bits - (k + 1)) ltac:(lia)).
    change (2 ^ 1) with 2. nia. }
  rewrite (wrap_small (2 ^ k)) by lia.
  rewrite wrap_small by (change (2 ^ 1) with 2; lia).
  rewrite Z.ones_equiv, Z.pow_add_r by lia. change (2 ^ 1) with 2. lia.
Qed.

Lemma resize_rejects n q h :
  n < mask_ q -> resize n (q, h) = (Throw InvalidResize, (q, h)).
Proof.
  intros Hlt. unfold resize. run.
  destruct (Z.ltb_spec n (mask_ q)); [reflexivity | lia].
Qed.

Lemma resize_no_other_runtime_error n q h w :
  mask_ q <= n -> fst (resize n (q, h)) <> Throw (runtime_error w).
Proof.
  intros Hge. unfold resize. run.
  destruct (Z.ltb_spec n (mask_ q)); [lia|]. run.
  repeat (case_match; run; simplify_eq; try discriminate).
Qed.

(** C7: [resize] throws its runtime error exactly when the target is
    below the current mask, and then nothing has been touched: the
    object and the heap are the ones it was called on. *)
Theorem resize_invalid_iff n q h :
  (fst (resize n (q, h)) = Throw InvalidResize <-> n < mask_ q) /\
  (n < mask_ q -> resize n (q, h) = (Throw InvalidResize, (q, h))).
Proof.
  split; [split|].
  - intros Hr. destruct (Z.lt_ge_cases n (mask_ q)) as [|Hge]; [assumption|].
    exfalso. exact (resize_no_other_runtime_error n q h resize_msg Hge Hr).
  - intros Hlt. rewrite resize_rejects by assumption. reflexivity.
  - apply resize_rejects.
Qed.

(** C8: on an empty buffer ([start_ == stop_]) both [pop] (and so
    [pop_front]) and [pop_back] throw the empty-buffer error before
    touching anything: fields and heap are unchanged and [size()] is
    still 0. *)
Theorem pop_empty_throws q h :
  start_ q = stop_ q ->
  pop (q, h) = (Throw EmptyQueue, (q, h)) /\
  pop_front (q, h) = (Throw EmptyQueue, (q, h)) /\
  pop_back (q, h) = (Throw EmptyQueue, (q, h)) /\
  size q = 0.
Proof.
  intros E. unfold pop_front, pop, pop_back. run.
  rewrite E, Z.eqb_refl. repeat split. apply size_empty, E.
Qed.

(** C9: on a non-empty buffer whose indices satisfy the invariant,
    [pop_back] leaves [start_], [mask_] and [data_] as they were (its
    [start_ &= mask_] changes nothing), moves [stop_] one step back, and
    changes no byte of the heap outside the slot [stop_] now names. *)
Theorem pop_back_frame q h r q' h' :
  ring_ok q -> start_ q <> stop_ q ->
  pop_back (q, h) = (r, (q', h')) ->
  start_ q' = start_ q /\ mask_ q' = mask_ q /\ data_ q' = data_ q /\
  Z.land (start_ q) (mask_ q) = start_ q /\
  stop_ q' = wrap (stop_ q - 1) /\
  same_but_slot sizeofT (data_ q) (stop_ q') h h'.
Proof.
  intros (Hm & Hs & Hp) Hne. unfold pop_back. run.
  destruct (Z.eqb_spec (stop_ q) (start_ q)); [congruence|].
  destruct q as [m s e d]; run.
  match goal with |- context [move_out ?p ?i ?s] =>
    destruct (move_out p i s) as [r1 [q1 h1]] eqn:Hmv end.
  apply move_out_frame in Hmv as [-> Hf].
  destruct r1; simpl; intros [= <- <- <-]; simpl;
    rewrite ?land_mask_id by assumption; auto 10.
Qed.

End MemberFacts.

(** ** The masked traversal loops *)

Section Traversal.
Context {T : Type} `{HE : Elem T}.

(** One more element to go: the distance to [stop] drops by one when
    the index advances by [++i, i &= mask_]. *)
Lemma ring_step k i e n :
  0 <= k <= bits -> 0 <= i < 2 ^ k -> 0 <= e < 2 ^ k ->
  Z.land (wrap (e - i)) (Z.ones k) = Z.of_nat (S n) ->
  i <> e /\
  Z.land (wrap (e - Z.land (wrap (i + 1)) (Z.ones k))) (Z.ones k) = Z.of_nat n.
Proof.
  intros Hk Hi He. rewrite !Z.land_ones, !wrap_mod_pow2 by lia.
  intros Hd. split.
  - intros ->. rewrite Z.sub_diag, Z.mod_0_l in Hd; lia.
  - rewrite Zminus_mod_idemp_r.
    replace (e - (i + 1)) with ((e - i) - 1) by lia.
    rewrite <- Zminus_mod_idemp_l, Hd.
    pose proof (Z.mod_pos_bound (e - i) (2 ^ k) (pow2_pos k ltac:(lia))).
    rewrite Z.mod_small; lia.
Qed.

Lemma ring_done k i e :
  0 <= k <= bits -> 0 <= i < 2 ^ k -> 0 <= e < 2 ^ k ->
  Z.land (wrap (e - i)) (Z.ones k) = 0 -> i = e.
Proof.
  intros Hk Hi He. rewrite Z.land_ones, wrap_mod_pow2 by lia. intros Hd.
  destruct (Z.lt_total i e) as [Hlt|[Heq|Hgt]]; [|assumption|].
  - rewrite Z.mod_small in Hd; lia.
  - rewrite <- (Z.mod_add _ 1), Z.mod_small in Hd; lia.
Qed.

Lemma ring_index_shift k i j :
  0 <= k <= bits ->
  Z.land (Z.land (wrap (i + 1)) (Z.ones k) + Z.of_nat j) (Z.ones k)
  = Z.land (i + Z.of_nat (S j)) (Z.ones k).
Proof.
  intros Hk. rewrite !Z.land_ones, wrap_mod_pow2 by lia.
  rewrite Zplus_mod_idemp_l. f_equal. lia.
Qed.

Lemma not_at_stop_eq i q h :
  not_at_stop i (q, h) = (Done (negb (i =? stop_ q)), (q, h)).
Proof. reflexivity. Qed.

Lemma next_index_eq i q h :
  next_index i (q, h) = (Done (Z.land (wrap (i + 1)) (mask_ q)), (q, h)).
Proof. reflexivity. Qed.

(** A masked loop whose body keeps the fields of the object runs its
    body over the ring indices, in order, and then stops. *)
Lemma for_loop_masked {A} (body : Z -> A -> M A) :
  (forall i a q h, fst (snd (body i a (q, h))) = q) ->
  forall n fuel i a q h,
    pow2_mask (mask_ q) -> 0 <= i <= mask_ q -> 0 <= stop_ q <= mask_ q ->
    Z.land (wrap (stop_ q - i)) (mask_ q) = Z.of_nat n ->
    (n < fuel)%nat ->
    for_loop fuel not_at_stop
      (fun i a => a' <- body i a ;; i' <- next_index i ;; ret (i', a'))
      i a (q, h)
    = visit_list body
        (map (fun j => Z.land (i + Z.of_nat j) (mask_ q)) (seq 0 n))
        a (q, h).
Proof.
  intros Hbody n.
  set (step := fun i a => a' <- body i a ;; i' <- next_index i ;; ret (i', a')).
  induction n as [|n IH]; intros fuel i a q h Hm Hi He Hd Hf.
  - destruct fuel as [|fuel]; [lia|].
    destruct Hm as (k & Hk & Hq). rewrite Hq in *.
    rewrite Z.ones_equiv in Hi, He.
    apply ring_done in Hd; [|lia..]. subst i.
    cbn [for_loop seq map visit_list]. run.
    rewrite not_at_stop_eq, Z.eqb_refl. reflexivity.
  - destruct fuel as [|fuel]; [lia|].
    pose proof Hm as (k & Hk & Hq).
    assert (Hstep : i <> stop_ q /\
      Z.land (wrap (stop_ q - Z.land (wrap (i + 1)) (mask_ q))) (mask_ q)
      = Z.of_nat n).
    { rewrite Hq in *. rewrite Z.ones_equiv in Hi, He.
      apply ring_step; [lia..|exact Hd]. }
    destruct Hstep as [Hne Hd'].
    cbn [for_loop seq map visit_list]. unfold step at 1. run.
    rewrite not_at_stop_eq.
    destruct (Z.eqb_spec i (stop_ q)); [contradiction|]. cbn [negb].
    replace (Z.land (i + Z.of_nat 0) (mask_ q)) with i
      by (rewrite Z.add_0_r; symmetry; apply land_mask_id; assumption).
    specialize (Hbody i a q h).
    destruct (body i a (q, h)) as [r [q1 h1]]. simpl in Hbody. subst q1.
    destruct r; try reflexivity. rewrite next_index_eq. run.
    rewrite IH; [| assumption | apply land_mask_range; assumption
                 | assumption | assumption | lia].
    f_equal. rewrite <- seq_shift, map_map.
    apply map_ext. intros j. rewrite Hq. apply ring_index_shift. lia.
Qed.

Lemma visit_list_terminates {A} (body : Z -> A -> M A) :
  (forall i a s, fst (body i a s) <> OutOfFuel) ->
  forall l a s, fst (visit_list body l a s) <> OutOfFuel.
Proof.
  intros Hbody l. induction l as [|i l IH]; intros a s; simpl.
  - discriminate.
  - run. specialize (Hbody i a s).
    destruct (body i a s) as [r s1]. destruct r; simpl in *; auto; discriminate.
Qed.

Lemma read_elem_fields p i s : snd (read_elem p i s) = s.
Proof. destruct s. unfold read_elem. repeat case_match; reflexivity. Qed.

Lemma write_elem_fields p i v q h : fst (snd (write_elem p i v (q, h))) = q.
Proof. unfold write_elem. case_match; reflexivity. Qed.

Lemma move_out_fields p i q h : fst (snd (move_out p i (q, h))) = q.
Proof.
  unfold move_out. run.
  pose proof (read_elem_fields p i (q, h)) as Hr.
  destruct (read_elem p i (q, h)) as [r s1]. simpl in Hr. subst s1.
  destruct r; try reflexivity.
  pose proof (write_elem_fields p i (moved_from a) q h) as Hw.
  destruct (write_elem p i (moved_from a) (q, h)) as [r [q1 h1]].
  simpl in Hw. subst q1. destruct r; reflexivity.
Qed.

Lemma visit_fields {A} (func : T -> A -> T * A) i a q h :
  fst (snd (visit func i a (q, h))) = q.
Proof.
  unfold visit. run.
  pose proof (read_elem_fields (data_ q) i (q, h)) as Hr.
  destruct (read_elem (data_ q) i (q, h)) as [r s1]. simpl in Hr. subst s1.
  destruct r; try reflexivity.
  match goal with |- context [write_elem ?p ?i ?v (q, h)] =>
    pose proof (write_elem_fields p i v q h) as Hw;
    destruct (write_elem p i v (q, h)) as [r [q1 h1]] end.
  simpl in Hw. subst q1. destruct r; reflexivity.
Qed.

Lemma drain_fields i vec q h : fst (snd (drain i vec (q, h))) = q.
Proof.
  unfold drain. run.
  pose proof (move_out_fields (data_ q) i q h) as Hr.
  destruct (move_out (data_ q) i (q, h)) as [r [q1 h1]]. simpl in Hr. subst q1.
  destruct r; reflexivity.
Qed.

Lemma read_elem_in_time p i s : fst (read_elem p i s) <> OutOfFuel.
Proof. destruct s. unfold read_elem. repeat case_match; discriminate. Qed.

Lemma write_elem_in_time p i v s : fst (write_elem p i v s) <> OutOfFuel.
Proof. destruct s. unfold write_elem. case_match; discriminate. Qed.

Lemma move_out_in_time p i s : fst (move_out p i s) <> OutOfFuel.
Proof.
  unfold move_out. run.
  pose proof (read_elem_in_time p i s).
  destruct (read_elem p i s) as [r s1]. destruct r; simpl in *; auto.
  pose proof (write_elem_in_time p i (moved_from a) s1).
  destruct (write_elem p i (moved_from a) s1) as [r s2].
  destruct r; simpl in *; auto; discriminate.
Qed.

Lemma visit_in_time {A} (func : T -> A -> T * A) i a s :
  fst (visit func i a s) <> OutOfFuel.
Proof.
  unfold visit. run.
  pose proof (read_elem_in_time (data_ (fst s)) i s).
  destruct (read_elem (data_ (fst s)) i s) as [r s1].
  destruct r; simpl in *; auto.
  match goal with |- context [write_elem ?p ?i ?v s1] =>
    pose proof (write_elem_in_time p i v s1);
    destruct (write_elem p i v s1) as [r s2] end.
  destruct r; simpl in *; auto; discriminate.
Qed.

Lemma drain_in_time i vec s : fst (drain i vec s) <> OutOfFuel.
Proof.
  unfold drain. run.
  pose proof (move_out_in_time (data_ (fst s)) i s).
  destruct (move_out (data_ (fst s)) i s) as [r s1].
  destruct r; simpl in *; auto; discriminate.
Qed.

Lemma ring_indices_length q : length (ring_indices q) = Z.to_nat (size q).
Proof. unfold ring_indices. rewrite length_map, length_seq. reflexivity. Qed.

Lemma size_range q : pow2_mask (mask_ q) -> 0 <= size q <= mask_ q.
Proof. intros Hm. apply land_mask_range, Hm. Qed.

Lemma for_each_ring {A} q h (fuel : nat) (func : T -> A -> T * A) (a : A) :
  ring_ok q -> size q < Z.of_nat fuel ->
  for_each fuel func a (q, h)
  = visit_list (visit func) (ring_indices q) a (q, h).
Proof.
  intros (Hm & Hs & He) Hfuel. pose proof (size_range q Hm) as Hsz.
  unfold for_each, ring_indices. run.
  apply for_loop_masked; try assumption; [apply visit_fields | | lia].
  unfold size in *. lia.
Qed.

Lemma to_vector_ring q h (fuel : nat) :
  ring_ok q -> size q < Z.of_nat fuel ->
  to_vector fuel (q, h) = visit_list drain (ring_indices q) [] (q, h).
Proof.
  intros (Hm & Hs & He) Hfuel. pose proof (size_range q Hm) as Hsz.
  unfold to_vector, ring_indices. run.
  apply for_loop_masked; try assumption; [apply drain_fields | | lia].
  unfold size in *. lia.
Qed.

Lemma ring_indices_lookup q (j : nat) :
  pow2_mask (mask_ q) -> (j < Z.to_nat (size q))%nat ->
  ring_indices q !! j = Some ((start_ q + Z.of_nat j) mod (mask_ q + 1)).
Proof.
  intros (k & Hk & Hq) Hj. unfold ring_indices.
  rewrite list_lookup_fmap, lookup_seq_lt by assumption. simpl.
  rewrite Hq, Z.land_ones, Z.ones_equiv by lia.
  do 2 f_equal. lia.
Qed.

End Traversal.

(** ** Slots of a block *)

Section Slots.
Context {T : Type} `{HL : ElemLaws T}.

Lemma slot_cells_lookup (b : block) i (p : nat) :
  0 <= i ->
  slot_cells b i !! p =
    if decide (Z.of_nat p < sizeofT) then b !! (Z.to_nat (i * sizeofT) + p)%nat
    else None.
Proof.
  intros Hi. unfold slot_cells. rewrite lookup_take.
  pose proof sizeofT_pos.
  repeat case_decide; try lia; [apply lookup_drop | reflexivity].
Qed.

Lemma set_slot_length (b : block) i cs :
  0 <= i -> i * sizeofT + len cs <= len b ->
  length (set_slot b i cs) = length b.
Proof.
  intros Hi Hb. pose proof sizeofT_pos.
  apply splice_length; [nia | assumption].
Qed.

Lemma set_slot_same (b : block) i cs :
  0 <= i -> len cs = sizeofT -> i * sizeofT + sizeofT <= len b ->
  slot_cells (set_slot b i cs) i = cs.
Proof.
  intros Hi Hc Hb. pose proof sizeofT_pos. unfold slot_cells, set_slot, len in *.
  rewrite drop_app_length' by (rewrite length_take; nia).
  rewrite take_app_length' by lia. reflexivity.
Qed.

Lemma set_slot_other (b : block) i j cs :
  0 <= i -> 0 <= j -> i <> j -> len cs = sizeofT ->
  i * sizeofT + sizeofT <= len b ->
  slot_cells (set_slot b i cs) j = slot_cells b j.
Proof.
  intros Hi Hj Hne Hc Hb. pose proof sizeofT_pos.
  apply list_eq. intros p. rewrite !slot_cells_lookup by assumption.
  case_decide; [|reflexivity].
  apply splice_lookup_outside; [nia | lia |].
  rewrite Hc. nia.
Qed.

Lemma determinate_repr (v : T) : determinate (map Some (repr v)) = Some (repr v).
Proof.
  unfold determinate. apply mapM_Some.
  induction (repr v); constructor; auto.
Qed.

Lemma slot_value_set_same (b : block) i (v : T) :
  0 <= i -> i * sizeofT + sizeofT <= len b ->
  slot_value (set_slot b i (map Some (repr v))) i = Some v.
Proof.
  intros Hi Hb. unfold slot_value.
  rewrite set_slot_same by (try apply repr_length; assumption).
  rewrite determinate_repr, unrepr_repr. reflexivity.
Qed.

Lemma slot_value_set_other (b : block) i j (v : T) :
  0 <= i -> 0 <= j -> i <> j -> i * sizeofT + sizeofT <= len b ->
  slot_value (set_slot b i (map Some (repr v))) j = slot_value b j.
Proof.
  intros Hi Hj Hne Hb. unfold slot_value.
  rewrite set_slot_other by (try apply repr_length; assumption).
  reflexivity.
Qed.

Lemma load_bytes_slot p i h b :
  live_block p h = Some b -> 0 <= i -> i * sizeofT + sizeofT <= len b ->
  load_bytes (elem_ptr p i) sizeofT h = Some (slot_cells b i).
Proof.
  intros Hb Hi Hlen. pose proof sizeofT_pos.
  unfold load_bytes, elem_ptr. simpl. rewrite Hb.
  destruct (_ && _) eqn:Hc; [reflexivity|].
  rewrite !andb_false_iff, !Z.leb_gt in Hc. nia.
Qed.

Lemma read_elem_slot p i q h b v :
  live_block p h = Some b -> 0 <= i -> i * sizeofT + sizeofT <= len b ->
  slot_value b i = Some v ->
  read_elem p i (q, h) = (Done v, (q, h)).
Proof.
  intros Hb Hi Hlen Hv. unfold read_elem.
  rewrite (load_bytes_slot p i h b) by assumption.
  unfold slot_value in Hv. destruct (determinate _); [|discriminate].
  injection Hv as <-. reflexivity.
Qed.

Lemma deref_slot p i h b :
  live_block p h = Some b -> 0 <= i -> i * sizeofT + sizeofT <= len b ->
  deref (elem_ptr p i) h =
    match slot_value b i with
    | Some v => Done v
    | None => Undefined indeterminate_read
    end.
Proof.
  intros Hb Hi Hlen. unfold deref.
  rewrite (load_bytes_slot p i h b) by assumption.
  unfold slot_value. destruct (determinate _); reflexivity.
Qed.

(** A successful write replaces one slot of one block. *)
Lemma write_elem_slot p i (v : T) q h b :
  live_block p h = Some b -> 0 <= i -> i * sizeofT + sizeofT <= len b ->
  exists h',
    write_elem p i v (q, h) = (Done tt, (q, h')) /\
    live_block p h' = Some (set_slot b i (map Some (repr v))) /\
    avail h' = avail h /\ length (blocks h') = length (blocks h) /\
    (forall p', p' <> p -> live_block p' h' = live_block p' h).
Proof.
  intros Hb Hi Hlen. pose proof sizeofT_pos. pose proof (repr_length v) as Hr.
  unfold write_elem.
  destruct (store_bytes (elem_ptr p i) (map Some (repr v)) h) as [h'|] eqn:Hs.
  - exists h'. split; [reflexivity|].
    apply store_bytes_frame in Hs as (Ha & Hl & Ho & b0 & Hb0 & _ & _ & Hb').
    simpl in *. rewrite Hb in Hb0. injection Hb0 as <-.
    repeat split; try assumption.
    intros p' Hp'. unfold live_block. rewrite Ho by assumption. reflexivity.
  - exfalso. unfold store_bytes, elem_ptr in Hs. simpl in Hs. rewrite Hb in Hs.
    destruct (_ && _) eqn:Hc; [discriminate|].
    rewrite !andb_false_iff, !Z.leb_gt in Hc. nia.
Qed.

(** Moving an element out returns it and leaves its moved-from state in
    the slot. *)
Lemma move_out_slot p i q h b v :
  live_block p h = Some b -> 0 <= i -> i * sizeofT + sizeofT <= len b ->
  slot_value b i = Some v ->
  exists h',
    move_out p i (q, h) = (Done v, (q, h')) /\
    live_block p h' = Some (set_slot b i (map Some (repr (moved_from v)))) /\
    avail h' = avail h /\ length (blocks h') = length (blocks h) /\
    (forall p', p' <> p -> live_block p' h' = live_block p' h).
Proof.
  intros Hb Hi Hlen Hv. unfold move_out. run.
  rewrite (read_elem_slot p i q h b v) by assumption.
  destruct (write_elem_slot p i (moved_from v) q h b Hb Hi Hlen)
    as (h' & Hw & Hrest).
  exists h'. rewrite Hw. auto.
Qed.

End Slots.

(** ** What [to_vector] returns *)

Section Draining.
Context {T : Type} `{HL : ElemLaws T}.

Lemma mod_inj_small a b m :
  a mod m = b mod m -> - m < a - b < m -> a = b.
Proof.
  intros Hab Hm.
  assert (m <> 0) by lia.
  pose proof (Z.div_mod a m ltac:(assumption)).
  pose proof (Z.div_mod b m ltac:(assumption)).
  assert (a - b = m * (a / m - b / m)) by lia.
  assert (a / m - b / m = 0) by nia. lia.
Qed.

Lemma ring_indices_NoDup q : pow2_mask (mask_ q) -> NoDup (ring_indices q).
Proof.
  intros Hm. apply NoDup_alt. intros j1 j2 x H1 H2.
  pose proof (size_range q Hm) as Hsz.
  assert (Hj1 : (j1 < Z.to_nat (size q))%nat).
  { rewrite <- (ring_indices_length q). eapply lookup_lt_Some, H1. }
  assert (Hj2 : (j2 < Z.to_nat (size q))%nat).
  { rewrite <- (ring_indices_length q). eapply lookup_lt_Some, H2. }
  rewrite ring_indices_lookup in H1, H2 by assumption.
  injection H1 as <-. injection H2 as H2.
  apply mod_inj_small in H2; lia.
Qed.

Lemma ring_indices_range q i :
  pow2_mask (mask_ q) -> i ∈ ring_indices q -> 0 <= i <= mask_ q.
Proof.
  intros Hm Hi. unfold ring_indices in Hi.
  apply list_elem_of_fmap in Hi as (j & -> & _).
  apply land_mask_range, Hm.
Qed.

Lemma Forall2_impl_in {A B} (P Q : A -> B -> Prop) (l : list A) (k : list B) :
  Forall2 P l k -> (forall x y, x ∈ l -> P x y -> Q x y) -> Forall2 Q l k.
Proof.
  induction 1 as [|x y l k HP _ IH]; intros HPQ; constructor.
  - apply HPQ; [left | exact HP].
  - apply IH. intros x' y' Hin. apply HPQ. right. exact Hin.
Qed.

(** Draining a list of distinct slots that hold elements returns those
    elements, in the order of the list; only the object's own block is
    written. *)
Lemma drain_list_values l :
  NoDup l ->
  forall q h b acc vs,
    live_block (data_ q) h = Some b ->
    (forall i, i ∈ l -> 0 <= i /\ i * sizeofT + sizeofT <= len b) ->
    Forall2 (fun i v => slot_value b i = Some v) l vs ->
    exists h',
      visit_list drain l acc (q, h) = (Done (acc ++ vs), (q, h')) /\
      is_Some (live_block (data_ q) h') /\
      (forall p', p' <> data_ q -> live_block p' h' = live_block p' h).
Proof.
  induction 1 as [|i l Hnotin Hnd IH]; intros q h b acc vs Hb Hin Hvs.
  - inversion Hvs; subst. exists h. simpl. rewrite app_nil_r.
    split; [reflexivity|]. split; [rewrite Hb; eauto | auto].
  - inversion Hvs as [|? v ? vs' Hv Hvs']; subst.
    destruct (Hin i ltac:(left)) as [Hi Hlen].
    destruct (move_out_slot (data_ q) i q h b v Hb Hi Hlen Hv)
      as (h1 & Hmv & Hb1 & _ & _ & Hother).
    cbn [visit_list]. unfold drain at 1. run. rewrite Hmv. run.
    pose proof (repr_length (moved_from v)) as Hr.
    assert (Hlen1 : len (set_slot b i (map Some (repr (moved_from v)))) = len b).
    { unfold len. f_equal. apply set_slot_length; lia. }
    destruct (IH q h1 _ (acc ++ [v]) vs' Hb1) as (h' & Hrun & Hlive & Hother').
    + intros j Hj. rewrite Hlen1. apply Hin. right. exact Hj.
    + eapply Forall2_impl_in; [exact Hvs'|].
      intros j w Hj Hw. simpl in Hw.
      rewrite slot_value_set_other; [exact Hw | exact Hi | | | exact Hlen].
      * apply (Hin j). right. exact Hj.
      * intros ->. contradiction.
    + exists h'. rewrite Hrun, <- app_assoc. simpl.
      split; [reflexivity|]. split; [exact Hlive|].
      intros p' Hp'. rewrite Hother', Hother by assumption. reflexivity.
Qed.

(** On a well-formed buffer whose live slots hold the elements [vs],
    [to_vector] returns [vs]. *)
Lemma to_vector_values q h b vs (fuel : nat) :
  ring_ok q -> block_ok q h b ->
  mapM (slot_value b) (ring_indices q) = Some vs ->
  size q < Z.of_nat fuel ->
  exists h',
    to_vector fuel (q, h) = (Done vs, (q, h')) /\
    is_Some (live_block (data_ q) h') /\
    (forall p', p' <> data_ q -> live_block p' h' = live_block p' h).
Proof.
  intros Hok [Hb Hlen] Hvs Hfuel.
  rewrite to_vector_ring by assumption. destruct Hok as (Hm & Hs & He).
  apply mapM_Some in Hvs.
  destruct (drain_list_values (ring_indices q) (ring_indices_NoDup q Hm)
              q h b [] vs Hb) as (h' & Hrun & Hrest); [|exact Hvs|].
  - intros i Hi. apply ring_indices_range in Hi; [|exact Hm].
    pose proof sizeofT_pos. rewrite Hlen. nia.
  - exists h'. rewrite Hrun. auto.
Qed.

End Draining.

(** ** The copy constructor *)

Section Copying.
Context {T : Type} `{HL : ElemLaws T}.

Lemma malloc_fresh n h :
  0 <= n <= avail h ->
  malloc n h =
    (Some (length (blocks h)),
     Heap (blocks h ++ [Some (replicate (Z.to_nat n) None)]) (avail h - n)).
Proof.
  intros Hn. unfold malloc. destruct (Z.leb_spec n (avail h)); [reflexivity | lia].
Qed.

Lemma live_block_app_old p h b bnew a :
  live_block p h = Some b ->
  live_block p (Heap (blocks h ++ [bnew]) a) = Some b /\
  p <> length (blocks h).
Proof.
  unfold live_block. simpl. intros Hb.
  destruct (blocks h !! p) as [ob|] eqn:E; [|discriminate].
  pose proof (lookup_lt_Some _ _ _ E).
  rewrite lookup_app_l by assumption. rewrite E. split; [exact Hb | lia].
Qed.

Lemma live_block_app_new h b a :
  live_block (length (blocks h)) (Heap (blocks h ++ [Some b]) a) = Some b.
Proof.
  unfold live_block. simpl.
  rewrite lookup_app_r by lia. rewrite Nat.sub_diag. reflexivity.
Qed.

(** The copying loop, started at [i] with [n] slots to go. *)
Lemma copy_loop_copies (other : queue) (d : nat) (bsrc : block) (n : nat) :
  d <> data_ other ->
  stop_ other < modulus ->
  stop_ other * sizeofT <= len bsrc ->
  forall (fuel : nat) i this h bdst,
    data_ this = d ->
    live_block (data_ other) h = Some bsrc ->
    live_block d h = Some bdst ->
    len bdst = len bsrc ->
    0 <= i -> i + Z.of_nat n = stop_ other ->
    (forall j, i <= j < stop_ other -> is_Some (slot_value bsrc j)) ->
    (n < fuel)%nat ->
    exists h' bdst',
      for_loop fuel (copy_cond other) (copy_step other) i tt (this, h)
      = (Done tt, (this, h')) /\
      live_block (data_ other) h' = Some bsrc /\
      live_block d h' = Some bdst' /\
      length bdst' = length bdst /\
      (forall j, i <= j < stop_ other -> slot_value bdst' j = slot_value bsrc j) /\
      (forall p : nat,
         ~ (i * sizeofT <= Z.of_nat p < stop_ other * sizeofT) ->
         bdst' !! p = bdst !! p).
Proof.
  intros Hd Hstop Hsrc. pose proof sizeofT_pos as Hsz.
  induction n as [|n IH]; intros fuel i this h bdst Hthis Hbs Hbd Hlen Hi Hn Hdet Hf.
  - destruct fuel as [|fuel]; [lia|].
    assert (i = stop_ other) by lia. subst i.
    exists h, bdst. cbn [for_loop]. unfold copy_cond at 1. run.
    rewrite Z.eqb_refl. cbn [negb].
    repeat split; try assumption. intros j Hj. lia.
  - destruct fuel as [|fuel]; [lia|].
    destruct (Hdet i ltac:(lia)) as [v Hv].
    assert (Hin : i * sizeofT + sizeofT <= len bsrc) by nia.
    cbn [for_loop]. unfold copy_cond at 1, copy_step at 1. run.
    destruct (Z.eqb_spec i (stop_ other)); [lia|]. cbn [negb].
    rewrite (read_elem_slot (data_ other) i this h bsrc v) by assumption.
    run. rewrite Hthis.
    assert (Hin' : i * sizeofT + sizeofT <= len bdst) by (rewrite Hlen; exact Hin).
    destruct (write_elem_slot d i v this h bdst Hbd Hi Hin')
      as (h1 & Hw & Hbd1 & _ & _ & Hother).
    rewrite Hw. run.
    rewrite wrap_small by lia.
    pose proof (repr_length v) as Hr.
    assert (Hl1 : length (set_slot bdst i (map Some (repr v))) = length bdst).
    { apply set_slot_length; lia. }
    assert (Hbs1 : live_block (data_ other) h1 = Some bsrc).
    { rewrite Hother by congruence. exact Hbs. }
    assert (Hlen1 : len (set_slot bdst i (map Some (repr v))) = len bsrc).
    { unfold len in *. lia. }
    assert (Hdet1 : forall j, i + 1 <= j < stop_ other -> is_Some (slot_value bsrc j)).
    { intros j Hj. apply Hdet. lia. }
    destruct (IH fuel (i + 1) this h1 _ Hthis Hbs1 Hbd1 Hlen1
                ltac:(lia) ltac:(lia) Hdet1 ltac:(lia))
      as (h' & bdst' & Hrun & Hbs' & Hbd' & Hl' & Hslots & Hbytes).
    exists h', bdst'. rewrite Hrun.
    split; [reflexivity|]. split; [exact Hbs'|]. split; [exact Hbd'|].
    split; [lia|]. split.
    + intros j Hj. destruct (Z.eq_dec j i) as [->|Hji].
      * rewrite Hv. rewrite <- (slot_value_set_same bdst i v) by lia.
        assert (Hcells : slot_cells bdst' i
                         = slot_cells (set_slot bdst i (map Some (repr v))) i).
        { apply list_eq. intros p. rewrite !slot_cells_lookup by lia.
          case_decide; [|reflexivity]. apply Hbytes. nia. }
        unfold slot_value. rewrite Hcells. reflexivity.
      * apply Hslots. lia.
    + intros p Hp. rewrite Hbytes by nia.
      apply splice_lookup_outside; [nia | lia |]. rewrite Hr. nia.
Qed.


Lemma size_unwrapped q :
  ring_ok q -> start_ q <= stop_ q -> size q = stop_ q - start_ q.
Proof.
  intros ((k & Hk & Hq) & Hs & He) Hle. unfold size.
  rewrite Hq in *. rewrite Z.ones_equiv in Hs, He.
  rewrite Z.land_ones, wrap_mod_pow2 by lia. apply Z.mod_small. lia.
Qed.

Lemma ring_indices_unwrapped q i :
  ring_ok q -> start_ q <= stop_ q -> i ∈ ring_indices q ->
  start_ q <= i < stop_ q.
Proof.
  intros Hok Hle Hi. pose proof (size_unwrapped q Hok Hle) as Hsz.
  destruct Hok as (Hm & Hs & He).
  unfold ring_indices in Hi. apply list_elem_of_fmap in Hi as (j & -> & Hj).
  apply elem_of_seq in Hj. rewrite land_mask_id; [lia | exact Hm | lia].
Qed.

Lemma mapM_agree {A B} (f g : A -> option B) (l : list A) (k : list B) :
  (forall x, x ∈ l -> g x = f x) -> mapM f l = Some k -> mapM g l = Some k.
Proof.
  intros Hfg Hf. apply mapM_Some. apply mapM_Some in Hf.
  eapply Forall2_impl_in; [exact Hf|]. intros x y Hx Hy. simpl in *.
  rewrite Hfg by assumption. exact Hy.
Qed.

(** [pop] writes to no block but the object's own. *)
Lemma pop_heap_frame q h (r : outcome T) q2 h2 :
  pop (q, h) = (r, (q2, h2)) ->
  forall p', p' <> data_ q -> live_block p' h2 = live_block p' h.
Proof.
  unfold pop. run. destruct (stop_ q =? start_ q).
  - intros [= <- <- <-]. reflexivity.
  - destruct q as [m s e d]. run.
    match goal with |- context [move_out ?p ?i ?s] =>
      destruct (move_out p i s) as [r1 [q1 h1]] eqn:Hmv end.
    apply move_out_frame in Hmv as [-> (_ & _ & Ho & _)].
    destruct r1; run; intros [= <- <- <-] p' Hp';
      unfold live_block; rewrite Ho by assumption; reflexivity.
Qed.

(** C5, as the code has it: the copy of a buffer whose occupied range
    does not wrap ([start_ <= stop_]) owns a fresh block of
    [mask_ + 1] slots, has the same [mask_], [start_] and [stop_], and
    holds the live elements, and nothing else, in the slots they occupy
    in the original, [[start_, stop_)]; [to_vector] on the copy returns
    the live elements of the original, and popping from the copy changes
    neither the block of the original nor what [to_vector] returns on
    it. *)
Theorem copy_ctor_unwrapped q h b vs (fuel : nat) :
  ring_ok q -> start_ q <= stop_ q -> block_ok q h b ->
  mask_ q + 1 < modulus ->
  mapM (slot_value b) (ring_indices q) = Some vs ->
  (mask_ q + 1) * sizeofT <= avail h ->
  (mask_ q + 1) * sizeofT < 2 ^ 64 ->
  size q < Z.of_nat fuel ->
  exists q' h' b',
    copy_ctor fuel q h = (Done q', h') /\
    data_ q' = length (blocks h) /\ data_ q' <> data_ q /\
    mask_ q' = mask_ q /\ start_ q' = start_ q /\ stop_ q' = stop_ q /\
    block_ok q' h' b' /\ live_block (data_ q) h' = Some b /\
    (forall i, start_ q <= i < stop_ q -> slot_value b' i = slot_value b i) /\
    (forall p : nat, (p < length b')%nat ->
       ~ (start_ q * sizeofT <= Z.of_nat p < stop_ q * sizeofT) ->
       b' !! p = Some None) /\
    (exists h1, to_vector fuel (q', h') = (Done vs, (q', h1))) /\
    (forall r q2 h2, pop (q', h') = (r, (q2, h2)) ->
       live_block (data_ q) h2 = Some b /\
       size q = Z.of_nat (length vs) /\
       exists h3, to_vector fuel (q, h2) = (Done vs, (q, h3))).
Proof.
  intros Hok Hle [Hb Hlen] Hcap Hvs Havail Hsize Hfuel.
  pose proof sizeofT_pos as Hsz.
  pose proof (size_unwrapped q Hok Hle) as Hsize_q.
  pose proof Hok as (Hm & Hs & He).
  unfold copy_ctor.
  assert (Hbytes : size_mul sizeofT (wrap (mask_ q + 1)) = (mask_ q + 1) * sizeofT).
  { unfold size_mul. rewrite wrap_small by lia.
    rewrite Z.mul_comm. apply Z.mod_small. nia. }
  rewrite Hbytes, malloc_fresh by nia. cbv beta iota zeta.
  set (bnew := replicate (Z.to_nat ((mask_ q + 1) * sizeofT)) (@None byte)).
  set (h0 := Heap (blocks h ++ [Some bnew]) (avail h - (mask_ q + 1) * sizeofT)).
  set (d := length (blocks h)).
  set (this := Queue (mask_ q) (start_ q) (stop_ q) d).
  destruct (live_block_app_old (data_ q) h b (Some bnew) (avail h0) Hb)
    as [Hb0 Hfresh].
  fold h0 in Hb0.
  assert (Hd0 : live_block d h0 = Some bnew) by apply live_block_app_new.
  assert (Hlnew : len bnew = len b).
  { unfold len, bnew. rewrite length_replicate. unfold len in Hlen. nia. }
  assert (Hdet : forall j, start_ q <= j < stop_ q -> is_Some (slot_value b j)).
  { intros j Hj. apply mapM_Some in Hvs.
    assert (Hin : j ∈ ring_indices q).
    { unfold ring_indices. apply list_elem_of_fmap.
      exists (Z.to_nat (j - start_ q)). split.
      - rewrite land_mask_id; [lia | exact Hm | lia].
      - apply elem_of_seq. lia. }
    apply list_elem_of_lookup in Hin as [n Hn].
    destruct (Forall2_lookup_l _ _ _ _ _ Hvs Hn) as (v & _ & Hv). eauto. }
  destruct (copy_loop_copies q d b (Z.to_nat (size q))
              ltac:(lia) ltac:(lia) ltac:(nia)
              fuel (start_ q) this h0 bnew eq_refl Hb0 Hd0 Hlnew
              ltac:(lia) ltac:(lia) Hdet ltac:(lia))
    as (h' & b' & Hrun & Hb' & Hd' & Hl' & Hslots & Hout).
  rewrite Hrun. exists this, h', b'.
  assert (Hok' : ring_ok this) by exact Hok.
  assert (Hblk' : block_ok this h' b').
  { split; [exact Hd'|]. simpl. unfold len in *. lia. }
  assert (Hvs' : mapM (slot_value b') (ring_indices this) = Some vs).
  { apply (mapM_agree (slot_value b)); [|exact Hvs].
    intros i Hi. apply Hslots. apply ring_indices_unwrapped; assumption. }
  split; [reflexivity|]. split; [reflexivity|]. split; [simpl; lia|].
  split; [reflexivity|]. split; [reflexivity|]. split; [reflexivity|].
  split; [exact Hblk'|]. split; [exact Hb'|]. split; [exact Hslots|].
  split; [|split].
  - intros p Hp Hrange. rewrite Hout by exact Hrange.
    apply lookup_replicate_2. unfold bnew in Hl'.
    rewrite length_replicate in Hl'. lia.
  - destruct (to_vector_values this h' b' vs fuel Hok' Hblk' Hvs' Hfuel)
      as (h1 & Htv & _). eauto.
  - intros r q2 h2 Hpop.
    assert (Hb2 : live_block (data_ q) h2 = Some b).
    { rewrite (pop_heap_frame this h' r q2 h2 Hpop) by (simpl; lia). exact Hb'. }
    split; [exact Hb2|]. split.
    { apply mapM_Some, Forall2_length in Hvs.
      rewrite ring_indices_length in Hvs.
      pose proof (size_range q Hm). lia. }
    destruct (to_vector_values q h2 b vs fuel Hok (conj Hb2 Hlen) Hvs Hfuel)
      as (h3 & Htv & _). eauto.
Qed.

End Copying.

(** ** The constructor and the index invariant *)

(** One smearing step [y |= y >> w] doubles the run of ones below the
    leading bit. *)
Lemma smear_step n w y :
  0 <= w ->
  (forall i, n < i -> Z.testbit y i = false) ->
  (forall i, 0 <= i -> n - w < i <= n -> Z.testbit y i = true) ->
  (forall i, n < i -> Z.testbit (Z.lor y (Z.shiftr y w)) i = false) /\
  (forall i, 0 <= i -> n - (w + w) < i <= n ->
     Z.testbit (Z.lor y (Z.shiftr y w)) i = true).
Proof.
  intros Hw Hhigh Hrun. split.
  - intros i Hi. destruct (Z.neg_nonneg_cases i) as [Hneg|Hpos].
    + apply Z.testbit_neg_r, Hneg.
    + rewrite Z.lor_spec, Z.shiftr_spec by assumption.
      rewrite !Hhigh by lia. reflexivity.
  - intros i Hi Hr. rewrite Z.lor_spec, Z.shiftr_spec by assumption.
    destruct (Z.lt_ge_cases (n - w) i) as [Hnear|Hfar].
    + rewrite (Hrun i) by lia. reflexivity.
    + rewrite (Hrun (i + w)) by lia. apply orb_true_r.
Qed.

(** The five steps of [roundup<uint32_t>] turn a non-zero [y < 2^32]
    into [2^(log2 y + 1) - 1]. *)
Lemma smear_ones y :
  0 < y < modulus ->
  let y1 := Z.lor y (Z.shiftr y 1) in
  let y2 := Z.lor y1 (Z.shiftr y1 2) in
  let y3 := Z.lor y2 (Z.shiftr y2 4) in
  let y4 := Z.lor y3 (Z.shiftr y3 8) in
  Z.lor y4 (Z.shiftr y4 16) = Z.ones (Z.log2 y + 1).
Proof.
  intros Hy. set (n := Z.log2 y).
  assert (Hn : 0 <= n < bits).
  { unfold n. split; [apply Z.log2_nonneg|].
    apply Z.log2_lt_pow2; [lia|]. fold modulus. lia. }
  assert (H0 : (forall i, n < i -> Z.testbit y i = false) /\
               (forall i, 0 <= i -> n - 1 < i <= n -> Z.testbit y i = true)).
  { split.
    - intros i Hi. apply Z.bits_above_log2; [lia | exact Hi].
    - intros i _ Hi. replace i with n by lia. apply Z.bit_log2. lia. }
  intros y1 y2 y3 y4.
  destruct H0 as [Hh0 Hr0].
  destruct (smear_step n 1 y ltac:(lia) Hh0 Hr0) as [Hh1 Hr1]. fold y1 in Hh1, Hr1.
  destruct (smear_step n 2 y1 ltac:(lia) Hh1 Hr1) as [Hh2 Hr2]. fold y2 in Hh2, Hr2.
  destruct (smear_step n 4 y2 ltac:(lia) Hh2 Hr2) as [Hh3 Hr3]. fold y3 in Hh3, Hr3.
  destruct (smear_step n 8 y3 ltac:(lia) Hh3 Hr3) as [Hh4 Hr4]. fold y4 in Hh4, Hr4.
  destruct (smear_step n 16 y4 ltac:(lia) Hh4 Hr4) as [Hh5 Hr5].
  apply Z.bits_inj'. intros i Hi.
  destruct (Z.lt_ge_cases n i) as [Hgt|Hle].
  - rewrite Hh5 by exact Hgt. symmetry. apply Z.ones_spec_high. lia.
  - rewrite Hr5 by (unfold bits in Hn; lia). symmetry. apply Z.ones_spec_low. lia.
Qed.

(** [roundup(x) - 1] is a mask, for every [x]. *)
Lemma roundup_mask x : pow2_mask (wrap (roundup x - 1)).
Proof.
  unfold roundup. pose proof (wrap_range (x - 1)) as Hy.
  destruct (Z.eq_dec (wrap (x - 1)) 0) as [E|E].
  - rewrite E. exists 0. split; [unfold bits; lia | reflexivity].
  - cbv zeta. rewrite smear_ones by lia.
    set (n := Z.log2 (wrap (x - 1))).
    assert (Hn : 0 <= n < bits).
    { unfold n. split; [apply Z.log2_nonneg|].
      apply Z.log2_lt_pow2; [lia|]. fold modulus. lia. }
    exists (n + 1). split; [lia|].
    pose proof (ones_range (n + 1) ltac:(lia)) as Hr.
    rewrite Z.ones_equiv in *.
    replace (Z.pred (2 ^ (n + 1)) + 1) with (2 ^ (n + 1)) by lia.
    destruct (Z.eq_dec (2 ^ (n + 1)) modulus) as [Htop|Hlow].
    + rewrite Htop. unfold wrap at 2. rewrite Z.mod_same by (rewrite modulus_eq; lia).
      reflexivity.
    + rewrite (wrap_small (2 ^ (n + 1))) by lia. apply wrap_small. lia.
Qed.

(** The constructor's [assert] holds for every mask. *)
Lemma mask_assert m : pow2_mask m -> Z.land m (wrap (m + 1)) = 0.
Proof.
  intros (k & Hk & ->). pose proof (ones_range k Hk) as Hr.
  rewrite Z.ones_equiv in *.
  replace (Z.pred (2 ^ k) + 1) with (2 ^ k) by lia.
  destruct (Z.eq_dec (2 ^ k) modulus) as [Htop|Hlow].
  - rewrite Htop. unfold wrap. rewrite Z.mod_same by (rewrite modulus_eq; lia).
    apply Z.land_0_r.
  - rewrite wrap_small by lia. rewrite Z.land_comm, <- Z.ones_equiv, Z.land_ones by lia.
    apply Z.mod_same. pose proof (pow2_pos k). lia.
Qed.

Section Invariant.
Context {T : Type} `{HE : Elem T}.

(** The constructor never trips its assertion, and the object it returns
    is empty at offset 0 with a mask of the form [2^k - 1]. *)
Lemma ctor_ring_ok size h :
  fst (ctor size h) <> Undefined assertion_failed /\
  forall q h', ctor size h = (Done q, h') ->
    ring_ok q /\ start_ q = 0 /\ stop_ q = 0 /\
    mask_ q = wrap (roundup (wrap (size + 1)) - 1) /\
    live_block (data_ q) h'
      = Some (replicate (Z.to_nat (size_mul (wrap (mask_ q + 1)) sizeofT)) None).
Proof.
  unfold ctor. set (m := wrap (roundup (wrap (size + 1)) - 1)).
  pose proof (roundup_mask (wrap (size + 1))) as Hm. fold m in Hm.
  rewrite (mask_assert m Hm). cbn [Z.eqb negb].
  unfold malloc. destruct (_ <=? avail h); cbn [fst].
  - split; [discriminate|]. intros q h' [= <- <-]. cbn [mask_ start_ stop_ data_].
    split.
    { split; [exact Hm|]. destruct Hm as (k & Hk & Hq).
      pose proof (ones_range k Hk). rewrite Hq. simpl. lia. }
    split; [reflexivity|]. split; [reflexivity|]. split; [reflexivity|].
    unfold live_block. cbn [blocks].
    rewrite lookup_app_r by lia. rewrite Nat.sub_diag. reflexivity.
  - split; [discriminate|]. intros q h' [=].
Qed.

(** Doubling keeps the form of the mask. *)
Lemma mask_doubles_pow2 m :
  pow2_mask m ->
  pow2_mask (wrap (Z.shiftl (wrap (m + 1)) 1 - 1)) /\
  m <= wrap (Z.shiftl (wrap (m + 1)) 1 - 1) /\
  0 <= wrap (m + 1) <= wrap (Z.shiftl (wrap (m + 1)) 1 - 1).
Proof.
  intros (k & Hk & ->). pose proof (ones_range k Hk) as Hr.
  rewrite Z.shiftl_mul_pow2 by lia. change (2 ^ 1) with 2.
  rewrite Z.ones_equiv in *.
  replace (Z.pred (2 ^ k) + 1) with (2 ^ k) by lia.
  destruct (Z.eq_dec k bits) as [->|Hlt].
  - fold modulus. unfold wrap at 2. rewrite Z.mod_same by (rewrite modulus_eq; lia).
    split; [exists bits; split; [lia | reflexivity] |].
    split; [vm_compute; discriminate | split; vm_compute; discriminate].
  - assert (Hk1 : 0 <= k + 1 <= bits) by lia.
    pose proof (ones_range (k + 1) Hk1) as Hr1.
    rewrite Z.ones_equiv, Z.pow_add_r in Hr1 by lia. change (2 ^ 1) with 2 in Hr1.
    pose proof (pow2_pos k ltac:(lia)).
    rewrite (wrap_small (2 ^ k)) by lia. rewrite wrap_small by lia.
    split; [|lia]. exists (k + 1). split; [lia|].
    rewrite Z.ones_equiv, Z.pow_add_r by lia. change (2 ^ 1) with 2. lia.
Qed.

(** [resize], when it returns, returns an object that satisfies the
    index invariant. *)
Lemma resize_ring_ok n q h q' h' :
  ring_ok q -> resize n (q, h) = (Done tt, (q', h')) -> ring_ok q'.
Proof.
  intros (Hm & Hs & He).
  destruct (mask_doubles_pow2 (mask_ q) Hm) as (Hm' & Hle & Hcap).
  pose proof (land_mask_range (wrap (stop_ q - start_ q)) (mask_ q) Hm) as Hsz.
  unfold resize. run.
  repeat (case_match; run; simplify_eq; try discriminate);
    intros [= <- <-]; (split; [exact Hm' | cbn [start_ stop_ mask_]; lia]).
Qed.


Lemma push_back_ring_ok (v : T) q h i q' h' :
  ring_ok q -> push_back v (q, h) = (Done i, (q', h')) -> ring_ok q'.
Proof.
  intros Hok. unfold push_back. run.
  assert (Hpre : forall r q1 h1,
    (if Z.land (wrap (stop_ q + 1)) (mask_ q) =? start_ q
     then resize (wrap (Z.shiftl (wrap (mask_ q + 1)) 1))
     else ret tt) (q, h) = (Done r, (q1, h1)) -> ring_ok q1).
  { intros r q1 h1. destruct (_ =? _).
    - destruct r. apply resize_ring_ok, Hok.
    - intros [= <- <-]. exact Hok. }
  match goal with |- context [(if ?c then ?a else ?b) (q, h)] =>
    destruct ((if c then a else b) (q, h)) as [r [q1 h1]] eqn:Hr end.
  destruct r; try discriminate. apply Hpre in Hr.
  destruct Hr as (Hm & Hs & He). destruct q1 as [m s e d]. run.
  match goal with |- context [write_elem ?p ?j ?w (?qq, ?hh)] =>
    pose proof (write_elem_fields p j w qq hh) as Hf;
    destruct (write_elem p j w (qq, hh)) as [r2 [q2 h2]] end.
  simpl in Hf. subst q2. destruct r2; try discriminate. intros [= <- <- <-].
  split; [exact Hm|]. cbn [start_ stop_ mask_] in *.
  pose proof (land_mask_range (wrap (e + 1)) m Hm). lia.
Qed.

Lemma pop_ring_ok q h (v : T) q' h' :
  ring_ok q -> pop (q, h) = (Done v, (q', h')) -> ring_ok q'.
Proof.
  intros (Hm & Hs & He). unfold pop. run.
  destruct (stop_ q =? start_ q); [discriminate|].
  destruct q as [m s e d]. run.
  match goal with |- context [move_out ?p ?i (?qq, ?hh)] =>
    pose proof (move_out_fields p i qq hh) as Hf;
    destruct (move_out p i (qq, hh)) as [r1 [q1 h1]] end.
  simpl in Hf. subst q1. destruct r1; try discriminate. run.
  intros [= <- <- <-]. split; [exact Hm|]. cbn [start_ stop_ mask_] in *.
  pose proof (land_mask_range (wrap (s + 1)) m Hm). lia.
Qed.

Lemma push_pop_ring_ok (v : T) q h r q' h' :
  ring_ok q -> push_pop v (q, h) = (Done r, (q', h')) -> ring_ok q'.
Proof.
  intros Hok. unfold push_pop, push. run.
  destruct (pop (q, h)) as [r1 [q1 h1]] eqn:Hp.
  destruct r1; try discriminate. apply pop_ring_ok in Hp; [|exact Hok].
  destruct (push_back v (q1, h1)) as [r2 [q2 h2]] eqn:Hq.
  destruct r2; try discriminate. apply push_back_ring_ok in Hq; [|exact Hp].
  intros [= <- <- <-]. exact Hq.
Qed.

Lemma clear_ring_ok (fuel : nat) q h q' h' :
  ring_ok q -> clear fuel (q, h) = (Done tt, (q', h')) ->
  ring_ok q' /\ start_ q' = 0 /\ stop_ q' = 0 /\ mask_ q' = mask_ q.
Proof.
  intros (Hm & Hs & He). unfold clear. run.
  match goal with |- context [for_loop ?f ?c ?st ?i ?a ?s] =>
    destruct (for_loop f c st i a s) as [r1 [q1 h1]] eqn:Hl end.
  assert (Hq1 : q1 = q).
  { revert Hl. generalize (start_ q) at 1. generalize tt. clear.
    induction fuel as [|fuel IH]; intros u i; cbn [for_loop].
    - intros [= <- <- <-]. reflexivity.
    - run. rewrite not_at_stop_eq. destruct (negb _); [|intros [= <- <- <-]; reflexivity].
      unfold destroy at 1. run.
      destruct (load_bytes _ _ h); [|intros [= <- <- <-]; reflexivity].
      rewrite next_index_eq. run. apply IH. }
  subst q1. destruct r1; try discriminate. run. intros [= <- <-].
  cbn [start_ stop_ mask_].
  split; [split; [exact Hm | cbn [start_ stop_ mask_]; lia] | auto].
Qed.

(** With [stop_ >= 1], [pop_back] keeps the invariant too. *)
Lemma pop_back_ring_ok q h (v : T) q' h' :
  ring_ok q -> 1 <= stop_ q ->
  pop_back (q, h) = (Done v, (q', h')) -> ring_ok q'.
Proof.
  intros (Hm & Hs & He) H1. unfold pop_back. run.
  destruct (stop_ q =? start_ q); [discriminate|].
  destruct q as [m s e d]. run.
  match goal with |- context [move_out ?p ?i (?qq, ?hh)] =>
    pose proof (move_out_fields p i qq hh) as Hf;
    destruct (move_out p i (qq, hh)) as [r1 [q1 h1]] end.
  simpl in Hf. subst q1. destruct r1; try discriminate. run.
  intros [= <- <- <-]. split; [exact Hm|]. cbn [start_ stop_ mask_] in *.
  destruct Hm as (k & Hk & ->). pose proof (ones_range k Hk).
  rewrite (land_mask_id s (Z.ones k)) by (try lia; exists k; auto).
  rewrite wrap_small by lia. lia.
Qed.

(** From [stop_ == 0] on a non-empty buffer, [pop_back] always leaves
    [stop_] at [2^32 - 1]. *)
Lemma pop_back_from_zero q h :
  stop_ q = 0 -> start_ q <> 0 ->
  stop_ (fst (snd (pop_back (T := T) (q, h)))) = modulus - 1.
Proof.
  intros H0 Hs. unfold pop_back. run.
  destruct (Z.eqb_spec (stop_ q) (start_ q)); [congruence|].
  destruct q as [m s e d]. cbn [stop_] in H0. subst e. run.
  match goal with |- context [move_out ?p ?i (?qq, ?hh)] =>
    pose proof (move_out_fields p i qq hh) as Hf;
    destruct (move_out p i (qq, hh)) as [r1 [q1 h1]] end.
  simpl in Hf. subst q1. destruct r1; reflexivity.
Qed.

(** [back()] agrees with the masked index as long as [stop_] is not 0,
    and names index [2^32 - 1] when it is. *)
Lemma back_within q :
  ring_ok q -> 1 <= stop_ q ->
  back q = elem_ptr (data_ q) (Z.land (wrap (stop_ q - 1)) (mask_ q)).
Proof.
  intros (Hm & Hs & He) H1. unfold back. f_equal.
  pose proof Hm as (k & Hk & Hq). pose proof (ones_range k Hk).
  rewrite wrap_small by lia. symmetry. apply land_mask_id; [exact Hm | lia].
Qed.

Lemma back_from_zero q :
  stop_ q = 0 -> back q = elem_ptr (data_ q) (modulus - 1).
Proof. intros H0. unfold back. rewrite H0. reflexivity. Qed.

End Invariant.

(** ** [resize] on an empty buffer at a non-zero offset *)

Lemma load_bytes_len p n h bs : load_bytes p n h = Some bs -> len bs = n.
Proof.
  unfold load_bytes. destruct (live_block (base p) h) as [b|]; [|discriminate].
  destruct (_ && _) eqn:Hc; [|discriminate]. intros [= <-].
  rewrite !andb_true_iff, !Z.leb_le in Hc.
  unfold len in *. rewrite length_take, length_drop. lia.
Qed.

(** A copy of at least a whole block to a destination inside the block
    leaves the block. *)
Lemma memcpy_overrun dst src n h b :
  live_block (base dst) h = Some b -> 0 < offset dst -> len b <= n ->
  memcpy dst src n h = None.
Proof.
  intros Hb Ho Hn. unfold memcpy.
  destruct (load_bytes src n h) as [bs|] eqn:Hl; [|reflexivity].
  apply load_bytes_len in Hl. unfold store_bytes. rewrite Hb.
  destruct (_ && _) eqn:Hc; [|reflexivity].
  rewrite !andb_true_iff, !Z.leb_le in Hc. lia.
Qed.

Lemma memcpy_keeps_length dst src n h h' b :
  memcpy dst src n h = Some h' -> live_block (base dst) h = Some b ->
  exists b', live_block (base dst) h' = Some b' /\ len b' = len b.
Proof.
  unfold memcpy. destruct (load_bytes src n h) as [bs|]; [|discriminate].
  intros Hs Hb.
  apply store_bytes_frame in Hs as (_ & _ & _ & b0 & Hb0 & Ho & Hl & Hb').
  rewrite Hb in Hb0. injection Hb0 as <-.
  eexists. split; [exact Hb'|]. unfold len. f_equal.
  apply splice_length; assumption.
Qed.

Section EmptyOffset.
Context {T : Type} `{HL : ElemLaws T}.

(** The scratch block of the [start_ == stop_ != 0] branch has
    [mask_ + 1] slots, and the second copy into it starts at slot
    [mask_ + 1 - start_ > 0] and is [mask_ + 1] slots long: [resize]
    cannot return from this branch. *)
Lemma resize_empty_offset_never_returns n q h :
  ring_ok q -> start_ q = stop_ q -> start_ q <> 0 ->
  forall u, fst (resize n (q, h)) <> Done u.
Proof.
  intros (Hm & Hs & He) Heq Hne u. pose proof sizeofT_pos as Hsz.
  assert (Hoff : 0 < wrap (wrap (mask_ q + 1) - start_ q) * sizeofT).
  { destruct Hm as (k & Hk & Hq). pose proof (ones_range k Hk) as Hr.
    rewrite Hq in *. rewrite Z.ones_equiv in *.
    replace (Z.pred (2 ^ k) + 1) with (2 ^ k) by lia.
    assert (0 < wrap (wrap (2 ^ k) - start_ q)); [|nia].
    destruct (Z.eq_dec (2 ^ k) modulus) as [Htop|Hlow].
    - rewrite Htop. unfold wrap at 2.
      rewrite Z.mod_same by (rewrite modulus_eq; lia).
      unfold wrap. rewrite <- (Z.mod_add _ 1) by (rewrite modulus_eq; lia).
      rewrite Z.mod_small; lia.
    - rewrite (wrap_small (2 ^ k)) by lia. rewrite wrap_small; lia. }
  unfold resize. run.
  destruct (n <? mask_ q); [discriminate|]. run.
  destruct (realloc _ _ h) as [[[p1|] h1]|]; try discriminate. run.
  rewrite <- Heq, Z.eqb_refl.
  destruct (Z.eqb_spec (start_ q) 0); [contradiction|]. cbn [negb].
  destruct q as [m s e d]. cbn [mask_ start_ stop_ data_] in *. run.
  set (cap := wrap (m + 1)) in *.
  unfold malloc. destruct (_ <=? avail h1); [|discriminate]. run.
  set (t := length (blocks h1)).
  set (h2 := Heap _ _).
  assert (Ht : live_block t h2
               = Some (replicate (Z.to_nat (size_mul cap sizeofT)) None)).
  { apply live_block_app_new. }
  assert (Hlen : len (replicate (Z.to_nat (size_mul cap sizeofT)) (@None byte))
                 = size_mul cap sizeofT).
  { unfold len. rewrite length_replicate. unfold size_mul.
    pose proof (Z.mod_pos_bound (cap * sizeofT) (2 ^ 64) ltac:(lia)). lia. }
  destruct (memcpy (elem_ptr t 0) _ _ h2) as [h3|] eqn:Hc1; [|discriminate].
  destruct (memcpy_keeps_length _ _ _ _ _ _ Hc1 Ht) as (b3 & Hb3 & Hl3).
  rewrite (memcpy_overrun (elem_ptr t (wrap (cap - s))) _ _ h3 b3);
    [discriminate | exact Hb3 | exact Hoff | ].
  rewrite Hl3, Hlen. lia.
Qed.

End EmptyOffset.

(** ** The scenarios, evaluated *)

(** The scenarios of the specification: a queue of requested size 3 has
    mask 3; three pushes fill it; the fourth doubles it; four pops return
    the values in the order pushed. *)
Example push_four_pop_four :
  fst <$> ctor_then (T := Z) 3
            (push_back 10 ;;; push_back 11 ;;; push_back 12 ;;;
             q3 <- get id ;;
             push_back 13 ;;;
             q4 <- get id ;;
             a <- pop ;; b <- pop ;; c <- pop ;; d <- pop ;;
             ret (size q3, capacity q3, size q4, mask_ q4, [a; b; c; d]))
            fresh_heap
  = Some (Done (3, 3, 4, 7, [10; 11; 12; 13])).
Proof. vm_compute. reflexivity. Qed.

(** Requested size 1: push, [pop_back] returns the value, [pop_front]
    then finds the queue empty. *)
Example push_pop_back_then_empty :
  fst <$> ctor_then (T := Z) 1
            (push_back 42 ;;; x <- pop_back ;; (pop_front : M Z) ;;; ret x)
            fresh_heap
  = Some (Throw EmptyQueue).
Proof. vm_compute. reflexivity. Qed.

Example push_pop_back_value :
  fst <$> ctor_then (T := Z) 1 (push_back 42 ;;; (pop_back : M Z)) fresh_heap
  = Some (Done 42).
Proof. vm_compute. reflexivity. Qed.

(** Before the fourth push of [fifo_across_wrapped_resize] the occupied
    range is wrapped and the buffer is full: the push resizes. *)
Example wrapped_and_full_before_resize :
  fst <$> ctor_then (T := Z) 3
            (push_back 1 ;;; (pop : M Z) ;;;
             push_back 10 ;;; push_back 11 ;;; push_back 12 ;;; get id)
            fresh_heap
  = Some (Done (Queue 3 1 0 0)).
Proof. vm_compute. reflexivity. Qed.

(** With one-byte elements the same calls return what was pushed. *)
Example fifo_across_wrapped_resize_of_bytes :
  fst <$> fifo_across_wrapped_resize_bytes
  = Some (Done [x0a; x0b; x0c; x0d]).
Proof. vm_compute. reflexivity. Qed.

(** C1 fails on the code: on a [uint32_t] queue of 4 slots that is empty
    at offset 1, pushing 10, 11, 12, 13 (the fourth push resizes a wrapped
    range) and popping four times returns 10, 10, 11, 13. *)
Theorem fifo_lost_across_wrapped_resize :
  fst <$> fifo_across_wrapped_resize = Some (Done [10; 10; 11; 13]) /\
  [10; 10; 11; 13] <> [10; 11; 12; 13].
Proof. split; [vm_compute; reflexivity | discriminate]. Qed.

(** C2 fails on the code: [pop_back] on a non-empty buffer with
    [stop_ == 0] (fields inside [[0, mask]]) leaves [stop_] at
    [2^32 - 1], not at [(stop_ - 1) & mask_ = 3], and reads outside the
    block. *)
Theorem pop_back_leaves_stop_unmasked :
  exists q h,
    snd <$> wrapped_state = Some (q, h) /\
    q = Queue 3 2 0 0 /\ ring_okb q = true /\ size q = 2 /\
    fst (pop_back (T := Z) (q, h)) = Undefined out_of_bounds /\
    stop_ (fst (snd (pop_back (T := Z) (q, h)))) = 4294967295 /\
    Z.land (wrap (stop_ q - 1)) (mask_ q) = 3 /\
    ring_okb (fst (snd (pop_back (T := Z) (q, h)))) = false.
Proof.
  eexists _, _. split; [vm_compute; reflexivity|].
  repeat split; vm_compute; reflexivity.
Qed.

(** C3 fails on the code: [resize(8)] on a 4-slot buffer that is empty
    with [start_ == stop_ == 1] does not return with an empty buffer: it
    sets [stop_] to 4 and then copies past the end of its scratch
    block. *)
Theorem resize_empty_offset_overruns :
  exists q h,
    snd <$> empty_offset_state = Some (q, h) /\
    q = Queue 3 1 1 0 /\ ring_okb q = true /\ size q = 0 /\
    fst (resize (T := Z) 8 (q, h)) = Undefined out_of_bounds /\
    stop_ (fst (snd (resize (T := Z) 8 (q, h)))) = 4 /\
    start_ (fst (snd (resize (T := Z) 8 (q, h)))) = 1 /\
    size (fst (snd (resize (T := Z) 8 (q, h)))) <> 0.
Proof.
  eexists _, _. split; [vm_compute; reflexivity|].
  repeat split; try (vm_compute; reflexivity). vm_compute. discriminate.
Qed.

(** C4 fails on the code for [back()]: on a buffer holding 3 and 4 with
    [stop_ == 0], [front()] is the element at [start_], but [back()] is
    the address of index [2^32 - 1], outside the block, while the newest
    element sits at index [mask_]. *)
Theorem back_is_not_wrapped :
  exists q h,
    snd <$> wrapped_state = Some (q, h) /\
    q = Queue 3 2 0 0 /\ size q = 2 /\
    front (T := Z) q = elem_ptr (T := Z) (data_ q) (start_ q) /\
    deref (T := Z) (front (T := Z) q) h = Done 3 /\
    back (T := Z) q = elem_ptr (T := Z) (data_ q) 4294967295 /\
    deref (T := Z) (back (T := Z) q) h = Undefined out_of_bounds /\
    Z.land (wrap (stop_ q - 1)) (mask_ q) = mask_ q /\
    deref (T := Z) (elem_ptr (T := Z) (data_ q) (mask_ q)) h = Done 4.
Proof.
  eexists _, _. split; [vm_compute; reflexivity|].
  repeat split; vm_compute; reflexivity.
Qed.

(** C5 as stated fails on the code: the copy of a buffer holding 10 and
    11 in slots 1 and 2 keeps them in slots 1 and 2 of its own block;
    slot 0 of the copy is never written. *)
Lemma copy_not_from_index_zero :
  exists q h q' h',
    snd <$> offset_pair_state = Some (q, h) /\
    q = Queue 3 1 3 0 /\
    copy_ctor (T := Z) 8 q h = (Done q', h') /\
    start_ q' = 1 /\
    deref (T := Z) (elem_ptr (T := Z) (data_ q') 0) h'
      = Undefined indeterminate_read /\
    deref (T := Z) (elem_ptr (T := Z) (data_ q') 1) h' = Done 10 /\
    ~ copied_from_index_zero (T := Z) q h q' h'.
Proof.
  eexists _, _, _, _. split; [vm_compute; reflexivity|].
  split; [reflexivity|]. split; [vm_compute; reflexivity|].
  split; [reflexivity|]. split; [vm_compute; reflexivity|].
  split; [vm_compute; reflexivity|].
  intros Hc. specialize (Hc 0 ltac:(vm_compute; split; [discriminate | reflexivity])).
  vm_compute in Hc. discriminate.
Qed.

(** The copy of a buffer whose range wraps walks off the block: the
    loop of the copy constructor does not mask its index. *)
Example copy_of_wrapped_overruns :
  exists q h,
    snd <$> wrapped_state = Some (q, h) /\
    fst (copy_ctor (T := Z) 8 q h) = Undefined out_of_bounds.
Proof.
  eexists _, _. split; [vm_compute; reflexivity|].
  vm_compute. reflexivity.
Qed.

(** ** The general statements at a concrete buffer *)

Example bytes_queue_reached :
  snd <$> ctor_then (T := byte) 3
            (push_back x01 ;;; (pop : M byte) ;;; push_back x0a ;;; push_back x0b)
            fresh_heap
  = Some (bytes_queue, bytes_heap).
Proof. vm_compute. reflexivity. Qed.

Lemma copy_ctor_unwrapped_witness :
  exists q' h' b',
    copy_ctor (T := byte) 8 bytes_queue bytes_heap = (Done q', h') /\
    data_ q' = 1%nat /\ start_ q' = 1 /\ stop_ q' = 3 /\
    live_block 1 h' = Some b' /\
    slot_value (T := byte) b' 1 = Some x0a /\
    slot_value (T := byte) b' 2 = Some x0b /\
    b' !! 0%nat = Some None /\
    (exists h1, to_vector (T := byte) 8 (q', h') = (Done [x0a; x0b], (q', h1))).
Proof.
  assert (Hok : ring_ok bytes_queue) by (apply ring_okb_sound; reflexivity).
  assert (Hle : start_ bytes_queue <= stop_ bytes_queue) by (simpl; lia).
  assert (Hblk : block_ok (T := byte) bytes_queue bytes_heap bytes_block)
    by (split; reflexivity).
  assert (Hcap : mask_ bytes_queue + 1 < modulus) by reflexivity.
  assert (Hvs : mapM (slot_value (T := byte) bytes_block) (ring_indices bytes_queue)
                = Some [x0a; x0b]) by reflexivity.
  assert (Hav : (mask_ bytes_queue + 1) * sizeofT (T := byte) <= avail bytes_heap)
    by (vm_compute; discriminate).
  assert (Hsz : (mask_ bytes_queue + 1) * sizeofT (T := byte) < 2 ^ 64) by reflexivity.
  assert (Hfuel : size bytes_queue < Z.of_nat 8) by reflexivity.
  destruct (copy_ctor_unwrapped bytes_queue bytes_heap bytes_block [x0a; x0b] 8
              Hok Hle Hblk Hcap Hvs Hav Hsz Hfuel)
    as (q' & h' & b' & Hrun & Hd & _ & Hm & Hs & He & [Hb' Hlen] & _ & Hslots & Hout
        & Htv & _).
  exists q', h', b'. split; [exact Hrun|]. split; [exact Hd|].
  split; [exact Hs|]. split; [exact He|].
  split; [change 1%nat with (length (blocks bytes_heap)); rewrite <- Hd; exact Hb'|].
  split; [rewrite Hslots by (simpl; lia); reflexivity|].
  split; [rewrite Hslots by (simpl; lia); reflexivity|].
  split; [|exact Htv].
  apply Hout.
  - rewrite Hm in Hlen. unfold len in Hlen. simpl in Hlen. lia.
  - simpl. lia.
Defined.

Lemma resize_doubles_mask_witness :
  resize (T := byte) 8 (bytes_queue, bytes_heap)
  = (Done tt,
     (Queue 7 1 3 1,
      Heap [None; Some [Some x01; Some x0a; Some x0b; None; None; None; None; None]]
           4088)) /\
  7 = wrap (Z.shiftl (wrap (mask_ bytes_queue + 1)) 1 - 1) /\
  7 + 1 = 2 * (mask_ bytes_queue + 1).
Proof.
  assert (Hrun : resize (T := byte) 8 (bytes_queue, bytes_heap)
    = (Done tt,
       (Queue 7 1 3 1,
        Heap [None; Some [Some x01; Some x0a; Some x0b; None; None; None; None; None]]
             4088))) by (vm_compute; reflexivity).
  destruct (resize_doubles_mask (T := byte) 8 bytes_queue bytes_heap _ _ Hrun)
    as [Hm Hk].
  split; [exact Hrun|]. split; [exact Hm|].
  assert (Hbits : 0 <= 2 < bits) by (unfold bits; lia).
  destruct (Hk 2 Hbits eq_refl) as [_ Hd]. exact Hd.
Defined.

Lemma resize_invalid_iff_witness :
  resize (T := byte) 2 (bytes_queue, bytes_heap)
    = (Throw InvalidResize, (bytes_queue, bytes_heap)) /\
  fst (resize (T := byte) 3 (bytes_queue, bytes_heap)) <> Throw InvalidResize.
Proof.
  destruct (resize_invalid_iff (T := byte) 2 bytes_queue bytes_heap) as [_ Hthrow].
  destruct (resize_invalid_iff (T := byte) 3 bytes_queue bytes_heap) as [[Hlt _] _].
  split.
  - apply Hthrow. simpl. lia.
  - intros Hr. apply Hlt in Hr. simpl in Hr. lia.
Defined.

Lemma pop_empty_throws_witness :
  pop (T := byte) (drained_queue, bytes_heap)
    = (Throw EmptyQueue, (drained_queue, bytes_heap)) /\
  pop_back (T := byte) (drained_queue, bytes_heap)
    = (Throw EmptyQueue, (drained_queue, bytes_heap)) /\
  size drained_queue = 0.
Proof.
  destruct (pop_empty_throws (T := byte) drained_queue bytes_heap eq_refl)
    as (Hp & _ & Hb & Hs).
  repeat split; assumption.
Defined.

Lemma pop_back_frame_witness :
  pop_back (T := byte) (bytes_queue, bytes_heap)
    = (Done x0b, (Queue 3 1 2 0, bytes_heap)) /\
  same_but_slot 1 0 2 bytes_heap bytes_heap.
Proof.
  assert (Hrun : pop_back (T := byte) (bytes_queue, bytes_heap)
                 = (Done x0b, (Queue 3 1 2 0, bytes_heap)))
    by (vm_compute; reflexivity).
  assert (Hok : ring_ok bytes_queue) by (apply ring_okb_sound; reflexivity).
  assert (Hne : start_ bytes_queue <> stop_ bytes_queue) by (simpl; lia).
  destruct (pop_back_frame (T := byte) bytes_queue bytes_heap _ _ _ Hok Hne Hrun)
    as (_ & _ & _ & _ & _ & Hframe).
  split; [exact Hrun | exact Hframe].
Defined.

(** ** How the occupied range moves *)

Lemma size_mod q k :
  0 <= k <= bits -> mask_ q = Z.ones k ->
  size q = (stop_ q - start_ q) mod 2 ^ k.
Proof.
  intros Hk Hq. unfold size. rewrite Hq, Z.land_ones, wrap_mod_pow2 by lia.
  reflexivity.
Qed.

Lemma ring_indices_eq q k :
  0 <= k <= bits -> mask_ q = Z.ones k ->
  ring_indices q
  = map (fun j => (start_ q + Z.of_nat j) mod 2 ^ k)
        (seq 0 (Z.to_nat ((stop_ q - start_ q) mod 2 ^ k))).
Proof.
  intros Hk Hq. unfold ring_indices. rewrite (size_mod q k Hk Hq).
  apply map_ext. intros j. rewrite Hq, Z.land_ones by lia. reflexivity.
Qed.

(** The buffer is full exactly when the index after [stop_] is
    [start_]. *)
Lemma full_iff q :
  ring_ok q ->
  (Z.land (wrap (stop_ q + 1)) (mask_ q) = start_ q <-> size q = mask_ q).
Proof.
  intros ((k & Hk & Hq) & Hs & He). rewrite (size_mod q k Hk Hq).
  rewrite Hq in *. rewrite Z.land_ones, wrap_mod_pow2 by lia.
  rewrite Z.ones_equiv in *. pose proof (pow2_pos k ltac:(lia)) as Hp.
  pose proof (Z.mod_pos_bound (stop_ q - start_ q) (2 ^ k) Hp) as Hd.
  split.
  - intros Hfull.
    assert (Hz : (stop_ q - start_ q + 1) mod 2 ^ k = 0).
    { replace (stop_ q - start_ q + 1) with ((stop_ q + 1) - start_ q) by lia.
      rewrite <- Zminus_mod_idemp_l, Hfull, Z.sub_diag. apply Z.mod_0_l. lia. }
    rewrite <- Zplus_mod_idemp_l in Hz.
    destruct (Z.eq_dec ((stop_ q - start_ q) mod 2 ^ k + 1) (2 ^ k)) as [E|E]; [lia|].
    rewrite Z.mod_small in Hz; lia.
  - intros Hsz.
    assert (Hz : (stop_ q + 1 - start_ q) mod 2 ^ k = 0).
    { replace (stop_ q + 1 - start_ q) with ((stop_ q - start_ q) + 1) by lia.
      rewrite <- Zplus_mod_idemp_l, Hsz.
      replace (Z.pred (2 ^ k) + 1) with (2 ^ k) by lia. apply Z.mod_same. lia. }
    apply (mod_inj_small _ _ (2 ^ k)).
    + rewrite Z.mod_mod by lia.
      replace (stop_ q + 1) with ((stop_ q + 1 - start_ q) + start_ q) by lia.
      rewrite <- Zplus_mod_idemp_l, Hz. reflexivity.
    + pose proof (Z.mod_pos_bound (stop_ q + 1) (2 ^ k) Hp). lia.
Qed.

(** Advancing [stop_] over a buffer that is not full appends the old
    [stop_] to the occupied indices. *)
Lemma ring_indices_push q :
  ring_ok q -> size q <> mask_ q ->
  let q' := Queue (mask_ q) (start_ q)
                  (Z.land (wrap (stop_ q + 1)) (mask_ q)) (data_ q) in
  ring_ok q' /\ size q' = size q + 1 /\
  ring_indices q' = ring_indices q ++ [stop_ q].
Proof.
  intros Hok Hnf q'. pose proof Hok as (Hm & Hs & He).
  pose proof Hm as (k & Hk & Hq).
  pose proof (land_mask_range (wrap (stop_ q + 1)) (mask_ q) Hm) as He'.
  assert (Hok' : ring_ok q') by (split; [exact Hm | cbn; lia]).
  pose proof (pow2_pos k ltac:(lia)) as Hp.
  assert (Hsz : (stop_ q - start_ q) mod 2 ^ k = size q) by (symmetry; apply size_mod; assumption).
  pose proof (size_range q Hm) as Hr.
  assert (Hones : Z.ones k = 2 ^ k - 1) by (rewrite Z.ones_equiv; lia).
  assert (Hsz' : (Z.land (wrap (stop_ q + 1)) (mask_ q) - start_ q) mod 2 ^ k
                 = size q + 1).
  { rewrite Hq, Z.land_ones, wrap_mod_pow2 by lia.
    rewrite Zminus_mod_idemp_l.
    replace (stop_ q + 1 - start_ q) with ((stop_ q - start_ q) + 1) by lia.
    rewrite <- Zplus_mod_idemp_l, Hsz. apply Z.mod_small. lia. }
  split; [exact Hok'|]. split.
  - rewrite (size_mod q' k Hk Hq). exact Hsz'.
  - rewrite (ring_indices_eq q' k Hk Hq), (ring_indices_eq q k Hk Hq).
    cbn [start_ stop_ q']. rewrite Hsz', Hsz.
    replace (Z.to_nat (size q + 1)) with (Z.to_nat (size q) + 1)%nat by lia.
    rewrite seq_app, map_app. f_equal. cbn [seq map].
    f_equal. rewrite Nat.add_0_l, Z2Nat.id by lia.
    rewrite <- Hsz, Zplus_mod_idemp_r.
    replace (start_ q + (stop_ q - start_ q)) with (stop_ q) by lia.
    apply Z.mod_small. lia.
Qed.

(** Advancing [start_] over a non-empty buffer removes the first of the
    occupied indices. *)
Lemma ring_indices_pop q :
  ring_ok q -> start_ q <> stop_ q ->
  let q' := Queue (mask_ q) (Z.land (wrap (start_ q + 1)) (mask_ q))
                  (stop_ q) (data_ q) in
  ring_ok q' /\ size q' = size q - 1 /\
  ring_indices q = start_ q :: ring_indices q'.
Proof.
  intros Hok Hne q'. pose proof Hok as (Hm & Hs & He).
  pose proof Hm as (k & Hk & Hq).
  pose proof (land_mask_range (wrap (start_ q + 1)) (mask_ q) Hm) as Hs'.
  assert (Hok' : ring_ok q') by (split; [exact Hm | cbn; lia]).
  pose proof (pow2_pos k ltac:(lia)) as Hp.
  pose proof (size_range q Hm) as Hr.
  assert (Hones : Z.ones k = 2 ^ k - 1) by (rewrite Z.ones_equiv; lia).
  assert (Hpos : size q <> 0).
  { intros Hz. apply Hne. unfold size in Hz. rewrite Hq in Hz.
    apply (ring_done k); [lia | lia | lia | exact Hz]. }
  assert (Hsn : Z.land (wrap (stop_ q - start_ q)) (Z.ones k)
                = Z.of_nat (S (Z.to_nat (size q - 1)))).
  { rewrite <- Hq. fold (size q). lia. }
  destruct (ring_step k (start_ q) (stop_ q) _ Hk ltac:(lia) ltac:(lia) Hsn)
    as [_ Hsz'].
  assert (Hsize' : size q' = size q - 1).
  { unfold size. cbn [start_ stop_ mask_ q']. rewrite Hq, Hsz'. lia. }
  split; [exact Hok'|]. split; [exact Hsize'|].
  unfold ring_indices at 1.
  replace (Z.to_nat (size q)) with (S (Z.to_nat (size q - 1))) by lia.
  cbn [seq map]. f_equal.
  - rewrite Z.add_0_r. apply land_mask_id; assumption.
  - unfold ring_indices. rewrite Hsize'. rewrite <- seq_shift, map_map.
    apply map_ext. intros j. cbn [start_ mask_ q']. rewrite Hq.
    symmetry. apply ring_index_shift. lia.
Qed.

(** Moving [stop_] one step back, when it is not 0, removes the last of
    the occupied indices. *)
Lemma ring_indices_pop_back q :
  ring_ok q -> start_ q <> stop_ q -> 1 <= stop_ q ->
  let q' := Queue (mask_ q) (start_ q) (stop_ q - 1) (data_ q) in
  ring_ok q' /\ size q' = size q - 1 /\
  ring_indices q = ring_indices q' ++ [stop_ q - 1].
Proof.
  intros Hok Hne H1 q'. pose proof Hok as (Hm & Hs & He).
  pose proof Hm as (k & Hk & Hq).
  assert (Hok' : ring_ok q') by (split; [exact Hm | cbn; lia]).
  assert (Hnf : size q' <> mask_ q').
  { intros Hfull. apply (full_iff q' Hok') in Hfull. cbn [q' stop_ start_ mask_] in Hfull.
    replace (stop_ q - 1 + 1) with (stop_ q) in Hfull by lia.
    pose proof (ones_range k Hk). rewrite wrap_small in Hfull by lia.
    rewrite land_mask_id in Hfull by (assumption || lia). congruence. }
  destruct (ring_indices_push q' Hok' Hnf) as (_ & Hsz & Hidx).
  cbn [q' stop_ start_ mask_ data_] in Hsz, Hidx.
  replace (stop_ q - 1 + 1) with (stop_ q) in Hsz, Hidx by lia.
  pose proof (ones_range k Hk).
  rewrite wrap_small, land_mask_id in Hsz, Hidx by (assumption || lia).
  assert (Hsame : Queue (mask_ q) (start_ q) (stop_ q) (data_ q) = q)
    by (destruct q; reflexivity).
  rewrite Hsame in Hsz, Hidx. fold q' in Hsz, Hidx.
  split; [exact Hok'|]. split; [lia | exact Hidx].
Qed.

(** ** Pushing and popping, in terms of the contents *)

Lemma mapM_snoc {A B} (f : A -> option B) (l : list A) (x : A) (vs : list B) (v : B) :
  mapM f (l ++ [x]) = Some (vs ++ [v]) <-> mapM f l = Some vs /\ f x = Some v.
Proof.
  rewrite !mapM_Some. split.
  - intros HF. apply Forall2_app_inv_l in HF as (k1 & k2 & H1 & H2 & Hk).
    inversion H2 as [|? y ? k2' Hy Hnil]; subst. inversion Hnil; subst.
    apply app_inj_tail in Hk as [-> ->]. auto.
  - intros [H1 H2]. apply Forall2_app; [exact H1|]. constructor; [exact H2 | constructor].
Qed.

Lemma mapM_cons_Some {A B} (f : A -> option B) (x : A) (l : list A) (v : B) (vs : list B) :
  mapM f (x :: l) = Some (v :: vs) <-> f x = Some v /\ mapM f l = Some vs.
Proof.
  rewrite !mapM_Some. split.
  - intros HF. inversion HF; subst. auto.
  - intros [H1 H2]. constructor; assumption.
Qed.

Section PushPop.
Context {T : Type} `{HL : ElemLaws T}.

Lemma holds_size q h (vs : list T) : holds q h vs -> size q = Z.of_nat (length vs).
Proof.
  intros (Hok & b & _ & Hvs). apply mapM_Some, Forall2_length in Hvs.
  rewrite ring_indices_length in Hvs.
  pose proof (size_range q ltac:(apply Hok)). lia.
Qed.

Lemma slot_in_block q (b : block) i :
  len b = (mask_ q + 1) * sizeofT -> 0 <= i <= mask_ q ->
  0 <= i /\ i * sizeofT + sizeofT <= len b.
Proof. intros Hlen Hi. pose proof sizeofT_pos. split; [lia | nia]. Qed.

(** [push_back] on a buffer that is not full: no resize, the element
    goes to slot [stop_], and the contents grow by it at the back. *)
Lemma push_back_appends (v : T) q h vs :
  holds q h vs -> size q <> mask_ q ->
  exists h',
    push_back v (q, h)
    = (Done (stop_ q),
       (Queue (mask_ q) (start_ q) (Z.land (wrap (stop_ q + 1)) (mask_ q)) (data_ q),
        h')) /\
    holds (Queue (mask_ q) (start_ q) (Z.land (wrap (stop_ q + 1)) (mask_ q)) (data_ q))
          h' (vs ++ [v]) /\
    avail h' = avail h /\ length (blocks h') = length (blocks h) /\
    (forall p', p' <> data_ q -> live_block p' h' = live_block p' h).
Proof.
  intros (Hok & b & [Hb Hlen] & Hvs) Hnf.
  destruct (ring_indices_push q Hok Hnf) as (Hok' & Hsz' & Hidx).
  pose proof Hok as (Hm & Hs & He).
  destruct (slot_in_block q b (stop_ q) Hlen He) as [Hi Hin].
  destruct (write_elem_slot (data_ q) (stop_ q) v
              (Queue (mask_ q) (start_ q) (Z.land (wrap (stop_ q + 1)) (mask_ q)) (data_ q))
              h b Hb Hi Hin) as (h' & Hw & Hb' & Hav & Hbl & Hother).
  exists h'. split.
  - unfold push_back. run.
    destruct (Z.eqb_spec (Z.land (wrap (stop_ q + 1)) (mask_ q)) (start_ q)) as [E|E].
    { apply (full_iff q Hok) in E. contradiction. }
    destruct q as [m s e d]. run. cbn [mask_ start_ stop_ data_] in *.
    rewrite Hw. reflexivity.
  - split; [|auto]. split; [exact Hok'|].
    exists (set_slot b (stop_ q) (map Some (repr v))).
    split; [split; [exact Hb'|]|].
    + cbn [mask_]. rewrite <- Hlen. unfold len. f_equal.
      apply set_slot_length; [exact Hi | rewrite repr_length; exact Hin].
    + rewrite Hidx. apply mapM_snoc. split.
      * apply (mapM_agree (slot_value b)); [|exact Hvs].
        intros i Hin'. apply slot_value_set_other; [exact Hi | | | exact Hin].
        -- apply (ring_indices_range q i Hm Hin').
        -- intros <-.
           pose proof (ring_indices_NoDup _ (proj1 Hok')) as Hnd.
           rewrite Hidx in Hnd. apply NoDup_app in Hnd as (_ & Hdis & _).
           apply (Hdis _ Hin'). left.
      * apply slot_value_set_same; assumption.
Qed.

(** [pop] on a buffer holding [v :: vs] returns [v] and leaves [vs]. *)
Lemma pop_takes_front q h (v : T) vs :
  holds q h (v :: vs) ->
  exists h',
    pop (q, h)
    = (Done v,
       (Queue (mask_ q) (Z.land (wrap (start_ q + 1)) (mask_ q)) (stop_ q) (data_ q),
        h')) /\
    holds (Queue (mask_ q) (Z.land (wrap (start_ q + 1)) (mask_ q)) (stop_ q) (data_ q))
          h' vs /\
    avail h' = avail h /\ length (blocks h') = length (blocks h) /\
    (forall p', p' <> data_ q -> live_block p' h' = live_block p' h).
Proof.
  intros Hh. pose proof (holds_size q h _ Hh) as Hsz.
  destruct Hh as (Hok & b & [Hb Hlen] & Hvs).
  pose proof Hok as (Hm & Hs & He).
  assert (Hne : start_ q <> stop_ q).
  { intros E. rewrite (size_empty q E) in Hsz. simpl in Hsz. lia. }
  destruct (ring_indices_pop q Hok Hne) as (Hok' & Hsz' & Hidx).
  rewrite Hidx in Hvs. apply mapM_cons_Some in Hvs as [Hv Hrest].
  destruct (slot_in_block q b (start_ q) Hlen Hs) as [Hi Hin].
  destruct (move_out_slot (data_ q) (start_ q)
              (Queue (mask_ q) (wrap (start_ q + 1)) (stop_ q) (data_ q))
              h b v Hb Hi Hin Hv) as (h' & Hmv & Hb' & Hav & Hbl & Hother).
  exists h'. split.
  - unfold pop. run.
    destruct (Z.eqb_spec (stop_ q) (start_ q)); [congruence|].
    destruct q as [m s e d]. run. cbn [mask_ start_ stop_ data_] in *.
    rewrite Hmv. reflexivity.
  - split; [|auto]. split; [exact Hok'|].
    exists (set_slot b (start_ q) (map Some (repr (moved_from v)))).
    split; [split; [exact Hb'|]|].
    + cbn [mask_]. rewrite <- Hlen. unfold len. f_equal.
      apply set_slot_length; [exact Hi | rewrite repr_length; exact Hin].
    + apply (mapM_agree (slot_value b)); [|exact Hrest].
      intros i Hin'. apply slot_value_set_other; [exact Hi | | | exact Hin].
      * apply (ring_indices_range _ i (proj1 Hok') Hin').
      * intros <-. pose proof (ring_indices_NoDup q Hm) as Hnd.
        rewrite Hidx in Hnd. apply NoDup_cons in Hnd as [Hnotin _]. contradiction.
Qed.

(** [pop_back] on a buffer holding [vs ++ [v]] whose [stop_] is not 0
    returns [v] and leaves [vs]. *)
Lemma pop_back_takes_back q h (v : T) vs :
  holds q h (vs ++ [v]) -> 1 <= stop_ q ->
  exists h',
    pop_back (q, h)
    = (Done v, (Queue (mask_ q) (start_ q) (stop_ q - 1) (data_ q), h')) /\
    holds (Queue (mask_ q) (start_ q) (stop_ q - 1) (data_ q)) h' vs /\
    avail h' = avail h /\ length (blocks h') = length (blocks h) /\
    (forall p', p' <> data_ q -> live_block p' h' = live_block p' h).
Proof.
  intros Hh H1. pose proof (holds_size q h _ Hh) as Hsz.
  destruct Hh as (Hok & b & [Hb Hlen] & Hvs).
  pose proof Hok as (Hm & Hs & He).
  assert (Hne : start_ q <> stop_ q).
  { intros E. rewrite (size_empty q E), length_app in Hsz. simpl in Hsz. lia. }
  destruct (ring_indices_pop_back q Hok Hne H1) as (Hok' & Hsz' & Hidx).
  rewrite Hidx in Hvs. apply mapM_snoc in Hvs as [Hrest Hv].
  destruct (slot_in_block q b (stop_ q - 1) Hlen ltac:(lia)) as [Hi Hin].
  pose proof Hm as (k & Hk & Hq). pose proof (ones_range k Hk) as Hr.
  destruct (move_out_slot (data_ q) (stop_ q - 1)
              (Queue (mask_ q) (start_ q) (stop_ q - 1) (data_ q))
              h b v Hb Hi Hin Hv) as (h' & Hmv & Hb' & Hav & Hbl & Hother).
  exists h'. split.
  - unfold pop_back. run.
    destruct (Z.eqb_spec (stop_ q) (start_ q)); [congruence|].
    destruct q as [m s e d]. run. cbn [mask_ start_ stop_ data_] in *.
    rewrite (wrap_small (e - 1)) by lia. rewrite Hmv. run.
    rewrite land_mask_id by assumption. reflexivity.
  - split; [|auto]. split; [exact Hok'|].
    exists (set_slot b (stop_ q - 1) (map Some (repr (moved_from v)))).
    split; [split; [exact Hb'|]|].
    + cbn [mask_]. rewrite <- Hlen. unfold len. f_equal.
      apply set_slot_length; [exact Hi | rewrite repr_length; exact Hin].
    + apply (mapM_agree (slot_value b)); [|exact Hrest].
      intros i Hin'. apply slot_value_set_other; [exact Hi | | | exact Hin].
      * apply (ring_indices_range _ i (proj1 Hok') Hin').
      * intros <-. pose proof (ring_indices_NoDup q Hm) as Hnd.
        rewrite Hidx in Hnd. apply NoDup_app in Hnd as (_ & Hdis & _).
        apply (Hdis _ Hin'). left.
Qed.

End PushPop.

(** ** Traversals, in terms of the contents *)

Lemma for_loop_ext {A} (cond cond' : Z -> M bool) (step step' : Z -> A -> M (Z * A)) :
  (forall i s, cond i s = cond' i s) ->
  (forall i a s, step i a s = step' i a s) ->
  forall (fuel : nat) i a s,
    for_loop fuel cond step i a s = for_loop fuel cond' step' i a s.
Proof.
  intros Hc Hs fuel. induction fuel as [|fuel IH]; intros i a s; cbn [for_loop].
  - reflexivity.
  - run. rewrite Hc. destruct (cond' i s) as [[[|]| | |] s1]; try reflexivity.
    rewrite Hs. destruct (step' i a s1) as [[r| | |] s2]; try reflexivity.
    apply IH.
Qed.

Lemma visit_list_ext {A} (body body' : Z -> A -> M A) :
  (forall i a s, body i a s = body' i a s) ->
  forall l a s, visit_list body l a s = visit_list body' l a s.
Proof.
  intros Hb l. induction l as [|i l IH]; intros a s; cbn [visit_list].
  - reflexivity.
  - run. rewrite Hb. destruct (body' i a s) as [[r| | |] s1]; try reflexivity.
    apply IH.
Qed.

Section Visiting.
Context {T : Type} `{HL : ElemLaws T}.

(** A functor run over distinct slots that hold elements sees them in the
    order of the list and leaves its results in them; no other slot
    changes. *)
Lemma visit_list_values {A} (func : T -> A -> T * A) l :
  NoDup l ->
  forall q h b a vs,
    live_block (data_ q) h = Some b ->
    (forall i, i ∈ l -> 0 <= i /\ i * sizeofT + sizeofT <= len b) ->
    Forall2 (fun i v => slot_value b i = Some v) l vs ->
    exists h' b',
      visit_list (visit func) l a (q, h)
      = (Done (snd (run_func func vs a)), (q, h')) /\
      live_block (data_ q) h' = Some b' /\ len b' = len b /\
      Forall2 (fun i v => slot_value b' i = Some v) l (fst (run_func func vs a)) /\
      (forall j, 0 <= j -> j ∉ l -> slot_value b' j = slot_value b j) /\
      avail h' = avail h /\ length (blocks h') = length (blocks h) /\
      (forall p', p' <> data_ q -> live_block p' h' = live_block p' h).
Proof.
  induction 1 as [|i l Hnotin Hnd IH]; intros q h b a vs Hb Hin Hvs.
  - inversion Hvs; subst. exists h, b. cbn. repeat split; auto.
  - inversion Hvs as [|? v ? vs' Hv Hvs']; subst.
    destruct (Hin i ltac:(left)) as [Hi Hlen].
    destruct (write_elem_slot (data_ q) i (fst (func v a)) q h b Hb Hi Hlen)
      as (h1 & Hw & Hb1 & Hav1 & Hbl1 & Hother1).
    set (b1 := set_slot b i (map Some (repr (fst (func v a))))) in *.
    assert (Hlen1 : len b1 = len b).
    { unfold len. f_equal. apply set_slot_length; [exact Hi|].
      rewrite repr_length. exact Hlen. }
    destruct (IH q h1 b1 (snd (func v a)) vs' Hb1) as
      (h' & b' & Hrun & Hb' & Hl' & Hvals & Hkeep & Hav & Hbl & Hother).
    { intros j Hj. rewrite Hlen1. apply Hin. right. exact Hj. }
    { eapply Forall2_impl_in; [exact Hvs'|]. intros j w Hj Hjw. cbn in Hjw.
      unfold b1. rewrite slot_value_set_other; [exact Hjw | exact Hi | | | exact Hlen].
      - apply (Hin j). right. exact Hj.
      - intros <-. contradiction. }
    exists h', b'. cbn [visit_list run_func fst snd]. unfold visit at 1. run.
    rewrite (read_elem_slot (data_ q) i q h b v Hb Hi Hlen Hv). run.
    rewrite Hw. run. rewrite Hrun.
    split; [reflexivity|]. split; [exact Hb'|]. split; [lia|]. split.
    { constructor; [|exact Hvals].
      rewrite (Hkeep i Hi Hnotin). unfold b1.
      apply slot_value_set_same; assumption. }
    split.
    { intros j Hj Hnot. rewrite Hkeep; [|exact Hj|].
      - unfold b1. apply slot_value_set_other; [exact Hi | exact Hj | | exact Hlen].
        intros <-. apply Hnot. left.
      - intros Hjl. apply Hnot. right. exact Hjl. }
    split; [lia|]. split; [lia|].
    intros p' Hp'. rewrite Hother, Hother1 by assumption. reflexivity.
Qed.

Lemma holds_slots q h (vs : list T) b :
  ring_ok q -> block_ok q h b ->
  forall i, i ∈ ring_indices q -> 0 <= i /\ i * sizeofT + sizeofT <= len b.
Proof.
  intros Hok [_ Hlen] i Hi. apply (slot_in_block q b i Hlen).
  apply ring_indices_range; [apply Hok | exact Hi].
Qed.

(** [for_each] on a buffer holding [vs]. *)
Lemma for_each_runs {A} (func : T -> A -> T * A) (a : A) q h vs (fuel : nat) :
  holds q h vs -> size q < Z.of_nat fuel ->
  exists h',
    for_each fuel func a (q, h) = (Done (snd (run_func func vs a)), (q, h')) /\
    holds q h' (fst (run_func func vs a)) /\
    avail h' = avail h /\ length (blocks h') = length (blocks h) /\
    (forall p', p' <> data_ q -> live_block p' h' = live_block p' h).
Proof.
  intros (Hok & b & Hblk & Hvs) Hfuel.
  rewrite for_each_ring by assumption.
  destruct (visit_list_values func (ring_indices q)
              (ring_indices_NoDup q (proj1 Hok)) q h b a vs (proj1 Hblk)
              (holds_slots q h vs b Hok Hblk) (proj1 (mapM_Some _ _ _) Hvs))
    as (h' & b' & Hrun & Hb' & Hl' & Hvals & _ & Hrest).
  exists h'. split; [exact Hrun|]. split; [|exact Hrest].
  split; [exact Hok|]. exists b'. split.
  - split; [exact Hb'|]. rewrite Hl'. apply Hblk.
  - apply mapM_Some. exact Hvals.
Qed.

Lemma drain_is_visit i (vec : list T) s :
  drain i vec s = visit (fun v vec => (moved_from v, vec ++ [v])) i vec s.
Proof.
  unfold drain, visit, move_out. run.
  destruct (read_elem _ i s) as [[v| | |] s1]; try reflexivity.
  cbn [fst snd]. destruct (write_elem _ i (moved_from v) s1) as [[u| | |] s2]; reflexivity.
Qed.

Lemma run_func_drain (vs acc : list T) :
  run_func (fun v vec => (moved_from v, vec ++ [v])) vs acc
  = (map moved_from vs, acc ++ vs).
Proof.
  revert acc. induction vs as [|v vs IH]; intros acc; cbn [run_func map fst snd].
  - rewrite app_nil_r. reflexivity.
  - rewrite IH. cbn [fst snd]. rewrite <- app_assoc. reflexivity.
Qed.

(** [to_vector] on a buffer holding [vs]: it returns [vs], and the
    buffer still counts its elements, now in their moved-from state. *)
Lemma to_vector_moves q h vs (fuel : nat) :
  holds q h vs -> size q < Z.of_nat fuel ->
  exists h',
    to_vector fuel (q, h) = (Done vs, (q, h')) /\
    holds q h' (map moved_from vs) /\
    avail h' = avail h /\ length (blocks h') = length (blocks h) /\
    (forall p', p' <> data_ q -> live_block p' h' = live_block p' h).
Proof.
  intros Hh Hfuel. pose proof Hh as (Hok & _).
  destruct (for_each_runs (fun v vec => (moved_from v, vec ++ [v])) [] q h vs fuel
              Hh Hfuel) as (h' & Hrun & Hholds & Hrest).
  rewrite run_func_drain in Hrun, Hholds. cbn [fst snd app] in Hrun, Hholds.
  exists h'. split; [|split; [exact Hholds | exact Hrest]].
  rewrite to_vector_ring by assumption.
  rewrite (visit_list_ext drain _ drain_is_visit).
  rewrite <- for_each_ring with (fuel := fuel) by assumption. exact Hrun.
Qed.

(** Reading a list of slots that hold elements. *)
Lemma read_list_values l :
  forall q h b (acc vs : list T),
    live_block (data_ q) h = Some b ->
    (forall i, i ∈ l -> 0 <= i /\ i * sizeofT + sizeofT <= len b) ->
    Forall2 (fun i v => slot_value b i = Some v) l vs ->
    visit_list (fun i vec => v <- iter_deref (Iterator i) ;; ret (vec ++ [v]))
      l acc (q, h)
    = (Done (acc ++ vs), (q, h)).
Proof.
  set (body := fun i (vec : list T) => v <- iter_deref (Iterator i) ;; ret (vec ++ [v])).
  induction l as [|i l IH]; intros q h b acc vs Hb Hin Hvs.
  - inversion Hvs; subst. cbn. rewrite app_nil_r. reflexivity.
  - inversion Hvs as [|? v ? vs' Hv Hvs']; subst.
    destruct (Hin i ltac:(left)) as [Hi Hlen].
    cbn [visit_list]. unfold body at 1. unfold iter_deref at 1. run. cbn [pos_].
    rewrite (read_elem_slot (data_ q) i q h b v Hb Hi Hlen Hv). run.
    rewrite (IH q h b (acc ++ [v]) vs' Hb); [| |exact Hvs'].
    + rewrite <- app_assoc. reflexivity.
    + intros j Hj. apply Hin. right. exact Hj.
Qed.

(** A loop from [begin()] to [end()] reads the contents, front to back,
    and changes nothing. *)
Lemma range_for_reads q h vs (fuel : nat) :
  holds q h vs -> size q < Z.of_nat fuel ->
  range_for fuel (q, h) = (Done vs, (q, h)).
Proof.
  intros (Hok & b & Hblk & Hvs) Hfuel. pose proof Hok as (Hm & Hs & He).
  pose proof (size_range q Hm) as Hsz.
  unfold range_for, begin. run. cbn [pos_].
  rewrite (for_loop_ext _ not_at_stop _
             (fun i vec =>
                vec' <- (v <- iter_deref (Iterator i) ;; ret (vec ++ [v])) ;;
                i' <- next_index i ;; ret (i', vec'))).
  - rewrite (for_loop_masked _) with (n := Z.to_nat (size q)).
    + fold (ring_indices q).
      apply (read_list_values _ q h b [] vs (proj1 Hblk)
               (holds_slots q h vs b Hok Hblk) (proj1 (mapM_Some _ _ _) Hvs)).
    + intros i a q0 h0. unfold iter_deref. run.
      pose proof (read_elem_fields (data_ q0) (pos_ (Iterator i)) (q0, h0)) as Hr.
      destruct (read_elem _ _ (q0, h0)) as [r s1]. cbn in Hr. subst s1.
      destruct r; reflexivity.
    + exact Hm.
    + exact Hs.
    + exact He.
    + unfold size in *. lia.
    + lia.
  - intros i s. reflexivity.
  - intros i a s. unfold iter_deref, iter_incr, next_index. run.
    destruct (read_elem _ _ s) as [[v| | |] s1]; reflexivity.
Qed.

End Visiting.

(** ** The masked loops *)

Section MaskedLoops.
Context {T : Type} `{HE : Elem T}.

(** C10: with a power-of-two capacity and both indices in [[0, mask]],
    the loops of [for_each] and [to_vector] finish (any fuel above
    [size()] is enough, and the result never is a loop cut short).  They
    go through the [size()] indices [start_, start_ + 1, ...] taken
    modulo the capacity: when the slots at these indices hold the
    elements [vs], there are [size()] of them, [for_each] calls the
    functor on each element of [vs] once, front to back, leaving in the
    slots what the functor returned, and [to_vector] returns [vs] in this
    order, leaving each slot in its moved-from state. *)
Theorem masked_loops_visit_ring q h (fuel : nat) :
  ring_ok q -> size q < Z.of_nat fuel ->
  size q = Z.land (wrap (stop_ q - start_ q)) (mask_ q) /\
  length (ring_indices q) = Z.to_nat (size q) /\
  (forall j, (j < length (ring_indices q))%nat ->
     ring_indices q !! j = Some ((start_ q + Z.of_nat j) mod (mask_ q + 1))) /\
  (forall {A} (func : T -> A -> T * A) (a : A),
     fst (for_each fuel func a (q, h)) <> OutOfFuel) /\
  fst (to_vector (T := T) fuel (q, h)) <> OutOfFuel /\
  forall (HL : ElemLaws T) b vs,
    block_ok (T := T) q h b ->
    mapM (slot_value b) (ring_indices q) = Some vs ->
    length vs = Z.to_nat (size q) /\
    (forall (j : nat) v, vs !! j = Some v ->
       slot_value b ((start_ q + Z.of_nat j) mod (mask_ q + 1)) = Some v) /\
    (forall {A} (func : T -> A -> T * A) (a : A),
       exists h',
         for_each fuel func a (q, h)
         = (Done (snd (run_func func vs a)), (q, h')) /\
         holds q h' (fst (run_func func vs a))) /\
    exists h',
      to_vector fuel (q, h) = (Done vs, (q, h')) /\
      holds q h' (map moved_from vs).
Proof.
  intros Hok Hfuel.
  split; [reflexivity|]. split; [apply ring_indices_length|].
  split.
  { intros j Hj. rewrite ring_indices_length in Hj.
    apply ring_indices_lookup; [apply Hok | exact Hj]. }
  split.
  { intros A func a. rewrite for_each_ring by assumption.
    apply visit_list_terminates, visit_in_time. }
  split.
  { rewrite to_vector_ring by assumption.
    apply visit_list_terminates, drain_in_time. }
  intros HL b vs Hblk Hvs.
  assert (Hh : holds q h vs) by (split; [exact Hok | exists b; split; assumption]).
  pose proof Hvs as Hall. apply mapM_Some in Hall.
  split.
  { rewrite <- (Forall2_length _ _ _ Hall). apply ring_indices_length. }
  split.
  { intros j v Hj.
    destruct (Forall2_lookup_r _ _ _ _ _ Hall Hj) as (i & Hi & Hv).
    assert (Hlt : (j < Z.to_nat (size q))%nat).
    { rewrite <- ring_indices_length. eapply lookup_lt_Some, Hi. }
    rewrite ring_indices_lookup in Hi by (try apply Hok; exact Hlt).
    injection Hi as <-. exact Hv. }
  split.
  - intros A func a.
    destruct (for_each_runs func a q h vs fuel Hh Hfuel) as (h' & Hrun & Hh' & _).
    exists h'. split; [exact Hrun | exact Hh'].
  - destruct (to_vector_moves q h vs fuel Hh Hfuel) as (h' & Hrun & Hh' & _).
    exists h'. split; [exact Hrun | exact Hh'].
Qed.

End MaskedLoops.

Lemma masked_loops_visit_ring_witness :
  ring_indices bytes_queue = [1; 2] /\
  fst (to_vector (T := byte) 8 (bytes_queue, bytes_heap)) <> OutOfFuel /\
  (exists h',
     for_each 8 zero_and_count 0%nat (bytes_queue, bytes_heap)
     = (Done 2%nat, (bytes_queue, h')) /\
     holds bytes_queue h' [x00; x00]) /\
  exists h',
    to_vector 8 (bytes_queue, bytes_heap) = (Done [x0a; x0b], (bytes_queue, h')).
Proof.
  assert (Hok : ring_ok bytes_queue) by (apply ring_okb_sound; reflexivity).
  assert (Hfuel : size bytes_queue < Z.of_nat 8) by reflexivity.
  assert (Hblk : block_ok (T := byte) bytes_queue bytes_heap bytes_block)
    by (split; reflexivity).
  assert (Hvs : mapM (slot_value (T := byte) bytes_block) (ring_indices bytes_queue)
                = Some [x0a; x0b]) by reflexivity.
  destruct (masked_loops_visit_ring (T := byte) bytes_queue bytes_heap 8 Hok Hfuel)
    as (_ & _ & _ & _ & Hterm & Hvals).
  destruct (Hvals ElemLaws_byte bytes_block [x0a; x0b] Hblk Hvs)
    as (_ & _ & Hfe & h2 & Htv & _).
  destruct (Hfe nat zero_and_count 0%nat) as (h1 & Hrun & Hh1).
  split; [reflexivity|]. split; [exact Hterm|].
  split; [exists h1; split; [exact Hrun | exact Hh1] | exists h2; exact Htv].
Defined.

(** ** [clear] and [free] *)

Section Clearing.
Context {T : Type} `{HL : ElemLaws T}.

Lemma destroy_fields i u q h : fst (snd (destroy (T := T) i u (q, h))) = q.
Proof. unfold destroy. run. destruct (load_bytes _ _ h); reflexivity. Qed.

Lemma destroy_list l :
  forall q h (b : block),
    live_block (data_ q) h = Some b ->
    (forall i, i ∈ l -> 0 <= i /\ i * sizeofT + sizeofT <= len b) ->
    visit_list (destroy (T := T)) l tt (q, h) = (Done tt, (q, h)).
Proof.
  induction l as [|i l IH]; intros q h b Hb Hin; cbn [visit_list].
  - reflexivity.
  - destruct (Hin i ltac:(left)) as [Hi Hlen].
    unfold destroy at 1. run.
    rewrite (load_bytes_slot (data_ q) i h b Hb Hi Hlen). run.
    apply (IH q h b Hb). intros j Hj. apply Hin. right. exact Hj.
Qed.

Lemma clear_loop q h b (fuel : nat) :
  ring_ok q -> block_ok (T := T) q h b -> size q < Z.of_nat fuel ->
  for_loop fuel not_at_stop
    (fun i u => u' <- destroy (T := T) i u ;; i' <- next_index i ;; ret (i', u'))
    (start_ q) tt (q, h)
  = (Done tt, (q, h)).
Proof.
  intros Hok Hblk Hfuel. pose proof Hok as (Hm & Hs & He).
  pose proof (size_range q Hm) as Hsz.
  rewrite (for_loop_masked _) with (n := Z.to_nat (size q)).
  - fold (ring_indices q).
    apply (destroy_list _ q h b (proj1 Hblk)).
    intros i Hi. apply (slot_in_block q b i (proj2 Hblk)).
    apply ring_indices_range; assumption.
  - intros i a q0 h0. apply destroy_fields.
  - exact Hm.
  - exact Hs.
  - exact He.
  - unfold size in *. lia.
  - lia.
Qed.

(** [clear] on a well-formed buffer resets both offsets to 0 and touches
    neither the mask, the block nor any byte of the heap. *)
Lemma clear_resets q h b (fuel : nat) :
  ring_ok q -> block_ok (T := T) q h b -> size q < Z.of_nat fuel ->
  clear (T := T) fuel (q, h) = (Done tt, (Queue (mask_ q) 0 0 (data_ q), h)).
Proof.
  intros Hok Hblk Hfuel. pose proof (clear_loop q h b fuel Hok Hblk Hfuel) as Hloop.
  unfold clear. run.
  match goal with |- context [for_loop ?f ?c ?s ?i0 ?a ?st] =>
    change (for_loop f c s i0 a st) with
      (for_loop fuel not_at_stop
         (fun j u => u' <- destroy (T := T) j u ;; j' <- next_index j ;; ret (j', u'))
         (start_ q) tt (q, h)) end.
  rewrite Hloop. run. reflexivity.
Qed.

Lemma holds_empty m d h (b : block) :
  pow2_mask m -> live_block d h = Some b -> len b = (m + 1) * sizeofT ->
  holds (T := T) (Queue m 0 0 d) h [].
Proof.
  intros Hm Hb Hlen. split.
  - split; [exact Hm|]. destruct Hm as (k & Hk & ->).
    pose proof (ones_range k Hk). cbn. lia.
  - exists b. split; [split; assumption|]. reflexivity.
Qed.

Lemma live_block_released p (b : block) h a :
  live_block p h = Some b ->
  live_block p (Heap (<[p := None]> (blocks h)) a) = None.
Proof.
  unfold live_block. cbn. intros Hb.
  destruct (blocks h !! p) as [ob|] eqn:E; [|discriminate].
  rewrite list_lookup_insert_eq by (eapply lookup_lt_Some, E). reflexivity.
Qed.

(** [free] on a well-formed buffer clears it and releases its block;
    a second [free] (the destructor calls it too) releases a block that
    is no longer live. *)
Lemma free_releases q h b (fuel fuel' : nat) :
  ring_ok q -> block_ok (T := T) q h b -> size q < Z.of_nat fuel ->
  let q' := Queue (mask_ q) 0 0 (data_ q) in
  let h' := Heap (<[data_ q := None]> (blocks h)) (avail h + len b) in
  free (T := T) fuel (q, h) = (Done tt, (q', h')) /\
  live_block (data_ q) h' = None /\
  free (T := T) (S fuel') (q', h') = (Undefined invalid_free, (q', h')).
Proof.
  intros Hok Hblk Hfuel q' h'. pose proof Hblk as [Hb Hlen].
  assert (Hdead : live_block (data_ q) h' = None)
    by (apply (live_block_released _ b); exact Hb).
  split; [|split; [exact Hdead|]].
  - unfold free. unfold bind at 1.
    rewrite (clear_resets q h b fuel Hok Hblk Hfuel). run.
    unfold free_block. rewrite Hb. reflexivity.
  - subst q' h'. unfold free, clear. cbn [for_loop]. run. rewrite not_at_stop_eq.
    cbn [stop_ start_ Z.eqb negb]. run. unfold free_block.
    rewrite Hdead. reflexivity.
Qed.

End Clearing.

(** ** [roundup] and the constructor *)

Lemma roundup_smears y :
  0 < y < modulus -> wrap (y + 1 - 1) = y ->
  roundup (y + 1) = wrap (Z.ones (Z.log2 y + 1) + 1).
Proof.
  intros Hy Hw. unfold roundup. rewrite Hw. cbv zeta.
  rewrite smear_ones by exact Hy. reflexivity.
Qed.

(** For [1 <= x <= 2^31], [roundup x] is the least power of two that is
    at least [x]. *)
Lemma roundup_pow2 x :
  1 <= x <= 2 ^ 31 ->
  exists k, 0 <= k <= 31 /\ roundup x = 2 ^ k /\ x <= 2 ^ k /\ 2 ^ k < 2 * x.
Proof.
  intros Hx. destruct (Z.eq_dec x 1) as [->|Hne].
  - exists 0. split; [lia|]. split; [reflexivity|]. cbn. lia.
  - assert (Hy : 0 < x - 1 < modulus) by (rewrite modulus_eq; lia).
    pose proof (roundup_smears (x - 1) Hy) as Hr.
    replace (x - 1 + 1) with x in Hr by lia.
    rewrite Hr by (apply wrap_small; lia). clear Hr.
    destruct (Z.log2_spec (x - 1) ltac:(lia)) as [Hlo Hhi].
    set (n := Z.log2 (x - 1)) in *.
    assert (Hn : 0 <= n) by apply Z.log2_nonneg.
    assert (Hn30 : n < 31).
    { apply Z.log2_lt_pow2; lia. }
    rewrite Z.ones_equiv.
    replace (Z.pred (2 ^ (n + 1)) + 1) with (2 ^ (n + 1)) by lia.
    assert (Hle : 2 ^ (n + 1) <= 2 ^ 31) by (apply Z.pow_le_mono_r; lia).
    pose proof (pow2_pos (n + 1) ltac:(lia)).
    rewrite wrap_small by (rewrite modulus_eq; lia).
    exists (n + 1). split; [lia|]. split; [reflexivity|].
    replace (Z.succ n) with (n + 1) in Hhi by lia.
    rewrite Z.pow_add_r in * by lia. change (2 ^ 1) with 2 in *. lia.
Qed.

(** [roundup] wraps to 0 for 0 and above [2^31]. *)
Lemma roundup_wraps x :
  x = 0 \/ 2 ^ 31 < x <= 2 ^ 32 -> roundup x = 0.
Proof.
  intros Hx.
  assert (Hy : 2 ^ 31 <= wrap (x - 1) < 2 ^ 32).
  { destruct Hx as [->|Hx]; [vm_compute; split; [discriminate | reflexivity]|].
    rewrite wrap_small by (rewrite modulus_eq; lia). lia. }
  unfold roundup. cbv zeta. rewrite smear_ones by (rewrite modulus_eq; lia).
  assert (Hlog : Z.log2 (wrap (x - 1)) = 31).
  { apply Z.log2_unique; [lia|]. exact Hy. }
  rewrite Hlog. reflexivity.
Qed.

Section Construction.
Context {T : Type} `{HL : ElemLaws T}.

(** The mask the constructor computes for a request below [2^31]. *)
Lemma ctor_mask_bounds size :
  0 <= size < 2 ^ 31 ->
  let m := wrap (roundup (wrap (size + 1)) - 1) in
  pow2_mask m /\ size <= m <= 2 * size /\ m < 2 ^ 31 /\ wrap (m + 1) = m + 1.
Proof.
  intros Hs m. assert (Hw : wrap (size + 1) = size + 1)
    by (apply wrap_small; rewrite modulus_eq; lia).
  pose proof (roundup_mask (wrap (size + 1))) as Hm. fold m in Hm.
  unfold m in *. rewrite Hw in *.
  destruct (roundup_pow2 (size + 1) ltac:(lia)) as (k & Hk & Hr & Hlo & Hhi).
  rewrite Hr in *.
  assert (Hle : 2 ^ k <= 2 ^ 31) by (apply Z.pow_le_mono_r; lia).
  rewrite (wrap_small (2 ^ k - 1)) in * by (rewrite modulus_eq; lia).
  split; [exact Hm|]. split; [lia|]. split; [lia|].
  apply wrap_small. rewrite modulus_eq. lia.
Qed.

(** The constructor, for a request below [2^31] and elements of less
    than [2^32] bytes. *)
Lemma ctor_result size h :
  0 <= size < 2 ^ 31 -> sizeofT < 2 ^ 32 ->
  let m := wrap (roundup (wrap (size + 1)) - 1) in
  if (m + 1) * sizeofT <=? avail h then
    ctor (T := T) size h
    = (Done (Queue m 0 0 (length (blocks h))),
       Heap (blocks h ++ [Some (replicate (Z.to_nat ((m + 1) * sizeofT)) None)])
            (avail h - (m + 1) * sizeofT))
  else ctor (T := T) size h = (Throw bad_alloc, h).
Proof.
  intros Hs Hsz m. destruct (ctor_mask_bounds size Hs) as (Hm & Hb & Hlt & Hw).
  fold m in Hm, Hb, Hlt, Hw. pose proof sizeofT_pos.
  unfold ctor. fold m. rewrite (mask_assert m Hm). cbn [Z.eqb negb].
  assert (Hmul : size_mul (wrap (m + 1)) sizeofT = (m + 1) * sizeofT).
  { rewrite Hw. unfold size_mul. apply Z.mod_small.
    change (2 ^ 64) with (2 ^ 32 * 2 ^ 32). change (2 ^ 31) with 2147483648 in *.
    change (2 ^ 32) with 4294967296 in *. nia. }
  rewrite Hmul. unfold malloc.
  destruct ((m + 1) * sizeofT <=? avail h); reflexivity.
Qed.

End Construction.

(** ** [resize] on a range that does not wrap *)

Lemma realloc_grows p n h (b : block) :
  live_block p h = Some b -> len b <= n -> n <> 0 -> n - len b <= avail h ->
  realloc p n h
  = Some (Some (length (blocks h)),
          Heap (<[p := None]> (blocks h) ++
                [Some (b ++ replicate (Z.to_nat n - length b) None)])
               (avail h - (n - len b))).
Proof.
  intros Hb Hn Hn0 Hav. unfold realloc. rewrite Hb.
  destruct (Z.eqb_spec n 0); [contradiction|].
  destruct (Z.leb_spec (n - len b) (avail h)); [|lia].
  rewrite take_ge; [reflexivity|].
  rewrite length_app, length_replicate. unfold len in *. lia.
Qed.

Lemma live_block_after_realloc p h (b' : option block) a :
  live_block (length (blocks h)) (Heap (<[p := None]> (blocks h) ++ [b']) a)
  = b'.
Proof.
  unfold live_block. cbn.
  rewrite lookup_app_r by (rewrite length_insert; lia).
  rewrite length_insert, Nat.sub_diag. cbn. destruct b'; reflexivity.
Qed.

Lemma ring_indices_unwrapped_eq q :
  ring_ok q -> start_ q <= stop_ q ->
  ring_indices q
  = map (fun j => start_ q + Z.of_nat j) (seq 0 (Z.to_nat (stop_ q - start_ q))).
Proof.
  intros Hok Hle. pose proof (size_unwrapped q Hok Hle) as Hsz.
  destruct Hok as (Hm & Hs & He). unfold ring_indices. rewrite Hsz.
  apply map_ext_in. intros j Hj. apply in_seq in Hj.
  apply land_mask_id; [exact Hm | lia].
Qed.

Section ResizeUnwrapped.
Context {T : Type} `{HL : ElemLaws T}.

Lemma slot_value_prefix (b ext : block) i :
  0 <= i -> i * sizeofT + sizeofT <= len b ->
  slot_value (T := T) (b ++ ext) i = slot_value b i.
Proof.
  intros Hi Hlen. pose proof sizeofT_pos. unfold slot_value.
  assert (Hc : slot_cells (T := T) (b ++ ext) i = slot_cells b i).
  { apply list_eq. intros p. rewrite !slot_cells_lookup by exact Hi.
    case_decide; [|reflexivity]. apply lookup_app_l. unfold len in Hlen. lia. }
  rewrite Hc. reflexivity.
Qed.

(** [resize] on a buffer that is empty at offset 0 or whose range does
    not wrap: the block is reallocated to [roundup(target)] slots, the
    offsets are kept, the mask doubles, the elements stay where they
    are. *)
Lemma resize_unwrapped n q h b vs :
  ring_ok q -> block_ok (T := T) q h b ->
  mapM (slot_value b) (ring_indices q) = Some vs ->
  start_ q < stop_ q \/ (start_ q = 0 /\ stop_ q = 0) ->
  mask_ q < 2 ^ 31 -> mask_ q <= n ->
  mask_ q + 1 <= roundup n ->
  roundup n * sizeofT < 2 ^ 64 ->
  roundup n * sizeofT - len b <= avail h ->
  let q' := Queue (2 * mask_ q + 1) (start_ q) (stop_ q) (length (blocks h)) in
  let b' := b ++ replicate (Z.to_nat (roundup n * sizeofT) - length b) None in
  let h' := Heap (<[data_ q := None]> (blocks h) ++ [Some b'])
                 (avail h - (roundup n * sizeofT - len b)) in
  resize (T := T) n (q, h) = (Done tt, (q', h')) /\
  ring_ok q' /\ live_block (data_ q') h' = Some b' /\
  len b' = roundup n * sizeofT /\
  mapM (slot_value b') (ring_indices q') = Some vs.
Proof.
  intros Hok [Hb Hlen] Hvs Hshape Hm31 Hn Hr Hsz64 Hav q' b' h'.
  pose proof Hok as (Hm & Hs & He). pose proof sizeofT_pos as Hsz.
  pose proof Hm as (k & Hk & Hq).
  assert (Hk31 : k <= 31).
  { destruct (Z.le_gt_cases k 31) as [|Hgt]; [assumption|].
    assert (2 ^ 32 <= 2 ^ k) by (apply Z.pow_le_mono_r; lia).
    rewrite Hq, Z.ones_equiv in Hm31. change (2 ^ 31) with 2147483648 in *.
    change (2 ^ 32) with 4294967296 in *. lia. }
  destruct (mask_doubles_pow2 (mask_ q) Hm) as (Hm' & _ & _).
  assert (Hmask' : wrap (Z.shiftl (wrap (mask_ q + 1)) 1 - 1) = 2 * mask_ q + 1).
  { rewrite Z.shiftl_mul_pow2 by lia. change (2 ^ 1) with 2.
    change (2 ^ 31) with 2147483648 in *.
    rewrite (wrap_small (mask_ q + 1)) by (rewrite modulus_eq; lia).
    rewrite wrap_small by (rewrite modulus_eq; lia). lia. }
  rewrite Hmask' in Hm'.
  assert (Hok' : ring_ok q') by (split; [exact Hm' | cbn; lia]).
  assert (Hmul : size_mul (roundup n) sizeofT = roundup n * sizeofT).
  { unfold size_mul. apply Z.mod_small. nia. }
  assert (Hlen' : len b' = roundup n * sizeofT).
  { unfold len, b'. rewrite length_app, length_replicate. unfold len in *. nia. }
  assert (Hrun : resize (T := T) n (q, h) = (Done tt, (q', h'))).
  { unfold resize. run.
    destruct (Z.ltb_spec n (mask_ q)); [lia|]. run.
    rewrite Hmul, (realloc_grows (data_ q) _ h b Hb) by nia. run.
    destruct Hshape as [Hlt|[Hz Hz']].
    - destruct (Z.eqb_spec (start_ q) (stop_ q)); [lia|].
      destruct (Z.ltb_spec (stop_ q) (start_ q)); [lia|]. run.
      rewrite Hmask'. reflexivity.
    - rewrite Hz, Hz'. cbn [Z.eqb negb]. run. rewrite Hmask'. unfold q'.
      rewrite Hz, Hz'. reflexivity. }
  split; [exact Hrun|]. split; [exact Hok'|].
  split; [apply live_block_after_realloc|]. split; [exact Hlen'|].
  assert (Hle : start_ q <= stop_ q) by lia.
  rewrite (ring_indices_unwrapped_eq q' Hok' Hle).
  rewrite (ring_indices_unwrapped_eq q Hok Hle) in Hvs. cbn [q' start_ stop_].
  apply (mapM_agree (slot_value b)); [|exact Hvs].
  intros i Hi. apply list_elem_of_fmap in Hi as (j & -> & Hj).
  apply elem_of_seq in Hj. apply slot_value_prefix; [lia|]. nia.
Qed.

End ResizeUnwrapped.

(** ** Growing by [push_back], and queues used from construction on *)

Lemma roundup_fixes_pow2 k : 0 <= k <= 31 -> roundup (2 ^ k) = 2 ^ k.
Proof.
  intros Hk. pose proof (pow2_pos k ltac:(lia)).
  assert (Hle : 2 ^ k <= 2 ^ 31) by (apply Z.pow_le_mono_r; lia).
  destruct (roundup_pow2 (2 ^ k) ltac:(lia)) as (j & Hj & Hr & Hlo & Hhi).
  rewrite Hr. f_equal.
  apply Z.pow_le_mono_r_iff in Hlo; [|lia|lia].
  replace (2 * 2 ^ k) with (2 ^ (k + 1)) in Hhi
    by (rewrite Z.pow_add_r by lia; change (2 ^ 1) with 2; lia).
  apply Z.pow_lt_mono_r_iff in Hhi; [|lia|lia]. lia.
Qed.

Section Growing.
Context {T : Type} `{HL : ElemLaws T}.

Lemma push_back_via_resize (v : T) q h q1 h1 :
  Z.land (wrap (stop_ q + 1)) (mask_ q) = start_ q ->
  resize (T := T) (wrap (Z.shiftl (wrap (mask_ q + 1)) 1)) (q, h) = (Done tt, (q1, h1)) ->
  Z.land (wrap (stop_ q1 + 1)) (mask_ q1) <> start_ q1 ->
  push_back v (q, h) = push_back v (q1, h1).
Proof.
  intros Hfull Hres Hnot. unfold push_back. run.
  rewrite Hfull, Z.eqb_refl, Hres.
  destruct (Z.eqb_spec (Z.land (wrap (stop_ q1 + 1)) (mask_ q1)) (start_ q1));
    [contradiction|].
  reflexivity.
Qed.

(** [push_back] on a full buffer that starts at offset 0: the block is
    doubled and the element appended. *)
Lemma push_back_grows (v : T) q h vs :
  holds q h vs -> start_ q = 0 -> size q = mask_ q ->
  mask_ q + 1 <= 2 ^ 30 ->
  2 * (mask_ q + 1) * sizeofT < 2 ^ 64 ->
  (mask_ q + 1) * sizeofT <= avail h ->
  exists q' h',
    push_back v (q, h) = (Done (mask_ q), (q', h')) /\
    holds q' h' (vs ++ [v]) /\ start_ q' = 0 /\
    mask_ q' = 2 * mask_ q + 1 /\
    avail h' = avail h - (mask_ q + 1) * sizeofT.
Proof.
  intros Hh H0 Hfull H30 H64 Hav.
  destruct Hh as (Hok & b & Hblk & Hvs). pose proof Hblk as [Hb Hlen].
  pose proof Hok as (Hm & Hs & He). pose proof Hm as (k & Hk & Hq).
  pose proof sizeofT_pos as Hsz. pose proof (pow2_pos k ltac:(lia)) as Hp.
  assert (Hones : mask_ q = 2 ^ k - 1) by (rewrite Hq, Z.ones_equiv; lia).
  assert (Hstop : stop_ q = mask_ q).
  { rewrite <- Hfull. rewrite (size_mod q k Hk Hq), H0, Z.sub_0_r.
    symmetry. apply Z.mod_small. lia. }
  assert (Hk30 : k <= 30).
  { destruct (Z.le_gt_cases k 30) as [|Hgt]; [assumption|].
    assert (2 ^ 31 <= 2 ^ k) by (apply Z.pow_le_mono_r; lia).
    change (2 ^ 30) with 1073741824 in *. change (2 ^ 31) with 2147483648 in *. lia. }
  set (n := wrap (Z.shiftl (wrap (mask_ q + 1)) 1)).
  assert (Hn : n = 2 ^ (k + 1)).
  { unfold n. rewrite Z.shiftl_mul_pow2 by lia. change (2 ^ 1) with 2.
    change (2 ^ 30) with 1073741824 in *.
    rewrite (wrap_small (mask_ q + 1)) by (rewrite modulus_eq; lia).
    rewrite wrap_small by (rewrite modulus_eq; lia).
    rewrite Z.pow_add_r by lia. change (2 ^ 1) with 2. lia. }
  assert (Hn2 : n = 2 * (mask_ q + 1)).
  { rewrite Hn, Z.pow_add_r by lia. change (2 ^ 1) with 2. lia. }
  assert (Hr : roundup n = n) by (rewrite Hn; apply roundup_fixes_pow2; lia).
  destruct (resize_unwrapped n q h b vs Hok Hblk Hvs) as (Hres & Hok1 & Hb1 & Hlen1 & Hvs1).
  { destruct (Z.eq_dec (mask_ q) 0); lia. }
  { change (2 ^ 30) with 1073741824 in *. change (2 ^ 31) with 2147483648. lia. }
  { lia. }
  { rewrite Hr. lia. }
  { rewrite Hr, Hn2. lia. }
  { rewrite Hr, Hn2, Hlen. lia. }
  set (q1 := Queue (2 * mask_ q + 1) (start_ q) (stop_ q) (length (blocks h))) in *.
  set (b1 := b ++ replicate (Z.to_nat (roundup n * sizeofT) - length b) None) in *.
  set (h1 := Heap _ _) in *.
  assert (Hh1 : holds q1 h1 vs).
  { split; [exact Hok1|]. exists b1. split; [split; [exact Hb1|]|exact Hvs1].
    rewrite Hlen1, Hr, Hn2. cbn [q1 mask_]. lia. }
  assert (Hnf1 : size q1 <> mask_ q1).
  { rewrite (holds_size q1 h1 vs Hh1), <- (holds_size q h vs (conj Hok (ex_intro _ b (conj Hblk Hvs)))).
    cbn [q1 mask_]. lia. }
  destruct (push_back_appends v q1 h1 vs Hh1 Hnf1) as (h' & Hpush & Hh' & Hav' & _).
  eexists _, h'. split; [|split; [exact Hh'|]].
  - rewrite (push_back_via_resize v q h q1 h1).
    + rewrite Hpush. cbn [q1 stop_]. rewrite Hstop. reflexivity.
    + apply (full_iff q Hok). exact Hfull.
    + exact Hres.
    + intros Hf. apply (full_iff q1 Hok1) in Hf. contradiction.
  - cbn [q1 start_ mask_]. split; [exact H0|]. split; [reflexivity|].
    rewrite Hav'. cbn [h1 avail]. rewrite Hr, Hn2, Hlen. lia.
Qed.

(** Pushing a list into a buffer that starts at offset 0, through as many
    doublings as it takes. *)
Lemma push_all_appends (vs : list T) :
  forall q h pre c,
    holds q h pre -> start_ q = 0 -> 0 <= c ->
    mask_ q + 1 <= c + 2 * Z.of_nat (length pre) ->
    c + 2 * Z.of_nat (length pre + length vs) <= 2 ^ 31 ->
    sizeofT < 2 ^ 32 ->
    (c + 2 * Z.of_nat (length pre + length vs)) * sizeofT
      <= avail h + (mask_ q + 1) * sizeofT ->
    exists q' h',
      push_all vs (q, h) = (Done tt, (q', h')) /\
      holds q' h' (pre ++ vs) /\ start_ q' = 0.
Proof.
  pose proof sizeofT_pos as Hsz.
  induction vs as [|v vs IH]; intros q h pre c Hh H0 Hc Hcap Htot Hsz32 Hmem.
  - exists q, h. cbn. rewrite app_nil_r. auto.
  - cbn [push_all]. run. cbn [length] in *.
    pose proof (holds_size q h pre Hh) as Hsize.
    pose proof Hh as (Hok & _). pose proof Hok as (Hm & _).
    pose proof (size_range q Hm) as Hr.
    change (2 ^ 31) with 2147483648 in *. change (2 ^ 32) with 4294967296 in *.
    destruct (Z.eq_dec (size q) (mask_ q)) as [Hfull|Hnf].
    + destruct (push_back_grows v q h pre Hh H0 Hfull) as
        (q1 & h1 & Hpush & Hh1 & H01 & Hm1 & Hav1).
      { change (2 ^ 30) with 1073741824. lia. }
      { change (2 ^ 64) with (4294967296 * 4294967296). nia. }
      { nia. }
      rewrite Hpush.
      destruct (IH q1 h1 (pre ++ [v]) c Hh1 H01 Hc) as (q' & h' & Hrun & Hh' & H0').
      { rewrite Hm1, length_app. cbn [length]. lia. }
      { rewrite length_app. cbn [length]. lia. }
      { exact Hsz32. }
      { rewrite Hm1, Hav1, length_app. cbn [length].
        replace (Z.of_nat (length pre + 1 + length vs))
          with (Z.of_nat (length pre + S (length vs))) by lia. nia. }
      exists q', h'. rewrite Hrun, <- app_assoc in *. auto.
    + destruct (push_back_appends v q h pre Hh Hnf) as (h1 & Hpush & Hh1 & Hav1 & _).
      rewrite Hpush.
      destruct (IH _ h1 (pre ++ [v]) c Hh1 H0 Hc) as (q' & h' & Hrun & Hh' & H0').
      { cbn [mask_]. rewrite length_app. cbn [length]. lia. }
      { rewrite length_app. cbn [length]. lia. }
      { exact Hsz32. }
      { cbn [mask_]. rewrite Hav1, length_app. cbn [length].
        replace (Z.of_nat (length pre + 1 + length vs))
          with (Z.of_nat (length pre + S (length vs))) by lia. exact Hmem. }
      exists q', h'. rewrite Hrun, <- app_assoc in *. auto.
Qed.

(** Popping everything from the front returns the contents in order. *)
Lemma pop_front_n_drains (vs : list T) :
  forall q h, holds q h vs ->
    exists q' h',
      pop_front_n (length vs) (q, h) = (Done vs, (q', h')) /\
      holds q' h' [] /\ mask_ q' = mask_ q.
Proof.
  induction vs as [|v vs IH]; intros q h Hh.
  - exists q, h. cbn. auto.
  - destruct (pop_takes_front q h v vs Hh) as (h1 & Hpop & Hh1 & _).
    destruct (IH _ h1 Hh1) as (q' & h' & Hrun & Hh' & Hm').
    exists q', h'. cbn [length pop_front_n]. unfold pop_front at 1. run.
    rewrite Hpop, Hrun. auto.
Qed.

(** Popping everything from the back of a buffer that starts at offset 0
    returns the contents in reverse. *)
Lemma pop_back_n_drains (vs : list T) :
  forall q h, holds q h vs -> start_ q = 0 ->
    exists q' h',
      pop_back_n (length vs) (q, h) = (Done (rev vs), (q', h')) /\
      holds q' h' [] /\ mask_ q' = mask_ q.
Proof.
  induction vs as [|v vs IH] using rev_ind; intros q h Hh H0.
  - exists q, h. cbn. auto.
  - pose proof (holds_size q h _ Hh) as Hsize. pose proof Hh as (Hok & _).
    pose proof Hok as ((k & Hk & Hq) & Hs & He).
    assert (H1 : 1 <= stop_ q).
    { rewrite (size_mod q k Hk Hq), H0, Z.sub_0_r in Hsize.
      rewrite Hq, Z.ones_equiv in He. pose proof (pow2_pos k ltac:(lia)).
      rewrite Z.mod_small in Hsize by lia. rewrite length_app in Hsize.
      cbn [length] in Hsize. lia. }
    destruct (pop_back_takes_back q h v vs Hh H1) as (h1 & Hpop & Hh1 & _).
    destruct (IH _ h1 Hh1 H0) as (q' & h' & Hrun & Hh' & Hm').
    exists q', h'. rewrite length_app, Nat.add_comm. cbn [length Nat.add pop_back_n].
    run. rewrite Hpop, Hrun, rev_app_distr. auto.
Qed.

End Growing.

(** ** Properties of the member functions *)

Lemma bytes_queue_holds : holds (T := byte) bytes_queue bytes_heap [x0a; x0b].
Proof.
  split; [apply ring_okb_sound; reflexivity|].
  exists bytes_block. split; [split; reflexivity | reflexivity].
Qed.

Lemma full_queue_holds : holds (T := byte) full_queue full_heap [x0a; x0b; x0c].
Proof.
  split; [apply ring_okb_sound; reflexivity|].
  exists full_block. split; [split; reflexivity | reflexivity].
Qed.

(** X1: for [1 <= x <= 2^31], [roundup x] is a power of two, at least
    [x], and no power of two that is at least [x] is smaller. *)
Theorem roundup_least_power_of_two x :
  1 <= x <= 2 ^ 31 ->
  exists k, 0 <= k <= 31 /\ roundup x = 2 ^ k /\ x <= roundup x /\
    forall j, 0 <= j -> x <= 2 ^ j -> roundup x <= 2 ^ j.
Proof.
  intros Hx. destruct (roundup_pow2 x Hx) as (k & Hk & Hr & Hlo & Hhi).
  exists k. rewrite Hr. repeat split; try lia.
  intros j Hj Hxj. destruct (Z.le_gt_cases k j) as [Hkj|Hjk].
  - apply Z.pow_le_mono_r; lia.
  - exfalso. assert (Hle : 2 ^ j <= 2 ^ (k - 1)) by (apply Z.pow_le_mono_r; lia).
    replace (2 ^ k) with (2 * 2 ^ (k - 1)) in Hhi; [lia|].
    rewrite <- (Z.pow_succ_r 2 (k - 1)) by lia. f_equal. lia.
Qed.

Lemma roundup_least_power_of_two_witness :
  roundup 5 = 2 ^ 3 /\ 5 <= roundup 5 /\ roundup 5 <= 2 ^ 4.
Proof.
  destruct (roundup_least_power_of_two 5 ltac:(lia)) as (k & Hk & Hr & Hlo & Hmin).
  split; [reflexivity|]. split; [exact Hlo|]. apply Hmin; lia.
Defined.

(** X2: [roundup] returns 0 for 0 and for every argument above [2^31],
    and the mask [roundup(x) - 1] derived from it is then [2^32 - 1]. *)
Theorem roundup_overflows_to_zero x :
  x = 0 \/ 2 ^ 31 < x < 2 ^ 32 ->
  roundup x = 0 /\ wrap (roundup x - 1) = 2 ^ 32 - 1.
Proof.
  intros Hx. assert (Hr : roundup x = 0) by (apply roundup_wraps; lia).
  rewrite Hr. split; reflexivity.
Qed.

Lemma roundup_overflows_to_zero_witness :
  roundup (2 ^ 31 + 1) = 0 /\ wrap (roundup (2 ^ 31 + 1) - 1) = 2 ^ 32 - 1.
Proof.
  apply roundup_overflows_to_zero. right. split; reflexivity.
Defined.

(** [size()] as a distance around the ring. *)
Lemma size_distance q :
  ring_ok q ->
  size q = if start_ q <=? stop_ q then stop_ q - start_ q
           else stop_ q - start_ q + (mask_ q + 1).
Proof.
  intros ((k & Hk & Hq) & Hs & He).
  pose proof (pow2_pos k ltac:(lia)) as Hp.
  assert (Hones : mask_ q = 2 ^ k - 1) by (rewrite Hq, Z.ones_equiv; lia).
  rewrite (size_mod q k Hk Hq). destruct (Z.leb_spec (start_ q) (stop_ q)).
  - apply Z.mod_small. lia.
  - symmetry. apply (Z.mod_unique_pos _ _ (-1)); lia.
Qed.

(** X3: in a buffer whose offsets are in range, [size()] is between 0
    and [capacity()], it is 0 exactly when [start_ == stop_], and it is
    the distance from [start_] to [stop_] around the ring. *)
Theorem size_counts_ring q :
  ring_ok q ->
  0 <= size q <= capacity q /\
  (size q = 0 <-> start_ q = stop_ q) /\
  size q = if start_ q <=? stop_ q then stop_ q - start_ q
           else stop_ q - start_ q + (mask_ q + 1).
Proof.
  intros Hok. pose proof (size_distance q Hok) as Hsz.
  pose proof Hok as (Hm & Hs & He).
  split; [exact (size_range q Hm)|]. split; [|exact Hsz].
  rewrite Hsz. destruct (Z.leb_spec (start_ q) (stop_ q)); lia.
Qed.

Lemma size_counts_ring_witness :
  0 <= size (Queue 7 6 2 0) <= 7 /\ size (Queue 7 6 2 0) = 4.
Proof.
  assert (Hok : ring_ok (Queue 7 6 2 0)) by (apply ring_okb_sound; reflexivity).
  destruct (size_counts_ring (Queue 7 6 2 0) Hok) as (Hr & _ & Hsz).
  split; [exact Hr | exact Hsz].
Defined.

Section MemberProperties.
Context {T : Type} `{HL : ElemLaws T}.

(** X4: for a request [n] below [2^31], the constructor either returns
    an empty queue on a fresh block, with [n <= capacity() <= 2 n] and
    every other block untouched, or throws [bad_alloc] leaving the heap as
    it was; it throws only if fewer than [(2 n + 1) * sizeof(T)] bytes
    can be allocated. *)
Theorem ctor_builds_empty_queue n h :
  0 <= n < 2 ^ 31 -> sizeofT < 2 ^ 32 ->
  (exists q h',
     ctor (T := T) n h = (Done q, h') /\
     holds (T := T) q h' [] /\ size q = 0 /\
     n <= capacity q <= 2 * n /\
     data_ q = length (blocks h) /\
     avail h' = avail h - (capacity q + 1) * sizeofT /\
     forall p b, live_block p h = Some b -> live_block p h' = Some b)
  \/ (ctor (T := T) n h = (Throw bad_alloc, h) /\
      avail h < (2 * n + 1) * sizeofT).
Proof.
  intros Hn Hsz. pose proof (ctor_result n h Hn Hsz) as Hc.
  pose proof (ctor_mask_bounds n Hn) as Hb. cbv zeta in Hc, Hb.
  set (m := wrap (roundup (wrap (n + 1)) - 1)) in *.
  destruct Hb as (Hm & Hb & Hlt & Hw). pose proof sizeofT_pos as Hpos.
  destruct (Z.leb_spec ((m + 1) * sizeofT) (avail h)) as [Hle|Hgt].
  - left. eexists _, _. split; [exact Hc|].
    split.
    { apply holds_empty with (b := replicate (Z.to_nat ((m + 1) * sizeofT)) None).
      - exact Hm.
      - apply live_block_app_new.
      - unfold len. rewrite length_replicate. nia. }
    split; [apply size_empty; reflexivity|].
    split; [exact Hb|]. split; [reflexivity|]. split; [reflexivity|].
    intros p b Hp. apply (live_block_app_old p h b). exact Hp.
  - right. split; [exact Hc | nia].
Qed.

(** X5: [push_back] on a buffer that is not full writes the element at
    [stop_] and appends it to the contents: the size grows by one while
    the capacity, the block and the allocator are as before. *)
Theorem push_back_appends_in_place (v : T) q h vs :
  holds q h vs -> size q < capacity q ->
  exists q' h',
    push_back v (q, h) = (Done (stop_ q), (q', h')) /\
    holds q' h' (vs ++ [v]) /\
    size q' = size q + 1 /\ capacity q' = capacity q /\
    start_ q' = start_ q /\ data_ q' = data_ q /\ avail h' = avail h.
Proof.
  intros Hh Hlt. unfold capacity in Hlt.
  destruct (push_back_appends v q h vs Hh ltac:(lia)) as (h' & Hrun & Hh' & Hav & _).
  eexists _, h'. split; [exact Hrun|]. split; [exact Hh'|].
  split.
  { rewrite (holds_size _ _ _ Hh'), (holds_size _ _ _ Hh), length_app. simpl. lia. }
  repeat split; try reflexivity. exact Hav.
Qed.

(** X6: [push_back] on a full buffer that starts at offset 0 first
    doubles the number of slots and then appends: the capacity becomes
    [2 * capacity() + 1], the contents are kept in order and the new
    element is last. *)
Theorem push_back_doubles_when_full (v : T) q h vs :
  holds q h vs -> start_ q = 0 -> size q = capacity q ->
  capacity q + 1 <= 2 ^ 30 ->
  2 * (capacity q + 1) * sizeofT < 2 ^ 64 ->
  (capacity q + 1) * sizeofT <= avail h ->
  exists q' h',
    push_back v (q, h) = (Done (stop_ q), (q', h')) /\
    holds q' h' (vs ++ [v]) /\
    size q' = size q + 1 /\ capacity q' = 2 * capacity q + 1 /\
    avail h' = avail h - (capacity q + 1) * sizeofT.
Proof.
  unfold capacity. intros Hh H0 Hfull Hcap Hmul Hav.
  destruct (push_back_grows v q h vs Hh H0 Hfull Hcap Hmul Hav)
    as (q' & h' & Hrun & Hh' & _ & Hm' & Hav').
  assert (Hstop : stop_ q = mask_ q).
  { destruct Hh as (Hok & _). pose proof Hok as (_ & Hs & He).
    rewrite <- Hfull, (size_unwrapped q Hok) by lia. lia. }
  exists q', h'. rewrite Hstop. split; [exact Hrun|]. split; [exact Hh'|].
  split.
  { rewrite (holds_size _ _ _ Hh'), (holds_size _ _ _ Hh), length_app. simpl. lia. }
  split; [exact Hm' | exact Hav'].
Qed.

(** X7: [pop] on a buffer that is not empty returns the front element
    and leaves the rest of the contents, in order; the size drops by one
    and nothing is allocated or released. *)
Theorem pop_returns_front q h (v : T) vs :
  holds q h (v :: vs) ->
  exists q' h',
    pop (q, h) = (Done v, (q', h')) /\ holds q' h' vs /\
    size q' = size q - 1 /\ capacity q' = capacity q /\
    stop_ q' = stop_ q /\ data_ q' = data_ q /\ avail h' = avail h.
Proof.
  intros Hh. destruct (pop_takes_front q h v vs Hh) as (h' & Hrun & Hh' & Hav & _).
  eexists _, h'. split; [exact Hrun|]. split; [exact Hh'|].
  split.
  { rewrite (holds_size _ _ _ Hh'), (holds_size _ _ _ Hh). simpl. lia. }
  repeat split; try reflexivity. exact Hav.
Qed.

(** X8: [pop_back] on a buffer whose [stop_] is not 0 returns the back
    element and leaves the rest of the contents, in order. *)
Theorem pop_back_returns_back q h (v : T) vs :
  holds q h (vs ++ [v]) -> 1 <= stop_ q ->
  exists q' h',
    pop_back (q, h) = (Done v, (q', h')) /\ holds q' h' vs /\
    size q' = size q - 1 /\ capacity q' = capacity q /\
    start_ q' = start_ q /\ data_ q' = data_ q /\ avail h' = avail h.
Proof.
  intros Hh H1.
  destruct (pop_back_takes_back q h v vs Hh H1) as (h' & Hrun & Hh' & Hav & _).
  eexists _, h'. split; [exact Hrun|]. split; [exact Hh'|].
  split.
  { rewrite (holds_size _ _ _ Hh'), (holds_size _ _ _ Hh), length_app. simpl. lia. }
  repeat split; try reflexivity. exact Hav.
Qed.

(** X9: [push_pop] on a buffer that is not empty returns the front
    element and appends the new one; it never resizes, so size, capacity
    and block are as before. *)
Theorem push_pop_rotates (v w : T) q h vs :
  holds q h (w :: vs) ->
  exists q' h',
    push_pop v (q, h) = (Done w, (q', h')) /\ holds q' h' (vs ++ [v]) /\
    size q' = size q /\ capacity q' = capacity q /\
    data_ q' = data_ q /\ avail h' = avail h.
Proof.
  intros Hh. destruct (pop_takes_front q h w vs Hh) as (h1 & Hpop & Hh1 & Hav1 & _).
  set (q1 := Queue (mask_ q) (Z.land (wrap (start_ q + 1)) (mask_ q)) (stop_ q) (data_ q)) in *.
  assert (Hnf : size q1 <> mask_ q1).
  { pose proof (holds_size _ _ _ Hh) as Hs. pose proof (holds_size _ _ _ Hh1) as Hs1.
    destruct Hh as ((Hm & _) & _). pose proof (size_range q Hm). simpl in *. lia. }
  destruct (push_back_appends v q1 h1 vs Hh1 Hnf) as (h2 & Hpush & Hh2 & Hav2 & _).
  eexists _, h2. split.
  { unfold push_pop, push, bind at 1. rewrite Hpop. unfold bind at 1.
    rewrite Hpush. reflexivity. }
  split; [exact Hh2|]. split.
  { rewrite (holds_size _ _ _ Hh2), (holds_size _ _ _ Hh), length_app. simpl. lia. }
  repeat split; try reflexivity. lia.
Qed.

(** X10: [push_pop] on an empty buffer throws the empty-buffer error
    and pushes nothing. *)
Theorem push_pop_empty_throws (v : T) q h :
  start_ q = stop_ q ->
  push_pop v (q, h) = (Throw EmptyQueue, (q, h)).
Proof.
  intros He. unfold push_pop, pop. run. rewrite He, Z.eqb_refl. reflexivity.
Qed.

End MemberProperties.

Lemma ctor_builds_empty_queue_witness :
  exists q h', ctor (T := byte) 5 fresh_heap = (Done q, h') /\
    5 <= capacity q <= 10.
Proof.
  assert (Hn : 0 <= 5 < 2 ^ 31) by lia.
  assert (Hsz : sizeofT (T := byte) < 2 ^ 32) by reflexivity.
  destruct (ctor_builds_empty_queue (T := byte) 5 fresh_heap Hn Hsz)
    as [(q & h' & Hc & _ & _ & Hcap & _) | (Hc & _)].
  - exists q, h'. split; [exact Hc | exact Hcap].
  - vm_compute in Hc. discriminate Hc.
Defined.

Lemma push_back_appends_in_place_witness :
  exists q' h',
    push_back x0c (bytes_queue, bytes_heap) = (Done 3, (q', h')) /\
    holds q' h' [x0a; x0b; x0c].
Proof.
  assert (Hlt : size bytes_queue < capacity bytes_queue) by reflexivity.
  destruct (push_back_appends_in_place x0c bytes_queue bytes_heap [x0a; x0b]
              bytes_queue_holds Hlt)
    as (q' & h' & Hrun & Hh & _).
  exists q', h'. split; [exact Hrun | exact Hh].
Defined.

Lemma push_back_doubles_when_full_witness :
  exists q' h',
    push_back x0d (full_queue, full_heap) = (Done 3, (q', h')) /\
    holds q' h' [x0a; x0b; x0c; x0d] /\ capacity q' = 7.
Proof.
  assert (H0 : start_ full_queue = 0) by reflexivity.
  assert (Hfull : size full_queue = capacity full_queue) by reflexivity.
  assert (Hcap : capacity full_queue + 1 <= 2 ^ 30) by (vm_compute; discriminate).
  assert (Hmul : 2 * (capacity full_queue + 1) * sizeofT (T := byte) < 2 ^ 64)
    by reflexivity.
  assert (Hav : (capacity full_queue + 1) * sizeofT (T := byte) <= avail full_heap)
    by (vm_compute; discriminate).
  destruct (push_back_doubles_when_full x0d full_queue full_heap [x0a; x0b; x0c]
              full_queue_holds H0 Hfull Hcap Hmul Hav)
    as (q' & h' & Hrun & Hh & _ & Hcap' & _).
  exists q', h'. split; [exact Hrun|]. split; [exact Hh | exact Hcap'].
Defined.

Lemma pop_returns_front_witness :
  exists q' h',
    pop (bytes_queue, bytes_heap) = (Done x0a, (q', h')) /\ holds q' h' [x0b].
Proof.
  destruct (pop_returns_front bytes_queue bytes_heap x0a [x0b] bytes_queue_holds)
    as (q' & h' & Hrun & Hh & _).
  exists q', h'. split; [exact Hrun | exact Hh].
Defined.

Lemma pop_back_returns_back_witness :
  exists q' h',
    pop_back (bytes_queue, bytes_heap) = (Done x0b, (q', h')) /\ holds q' h' [x0a].
Proof.
  assert (H1 : 1 <= stop_ bytes_queue) by (vm_compute; discriminate).
  destruct (pop_back_returns_back bytes_queue bytes_heap x0b [x0a] bytes_queue_holds H1)
    as (q' & h' & Hrun & Hh & _).
  exists q', h'. split; [exact Hrun | exact Hh].
Defined.

Lemma push_pop_rotates_witness :
  exists q' h',
    push_pop x0c (bytes_queue, bytes_heap) = (Done x0a, (q', h')) /\
    holds q' h' [x0b; x0c].
Proof.
  destruct (push_pop_rotates x0c x0a bytes_queue bytes_heap [x0b] bytes_queue_holds)
    as (q' & h' & Hrun & Hh & _).
  exists q', h'. split; [exact Hrun | exact Hh].
Defined.

Lemma push_pop_empty_throws_witness :
  push_pop x0c (drained_queue, bytes_heap) = (Throw EmptyQueue, (drained_queue, bytes_heap)).
Proof.
  apply (push_pop_empty_throws (T := byte)). reflexivity.
Defined.

(** ** Traversals, [clear] and [free] *)

Section TraversalProperties.
Context {T : Type} `{HL : ElemLaws T}.

(** X11: [for_each] calls the functor on the elements front to back,
    once each, threading the functor's state; the elements are left as
    the functor returned them and the offsets are as before. *)
Theorem for_each_applies_in_order {A} (func : T -> A -> T * A) (a : A)
    q h vs (fuel : nat) :
  holds q h vs -> size q < Z.of_nat fuel ->
  exists h',
    for_each fuel func a (q, h) = (Done (snd (run_func func vs a)), (q, h')) /\
    holds q h' (fst (run_func func vs a)) /\
    length (fst (run_func func vs a)) = length vs /\
    avail h' = avail h.
Proof.
  intros Hh Hfuel.
  destruct (for_each_runs func a q h vs fuel Hh Hfuel) as (h' & Hrun & Hh' & Hav & _).
  exists h'. split; [exact Hrun|]. split; [exact Hh'|]. split; [|exact Hav].
  clear. revert a. induction vs as [|v vs IH]; intros a; [reflexivity|].
  cbn [run_func fst length]. rewrite IH. reflexivity.
Qed.

(** X12: [to_vector] returns the contents front to back; it moves the
    elements out but leaves the offsets alone, so the buffer still counts
    as many elements, each in its moved-from state. *)
Theorem to_vector_returns_contents q h vs (fuel : nat) :
  holds q h vs -> size q < Z.of_nat fuel ->
  exists h',
    to_vector fuel (q, h) = (Done vs, (q, h')) /\
    holds q h' (map moved_from vs) /\
    size q = Z.of_nat (length vs) /\ avail h' = avail h.
Proof.
  intros Hh Hfuel.
  destruct (to_vector_moves q h vs fuel Hh Hfuel) as (h' & Hrun & Hh' & Hav & _).
  exists h'. split; [exact Hrun|]. split; [exact Hh'|].
  split; [exact (holds_size _ _ _ Hh) | exact Hav].
Qed.

(** X13: a loop from [begin()] to [end()] with [operator!=],
    [operator*] and [operator++] reads the contents front to back, also
    across the wrap, and changes neither the object nor the heap. *)
Theorem iteration_reads_contents q h vs (fuel : nat) :
  holds q h vs -> size q < Z.of_nat fuel ->
  range_for fuel (q, h) = (Done vs, (q, h)) /\
  begin (q, h) = (Done (Iterator (start_ q)), (q, h)) /\
  end_ (q, h) = (Done (Iterator (stop_ q)), (q, h)).
Proof.
  intros Hh Hfuel. split; [exact (range_for_reads q h vs fuel Hh Hfuel)|].
  split; reflexivity.
Qed.

(** X14: [clear] empties the buffer: both offsets become 0, while the
    capacity, the block and every byte of the heap are as before. *)
Theorem clear_empties q h vs (fuel : nat) :
  holds q h vs -> size q < Z.of_nat fuel ->
  exists q',
    clear (T := T) fuel (q, h) = (Done tt, (q', h)) /\
    holds (T := T) q' h [] /\ size q' = 0 /\
    start_ q' = 0 /\ stop_ q' = 0 /\
    capacity q' = capacity q /\ data_ q' = data_ q.
Proof.
  intros (Hok & b & Hblk & Hvs) Hfuel.
  exists (Queue (mask_ q) 0 0 (data_ q)).
  split; [exact (clear_resets q h b fuel Hok Hblk Hfuel)|].
  destruct Hblk as (Hlive & Hlen). destruct Hok as (Hm & _).
  split; [exact (holds_empty (mask_ q) (data_ q) h b Hm Hlive Hlen)|].
  split; [apply size_empty; reflexivity|]. repeat split; reflexivity.
Qed.

(** X15: [free] empties the buffer and releases its block, returning
    its [(capacity() + 1) * sizeof(T)] bytes to the allocator; the object
    keeps the released pointer, so a second [free], as the destructor
    performs, releases a block that is not live. *)
Theorem free_releases_block q h vs (fuel : nat) :
  holds q h vs -> size q < Z.of_nat fuel ->
  exists q' h',
    free (T := T) fuel (q, h) = (Done tt, (q', h')) /\
    data_ q' = data_ q /\ live_block (data_ q) h' = None /\
    avail h' = avail h + (capacity q + 1) * sizeofT /\
    forall fuel' : nat,
      free (T := T) (S fuel') (q', h') = (Undefined invalid_free, (q', h')).
Proof.
  intros (Hok & b & Hblk & Hvs) Hfuel.
  eexists _, _. split.
  { exact (proj1 (free_releases q h b fuel 0 Hok Hblk Hfuel)). }
  split; [reflexivity|].
  split; [exact (proj1 (proj2 (free_releases q h b fuel 0 Hok Hblk Hfuel)))|].
  split; [cbn [avail]; destruct Hblk as (_ & ->); reflexivity|].
  intros fuel'. exact (proj2 (proj2 (free_releases q h b fuel fuel' Hok Hblk Hfuel))).
Qed.

End TraversalProperties.

Lemma bytes_queue_fuel : size bytes_queue < Z.of_nat 8.
Proof. reflexivity. Qed.

Lemma for_each_applies_in_order_witness :
  exists h',
    for_each 8 zero_and_count 0%nat (bytes_queue, bytes_heap)
    = (Done 2%nat, (bytes_queue, h')) /\
    holds bytes_queue h' [x00; x00].
Proof.
  destruct (for_each_applies_in_order zero_and_count 0%nat bytes_queue bytes_heap
              [x0a; x0b] 8 bytes_queue_holds bytes_queue_fuel)
    as (h' & Hrun & Hh & _).
  exists h'. split; [exact Hrun | exact Hh].
Defined.

Lemma to_vector_returns_contents_witness :
  exists h',
    to_vector 8 (bytes_queue, bytes_heap) = (Done [x0a; x0b], (bytes_queue, h')) /\
    holds bytes_queue h' [x0a; x0b].
Proof.
  destruct (to_vector_returns_contents bytes_queue bytes_heap [x0a; x0b] 8
              bytes_queue_holds bytes_queue_fuel)
    as (h' & Hrun & Hh & _).
  exists h'. split; [exact Hrun | exact Hh].
Defined.

Lemma iteration_reads_contents_witness :
  range_for 8 (bytes_queue, bytes_heap) = (Done [x0a; x0b], (bytes_queue, bytes_heap)).
Proof.
  exact (proj1 (iteration_reads_contents bytes_queue bytes_heap [x0a; x0b] 8
                  bytes_queue_holds bytes_queue_fuel)).
Defined.

Lemma clear_empties_witness :
  exists q',
    clear (T := byte) 8 (bytes_queue, bytes_heap) = (Done tt, (q', bytes_heap)) /\
    size q' = 0.
Proof.
  destruct (clear_empties bytes_queue bytes_heap [x0a; x0b] 8
              bytes_queue_holds bytes_queue_fuel)
    as (q' & Hrun & _ & Hsz & _).
  exists q'. split; [exact Hrun | exact Hsz].
Defined.

Lemma free_releases_block_witness :
  exists q' h',
    free (T := byte) 8 (bytes_queue, bytes_heap) = (Done tt, (q', h')) /\
    avail h' = 4096 /\
    free (T := byte) 8 (q', h') = (Undefined invalid_free, (q', h')).
Proof.
  destruct (free_releases_block bytes_queue bytes_heap [x0a; x0b] 8
              bytes_queue_holds bytes_queue_fuel)
    as (q' & h' & Hrun & _ & _ & Hav & Hagain).
  exists q', h'. split; [exact Hrun|]. split; [exact Hav | exact (Hagain 7%nat)].
Defined.

(** ** [resize] and the constructor at their edges *)

Lemma roundup_between k x :
  0 <= k <= 31 -> 2 ^ k < 2 * x -> x <= 2 ^ k -> roundup x = 2 ^ k.
Proof.
  intros Hk Hlo Hhi. pose proof (pow2_pos k ltac:(lia)) as Hp.
  assert (Hmono : 2 ^ k <= 2 ^ 31) by (apply Z.pow_le_mono_r; lia).
  destruct (roundup_pow2 x ltac:(lia)) as (j & Hj & Hr & Hxj & Hjx).
  rewrite Hr. f_equal.
  destruct (Z.lt_trichotomy j k) as [Hlt | [Heq | Hgt]]; [exfalso | exact Heq | exfalso].
  - assert (Hle : 2 ^ (j + 1) <= 2 ^ k) by (apply Z.pow_le_mono_r; lia).
    rewrite Z.pow_add_r in Hle by lia. change (2 ^ 1) with 2 in Hle. lia.
  - assert (Hle : 2 ^ (k + 1) <= 2 ^ j) by (apply Z.pow_le_mono_r; lia).
    rewrite Z.pow_add_r in Hle by lia. change (2 ^ 1) with 2 in Hle. lia.
Qed.

Lemma mask_slots m :
  pow2_mask m -> m < 2 ^ 31 -> exists k, 0 <= k <= 31 /\ m + 1 = 2 ^ k.
Proof.
  intros (k & Hk & ->) Hlt. rewrite Z.ones_equiv in *.
  exists k. split; [|lia]. unfold bits in Hk.
  destruct (Z.eq_dec k 32) as [->|]; [|lia]. exfalso. revert Hlt. vm_compute. congruence.
Qed.

Section ResizeProperties.
Context {T : Type} `{HL : ElemLaws T}.

(** X16: on a buffer that is not wrapped and has at most [2^30]
    slots, with elements of less than [2^32] bytes and
    [(capacity() + 1) * sizeof(T)] bytes left to allocate, [resize(n)] for
    [capacity() + 1 < n <= 2 * (capacity() + 1)] doubles the number of
    slots and keeps the contents, in order, at the same offsets. *)
Theorem resize_grows_in_place n q h vs :
  holds q h vs -> start_ q < stop_ q \/ (start_ q = 0 /\ stop_ q = 0) ->
  capacity q + 1 < n <= 2 * (capacity q + 1) ->
  capacity q + 1 <= 2 ^ 30 -> sizeofT < 2 ^ 32 ->
  (capacity q + 1) * sizeofT <= avail h ->
  exists q' h',
    resize (T := T) n (q, h) = (Done tt, (q', h')) /\ holds q' h' vs /\
    capacity q' = 2 * capacity q + 1 /\
    start_ q' = start_ q /\ stop_ q' = stop_ q /\
    avail h' = avail h - (capacity q + 1) * sizeofT.
Proof.
  unfold capacity. intros (Hok & b & Hblk & Hvs) Hun Hn Hcap Hsz Hav.
  pose proof Hok as (Hm & _). pose proof sizeofT_pos as Hpos.
  destruct (mask_slots (mask_ q) Hm ltac:(lia)) as (k & Hk & Hmk).
  assert (Hk30 : k <= 30).
  { destruct (Z.le_gt_cases k 30) as [|Hgt]; [assumption|].
    assert (2 ^ 31 <= 2 ^ k) by (apply Z.pow_le_mono_r; lia). lia. }
  assert (Hr : roundup n = 2 * (mask_ q + 1)).
  { rewrite Hmk. rewrite <- (Z.pow_succ_r 2 k) by lia.
    apply roundup_between; [lia | |]; rewrite Z.pow_succ_r by lia; lia. }
  pose proof Hblk as (Hlive & Hlen).
  destruct (resize_unwrapped n q h b vs Hok Hblk Hvs Hun) as (Hres & Hok' & Hb' & Hlen' & Hvs');
    try (rewrite ?Hr, ?Hlen; nia).
  rewrite Hr, Hlen in *.
  eexists _, _. split; [exact Hres|].
  split.
  { split; [exact Hok'|]. eexists. split; [split; [exact Hb'|] | exact Hvs'].
    rewrite Hlen'. cbn [mask_]. lia. }
  cbn [mask_ start_ stop_ avail]. repeat split; lia.
Qed.

(** X17: on a buffer that is not wrapped ([start_ < stop_], or empty
    at offset 0) and has at most [2^31] slots, with elements of less than
    [2^32] bytes, [resize(n)] with [n] equal to the number of slots, or to
    the capacity when that is at least 3, passes the guard and doubles
    [mask_], but reallocates the block to the size it already has:
    afterwards the block is half as long as the mask says. *)
Theorem resize_to_current_slots_underallocates n q h vs :
  holds q h vs -> start_ q < stop_ q \/ (start_ q = 0 /\ stop_ q = 0) ->
  n = capacity q + 1 \/ (n = capacity q /\ 3 <= capacity q) ->
  capacity q < 2 ^ 31 -> sizeofT < 2 ^ 32 -> 0 <= avail h ->
  exists q' h' b',
    resize (T := T) n (q, h) = (Done tt, (q', h')) /\
    capacity q' = 2 * capacity q + 1 /\
    live_block (data_ q') h' = Some b' /\
    len b' = (capacity q + 1) * sizeofT /\
    2 * len b' = (capacity q' + 1) * sizeofT /\
    avail h' = avail h.
Proof.
  unfold capacity. intros (Hok & b & Hblk & Hvs) Hun Hn Hcap Hsz Hav.
  pose proof Hok as (Hm & _). pose proof sizeofT_pos as Hpos.
  destruct (mask_slots (mask_ q) Hm Hcap) as (k & Hk & Hmk).
  pose proof (pow2_pos k ltac:(lia)) as Hp.
  assert (Hr : roundup n = mask_ q + 1).
  { rewrite Hmk. apply roundup_between; [lia | lia | lia]. }
  pose proof Hblk as (Hlive & Hlen).
  destruct (resize_unwrapped n q h b vs Hok Hblk Hvs Hun) as (Hres & Hok' & Hb' & Hlen' & Hvs');
    try (rewrite ?Hr, ?Hlen; nia).
  rewrite Hr, Hlen in *.
  eexists _, _, _. split; [exact Hres|]. split; [cbn [mask_]; lia|].
  split; [exact Hb'|]. split; [exact Hlen'|].
  split; [rewrite Hlen'; cbn [mask_]; lia | cbn [avail]; lia].
Qed.

(** X18: when the reallocation of a non-zero number of bytes fails,
    [resize] throws [bad_alloc] and leaves the object and the heap as
    they were. *)
Theorem resize_bad_alloc_keeps_buffer n q h b :
  live_block (data_ q) h = Some b -> capacity q <= n ->
  size_mul (roundup n) sizeofT <> 0 ->
  avail h < size_mul (roundup n) sizeofT - len b ->
  resize (T := T) n (q, h) = (Throw bad_alloc, (q, h)).
Proof.
  unfold capacity. intros Hlive Hn Hnz Hav. unfold resize. run.
  destruct (Z.ltb_spec n (mask_ q)); [lia|]. run.
  unfold realloc. rewrite Hlive.
  destruct (Z.eqb_spec (size_mul (roundup n) sizeofT) 0); [contradiction|].
  destruct (Z.leb_spec (size_mul (roundup n) sizeofT - len b) (avail h)); [lia|].
  reflexivity.
Qed.

(** X19: [resize(n)] for [n] above [2^31] passes the guard, but
    [roundup] wraps to 0 and the block is reallocated to zero bytes, which
    releases it: [bad_alloc] is thrown and the object is left pointing at
    the released block. *)
Theorem resize_past_half_range_releases_block n q h b :
  live_block (data_ q) h = Some b -> capacity q <= n -> 2 ^ 31 < n < 2 ^ 32 ->
  exists h',
    resize (T := T) n (q, h) = (Throw bad_alloc, (q, h')) /\
    live_block (data_ q) h' = None /\
    avail h' = avail h + len b /\
    deref (front (T := T) q) h' = Undefined out_of_bounds.
Proof.
  unfold capacity. intros Hlive Hn Hbig.
  assert (Hr : roundup n = 0) by (apply roundup_wraps; lia).
  exists (Heap (<[data_ q := None]> (blocks h)) (avail h + len b)).
  assert (Hgone : live_block (data_ q)
            (Heap (<[data_ q := None]> (blocks h)) (avail h + len b)) = None)
    by (apply (live_block_released _ b); exact Hlive).
  split.
  { unfold resize. run. destruct (Z.ltb_spec n (mask_ q)); [lia|]. run.
    rewrite Hr. unfold realloc. rewrite Hlive. reflexivity. }
  split; [exact Hgone|]. split; [reflexivity|].
  unfold deref, front, load_bytes, elem_ptr. cbn [base]. rewrite Hgone. reflexivity.
Qed.

(** X20: a request of [2^31] or more makes the constructor compute the
    mask [2^32 - 1] and allocate zero bytes: it returns a queue that
    reports a capacity of [2^32 - 1] on an empty block, and the first
    [push_back] writes outside it. *)
Theorem ctor_oversized_request n h :
  2 ^ 31 <= n < 2 ^ 32 -> 0 <= avail h ->
  exists q h',
    ctor (T := T) n h = (Done q, h') /\ capacity q = 2 ^ 32 - 1 /\
    live_block (data_ q) h' = Some [] /\
    forall v : T, fst (push_back v (q, h')) = Undefined out_of_bounds.
Proof.
  intros Hn Hav.
  assert (Hr : roundup (wrap (n + 1)) = 0).
  { apply roundup_wraps. unfold wrap. rewrite modulus_eq.
    destruct (Z.eq_dec (n + 1) (2 ^ 32)) as [->|Hne].
    - left. reflexivity.
    - right. rewrite Z.mod_small by lia. lia. }
  exists (Queue (2 ^ 32 - 1) 0 0 (length (blocks h))),
         (Heap (blocks h ++ [Some []]) (avail h - 0)).
  assert (Hlive : live_block (length (blocks h))
            (Heap (blocks h ++ [Some []]) (avail h - 0)) = Some [])
    by apply live_block_app_new.
  split.
  { unfold ctor. rewrite Hr.
    change (wrap (0 - 1)) with (2 ^ 32 - 1).
    change (wrap (2 ^ 32 - 1 + 1)) with 0.
    unfold size_mul. rewrite Z.mul_0_l. change (0 mod 2 ^ 64) with 0.
    unfold malloc. destruct (Z.leb_spec 0 (avail h)); [|lia]. reflexivity. }
  split; [reflexivity|]. split; [exact Hlive|].
  intros v. unfold push_back. run. cbn [Z.eqb]. 
  change (Z.land (wrap (0 + 1)) (2 ^ 32 - 1) =? 0) with false. run.
  unfold write_elem, store_bytes, elem_ptr. cbn [base offset]. rewrite Hlive.
  pose proof (repr_length v) as Hl. pose proof sizeofT_pos as Hpos.
  destruct (Z.leb_spec (0 * sizeofT + len (map Some (repr v))) (len (@nil cell)));
    [change (len (@nil cell)) with 0 in *; lia|].
  rewrite andb_false_r. reflexivity.
Qed.

End ResizeProperties.

Lemma full_queue_unwrapped :
  start_ full_queue < stop_ full_queue \/ (start_ full_queue = 0 /\ stop_ full_queue = 0).
Proof. left. reflexivity. Qed.

Lemma resize_grows_in_place_witness :
  exists q' h',
    resize (T := byte) 5 (full_queue, full_heap) = (Done tt, (q', h')) /\
    holds q' h' [x0a; x0b; x0c] /\ capacity q' = 7.
Proof.
  assert (Hn : capacity full_queue + 1 < 5 <= 2 * (capacity full_queue + 1))
    by (split; [reflexivity | vm_compute; discriminate]).
  assert (Hcap : capacity full_queue + 1 <= 2 ^ 30) by (vm_compute; discriminate).
  assert (Hsz : sizeofT (T := byte) < 2 ^ 32) by reflexivity.
  assert (Hav : (capacity full_queue + 1) * sizeofT (T := byte) <= avail full_heap)
    by (vm_compute; discriminate).
  destruct (resize_grows_in_place 5 full_queue full_heap [x0a; x0b; x0c]
              full_queue_holds full_queue_unwrapped Hn Hcap Hsz Hav)
    as (q' & h' & Hrun & Hh & Hc & _).
  exists q', h'. split; [exact Hrun|]. split; [exact Hh | exact Hc].
Defined.

Lemma resize_to_current_slots_underallocates_witness :
  exists q' h' b',
    resize (T := byte) 4 (full_queue, full_heap) = (Done tt, (q', h')) /\
    capacity q' = 7 /\ live_block (data_ q') h' = Some b' /\ len b' = 4.
Proof.
  assert (Hn : 4 = capacity full_queue + 1 \/
               (4 = capacity full_queue /\ 3 <= capacity full_queue))
    by (left; reflexivity).
  assert (Hcap : capacity full_queue < 2 ^ 31) by reflexivity.
  assert (Hsz : sizeofT (T := byte) < 2 ^ 32) by reflexivity.
  assert (Hav : 0 <= avail full_heap) by (vm_compute; discriminate).
  destruct (resize_to_current_slots_underallocates 4 full_queue full_heap [x0a; x0b; x0c]
              full_queue_holds full_queue_unwrapped Hn Hcap Hsz Hav)
    as (q' & h' & b' & Hrun & Hc & Hb & Hl & _).
  exists q', h', b'. split; [exact Hrun|]. split; [exact Hc|].
  split; [exact Hb | exact Hl].
Defined.

Lemma resize_bad_alloc_keeps_buffer_witness :
  resize (T := byte) 8 (full_queue, tight_heap) = (Throw bad_alloc, (full_queue, tight_heap)).
Proof.
  assert (Hlive : live_block (data_ full_queue) tight_heap = Some full_block)
    by reflexivity.
  assert (Hn : capacity full_queue <= 8) by (vm_compute; discriminate).
  assert (Hnz : size_mul (roundup 8) (sizeofT (T := byte)) <> 0)
    by (vm_compute; discriminate).
  assert (Hav : avail tight_heap < size_mul (roundup 8) (sizeofT (T := byte)) - len full_block)
    by reflexivity.
  exact (resize_bad_alloc_keeps_buffer 8 full_queue tight_heap full_block Hlive Hn Hnz Hav).
Defined.

Lemma resize_past_half_range_releases_block_witness :
  exists h',
    resize (T := byte) (2 ^ 31 + 1) (full_queue, full_heap)
    = (Throw bad_alloc, (full_queue, h')) /\
    live_block (data_ full_queue) h' = None.
Proof.
  assert (Hlive : live_block (data_ full_queue) full_heap = Some full_block)
    by reflexivity.
  assert (Hn : capacity full_queue <= 2 ^ 31 + 1) by (vm_compute; discriminate).
  assert (Hbig : 2 ^ 31 < 2 ^ 31 + 1 < 2 ^ 32) by (split; reflexivity).
  destruct (resize_past_half_range_releases_block (T := byte) (2 ^ 31 + 1)
              full_queue full_heap full_block Hlive Hn Hbig)
    as (h' & Hrun & Hgone & _).
  exists h'. split; [exact Hrun | exact Hgone].
Defined.

Lemma ctor_oversized_request_witness :
  exists q h',
    ctor (T := byte) (2 ^ 31) fresh_heap = (Done q, h') /\
    capacity q = 2 ^ 32 - 1 /\
    fst (push_back x0a (q, h')) = Undefined out_of_bounds.
Proof.
  assert (Hn : 2 ^ 31 <= 2 ^ 31 < 2 ^ 32) by (split; [vm_compute; discriminate | reflexivity]).
  assert (Hav : 0 <= avail fresh_heap) by (vm_compute; discriminate).
  destruct (ctor_oversized_request (T := byte) (2 ^ 31) fresh_heap Hn Hav)
    as (q & h' & Hc & Hcap & _ & Hpush).
  exists q, h'. split; [exact Hc|]. split; [exact Hcap | exact (Hpush x0a)].
Defined.

(** ** A queue used from its construction on *)

Section FromConstruction.
Context {T : Type} `{HL : ElemLaws T}.

Lemma ctor_then_push_all n (vs : list T) h :
  0 <= n -> 2 * n + 1 + 2 * Z.of_nat (length vs) <= 2 ^ 31 ->
  sizeofT < 2 ^ 32 ->
  (2 * n + 1 + 2 * Z.of_nat (length vs)) * sizeofT <= avail h ->
  exists q0 h0 q1 h1,
    ctor (T := T) n h = (Done q0, h0) /\
    push_all vs (q0, h0) = (Done tt, (q1, h1)) /\
    holds q1 h1 vs /\ start_ q1 = 0.
Proof.
  intros Hn Hbound Hsz Hav. pose proof sizeofT_pos as Hpos.
  assert (Hn31 : 0 <= n < 2 ^ 31) by lia.
  pose proof (ctor_result n h Hn31 Hsz) as Hc.
  pose proof (ctor_mask_bounds n Hn31) as Hb. cbv zeta in Hc, Hb.
  set (m := wrap (roundup (wrap (n + 1)) - 1)) in *.
  destruct Hb as (Hm & Hb & Hlt & Hw).
  destruct (Z.leb_spec ((m + 1) * sizeofT) (avail h)) as [Hle|Hgt]; [|nia].
  set (q0 := Queue m 0 0 (length (blocks h))) in *.
  set (h0 := Heap (blocks h ++ [Some (replicate (Z.to_nat ((m + 1) * sizeofT)) None)])
                  (avail h - (m + 1) * sizeofT)) in *.
  assert (Hh0 : holds (T := T) q0 h0 []).
  { apply holds_empty with (b := replicate (Z.to_nat ((m + 1) * sizeofT)) None).
    - exact Hm.
    - apply live_block_app_new.
    - unfold len. rewrite length_replicate. nia. }
  destruct (push_all_appends vs q0 h0 [] (m + 1) Hh0) as (q1 & h1 & Hp & Hh1 & Hs1);
    try (cbn [length mask_ start_ avail q0 h0]; nia).
  exists q0, h0, q1, h1. auto.
Qed.

(** X21: a queue constructed for [n] elements and then filled by
    [push_back] with any list, growing as often as needed, gives the list
    back in order when popped from the front as many times. *)
Theorem fifo_from_construction n (vs : list T) h :
  0 <= n -> 2 * n + 1 + 2 * Z.of_nat (length vs) <= 2 ^ 31 ->
  sizeofT < 2 ^ 32 ->
  (2 * n + 1 + 2 * Z.of_nat (length vs)) * sizeofT <= avail h ->
  exists q0 h0 q1 h1 q2 h2,
    ctor (T := T) n h = (Done q0, h0) /\
    push_all vs (q0, h0) = (Done tt, (q1, h1)) /\
    size q1 = Z.of_nat (length vs) /\
    pop_front_n (length vs) (q1, h1) = (Done vs, (q2, h2)) /\
    size q2 = 0.
Proof.
  intros Hn Hbound Hsz Hav.
  destruct (ctor_then_push_all n vs h Hn Hbound Hsz Hav)
    as (q0 & h0 & q1 & h1 & Hc & Hp & Hh1 & _).
  destruct (pop_front_n_drains vs q1 h1 Hh1) as (q2 & h2 & Hpop & Hh2 & _).
  exists q0, h0, q1, h1, q2, h2.
  split; [exact Hc|]. split; [exact Hp|].
  split; [exact (holds_size _ _ _ Hh1)|]. split; [exact Hpop|].
  exact (holds_size _ _ _ Hh2).
Qed.

(** X22: filled in the same way and popped from the back as many
    times, the queue gives the list back in reverse order. *)
Theorem lifo_from_construction n (vs : list T) h :
  0 <= n -> 2 * n + 1 + 2 * Z.of_nat (length vs) <= 2 ^ 31 ->
  sizeofT < 2 ^ 32 ->
  (2 * n + 1 + 2 * Z.of_nat (length vs)) * sizeofT <= avail h ->
  exists q0 h0 q1 h1 q2 h2,
    ctor (T := T) n h = (Done q0, h0) /\
    push_all vs (q0, h0) = (Done tt, (q1, h1)) /\
    pop_back_n (length vs) (q1, h1) = (Done (rev vs), (q2, h2)) /\
    size q2 = 0.
Proof.
  intros Hn Hbound Hsz Hav.
  destruct (ctor_then_push_all n vs h Hn Hbound Hsz Hav)
    as (q0 & h0 & q1 & h1 & Hc & Hp & Hh1 & Hs1).
  destruct (pop_back_n_drains vs q1 h1 Hh1 Hs1) as (q2 & h2 & Hpop & Hh2 & _).
  exists q0, h0, q1, h1, q2, h2.
  split; [exact Hc|]. split; [exact Hp|]. split; [exact Hpop|].
  exact (holds_size _ _ _ Hh2).
Qed.

End FromConstruction.

Lemma fifo_from_construction_witness :
  exists q0 h0 q1 h1 q2 h2,
    ctor (T := byte) 1 fresh_heap = (Done q0, h0) /\
    push_all [x01; x02; x03; x04; x05] (q0, h0) = (Done tt, (q1, h1)) /\
    pop_front_n 5 (q1, h1) = (Done [x01; x02; x03; x04; x05], (q2, h2)).
Proof.
  assert (Hn : 0 <= 1) by lia.
  assert (Hb : 2 * 1 + 1 + 2 * Z.of_nat (length [x01; x02; x03; x04; x05]) <= 2 ^ 31)
    by (vm_compute; discriminate).
  assert (Hsz : sizeofT (T := byte) < 2 ^ 32) by reflexivity.
  assert (Hav : (2 * 1 + 1 + 2 * Z.of_nat (length [x01; x02; x03; x04; x05]))
                * sizeofT (T := byte) <= avail fresh_heap)
    by (vm_compute; discriminate).
  destruct (fifo_from_construction 1 [x01; x02; x03; x04; x05] fresh_heap Hn Hb Hsz Hav)
    as (q0 & h0 & q1 & h1 & q2 & h2 & Hc & Hp & _ & Hpop & _).
  exists q0, h0, q1, h1, q2, h2. split; [exact Hc|]. split; [exact Hp | exact Hpop].
Defined.

Lemma lifo_from_construction_witness :
  exists q0 h0 q1 h1 q2 h2,
    ctor (T := byte) 1 fresh_heap = (Done q0, h0) /\
    push_all [x01; x02; x03; x04; x05] (q0, h0) = (Done tt, (q1, h1)) /\
    pop_back_n 5 (q1, h1) = (Done [x05; x04; x03; x02; x01], (q2, h2)).
Proof.
  assert (Hn : 0 <= 1) by lia.
  assert (Hb : 2 * 1 + 1 + 2 * Z.of_nat (length [x01; x02; x03; x04; x05]) <= 2 ^ 31)
    by (vm_compute; discriminate).
  assert (Hsz : sizeofT (T := byte) < 2 ^ 32) by reflexivity.
  assert (Hav : (2 * 1 + 1 + 2 * Z.of_nat (length [x01; x02; x03; x04; x05]))
                * sizeofT (T := byte) <= avail fresh_heap)
    by (vm_compute; discriminate).
  destruct (lifo_from_construction 1 [x01; x02; x03; x04; x05] fresh_heap Hn Hb Hsz Hav)
    as (q0 & h0 & q1 & h1 & q2 & h2 & Hc & Hp & Hpop & _).
  exists q0, h0, q1, h1, q2, h2. split; [exact Hc|]. split; [exact Hp | exact Hpop].
Defined.

(** ** What every call keeps, whatever the element type *)

Section Counting.
Context {T : Type} `{HE : Elem T}.

(** The offsets [resize] returns with. *)
Lemma resize_fields n q h q' h' :
  resize (T := T) n (q, h) = (Done tt, (q', h')) ->
  mask_ q <= n /\
  mask_ q' = wrap (Z.shiftl (wrap (mask_ q + 1)) 1 - 1) /\
  ((start_ q = stop_ q /\ start_ q = 0 /\ start_ q' = 0 /\ stop_ q' = 0) \/
   (start_ q = stop_ q /\ start_ q <> 0 /\ start_ q' = 0 /\
    stop_ q' = wrap (mask_ q + 1)) \/
   (stop_ q < start_ q /\ start_ q' = 0 /\ stop_ q' = size q) \/
   (start_ q < stop_ q /\ start_ q' = start_ q /\ stop_ q' = stop_ q)).
Proof.
  unfold resize, size. run.
  repeat (case_match; run; simplify_eq; try discriminate);
    intros [= <- <-]; cbn [start_ stop_ mask_];
    repeat match goal with
    | H : (_ <? _) = true |- _ => apply Z.ltb_lt in H
    | H : (_ <? _) = false |- _ => apply Z.ltb_ge in H
    | H : (_ =? _) = true |- _ => apply Z.eqb_eq in H
    | H : (_ =? _) = false |- _ => apply Z.eqb_neq in H
    | H : negb _ = true |- _ => apply negb_true_iff in H
    | H : negb _ = false |- _ => apply negb_false_iff in H
    end;
    (split; [lia|]); (split; [reflexivity|]).
  all: try (left; lia).
  all: try (right; left; split; [lia|]; split; [lia|]; split; reflexivity).
  all: try (right; right; left; split; [lia|]; split; reflexivity).
  all: try (right; right; right; lia).
Qed.

(** [push_back] is its resizing step followed by a write at the old
    [stop_]. *)
Lemma push_back_steps (v : T) q h i q' h' :
  push_back v (q, h) = (Done i, (q', h')) ->
  exists q1 h1,
    (if Z.land (wrap (stop_ q + 1)) (mask_ q) =? start_ q
     then resize (T := T) (wrap (Z.shiftl (wrap (mask_ q + 1)) 1))
     else ret tt) (q, h) = (Done tt, (q1, h1)) /\
    i = stop_ q1 /\
    q' = Queue (mask_ q1) (start_ q1)
               (Z.land (wrap (stop_ q1 + 1)) (mask_ q1)) (data_ q1).
Proof.
  unfold push_back. run.
  match goal with |- context [(if ?c then ?a else ?b) (q, h)] =>
    destruct ((if c then a else b) (q, h)) as [r [q1 h1]] eqn:Hr end.
  destruct r as [[]| | |]; try discriminate.
  destruct q1 as [m s e d]. run.
  match goal with |- context [write_elem ?p ?j ?w (?qq, ?hh)] =>
    pose proof (write_elem_fields p j w qq hh) as Hf;
    destruct (write_elem p j w (qq, hh)) as [r2 [q2 h2]] end.
  simpl in Hf. subst q2. destruct r2; try discriminate. intros [= <- <- <-].
  exists (Queue m s e d), h1. repeat split; reflexivity.
Qed.

(** X23: whenever [push_back] returns, the size has grown by exactly
    one, and the capacity is as before if the buffer was not full and
    [2 * capacity() + 1] if it was; this holds for wrapped buffers and
    any element type. *)
Theorem push_back_counts (v : T) q h i q' h' :
  ring_ok q -> push_back v (q, h) = (Done i, (q', h')) ->
  ring_ok q' /\ size q' = size q + 1 /\
  capacity q' = (if size q =? capacity q then 2 * capacity q + 1 else capacity q).
Proof.
  intros Hok Hrun. unfold capacity.
  split; [exact (push_back_ring_ok v q h i q' h' Hok Hrun)|].
  destruct (push_back_steps v q h i q' h' Hrun) as (q1 & h1 & Hpre & _ & ->).
  pose proof (full_iff q Hok) as Hfull.
  destruct (Z.eqb_spec (Z.land (wrap (stop_ q + 1)) (mask_ q)) (start_ q)) as [Hf|Hnf].
  - apply Hfull in Hf. rewrite Hf, Z.eqb_refl.
    pose proof (resize_ring_ok _ q h q1 h1 Hok Hpre) as Hok1.
    destruct (resize_fields _ q h q1 h1 Hpre) as (Hn & Hm1 & Hcases).
    pose proof Hok as ((k & Hk & Hq) & Hs & He).
    pose proof (pow2_pos k ltac:(lia)) as Hp.
    assert (Hones : mask_ q = 2 ^ k - 1) by (rewrite Hq, Z.ones_equiv; lia).
    assert (Hk30 : k <= 30).
    { unfold bits in Hk. rewrite Hones in Hn.
      replace (2 ^ k - 1 + 1) with (2 ^ k) in Hn by lia.
      destruct (Z.eq_dec k 32) as [->|]; [exfalso; vm_compute in Hn; congruence|].
      destruct (Z.eq_dec k 31) as [->|]; [exfalso; vm_compute in Hn; congruence|].
      lia. }
    assert (Hle : 2 ^ k <= 2 ^ 30) by (apply Z.pow_le_mono_r; lia).
    assert (Hm1' : mask_ q1 = 2 * mask_ q + 1).
    { rewrite Hm1, Hones. replace (2 ^ k - 1 + 1) with (2 ^ k) by lia.
      rewrite (wrap_small (2 ^ k)) by (rewrite modulus_eq; lia).
      rewrite Z.shiftl_mul_pow2 by lia. change (2 ^ 1) with 2.
      rewrite wrap_small by (rewrite modulus_eq; lia). lia. }
    assert (Hq1 : start_ q1 = 0 /\ stop_ q1 = mask_ q).
    { pose proof (size_distance q Hok) as Hsz. rewrite Hf in Hsz.
      destruct Hcases as [H1 | [H2 | [H3 | H4]]].
      - destruct (Z.leb_spec (start_ q) (stop_ q)); lia.
      - destruct (Z.leb_spec (start_ q) (stop_ q)); lia.
      - destruct H3 as (_ & -> & ->). split; [reflexivity | exact Hf].
      - destruct (Z.leb_spec (start_ q) (stop_ q)); lia. }
    destruct Hq1 as (Hs1 & He1).
    assert (Hsz1 : size q1 = mask_ q) by (rewrite (size_unwrapped q1 Hok1); lia).
    destruct (ring_indices_push q1 Hok1 ltac:(lia)) as (_ & Hsz' & _).
    split; [rewrite Hsz'; lia | cbn [mask_]; exact Hm1'].
  - assert (Hne : size q <> mask_ q) by (intros E; apply Hnf, Hfull, E).
    assert (Hq1 : q1 = q) by (unfold ret in Hpre; congruence). subst q1.
    destruct (Z.eqb_spec (size q) (mask_ q)); [contradiction|].
    destruct (ring_indices_push q Hok Hne) as (_ & Hsz' & _).
    split; [exact Hsz' | reflexivity].
Qed.

(** X24: the index invariant - a mask of the form [2^k - 1] and both
    offsets inside [[0, mask_]] - holds of every constructed queue and is
    kept by every call of [resize], [push_back], [pop], [push_pop] and
    [clear] that returns, and by [pop_back] when [stop_] is not 0. *)
Theorem index_invariant_kept q h :
  ring_ok q ->
  (forall n q' h', resize (T := T) n (q, h) = (Done tt, (q', h')) -> ring_ok q') /\
  (forall (v : T) i q' h', push_back v (q, h) = (Done i, (q', h')) -> ring_ok q') /\
  (forall (v : T) q' h', pop (q, h) = (Done v, (q', h')) -> ring_ok q') /\
  (forall (v r : T) q' h', push_pop v (q, h) = (Done r, (q', h')) -> ring_ok q') /\
  (forall (fuel : nat) q' h',
     clear (T := T) fuel (q, h) = (Done tt, (q', h')) -> ring_ok q') /\
  (forall (v : T) q' h',
     1 <= stop_ q -> pop_back (q, h) = (Done v, (q', h')) -> ring_ok q') /\
  (forall n h0 q0 h0', ctor (T := T) n h0 = (Done q0, h0') -> ring_ok q0).
Proof.
  intros Hok.
  split; [intros n q' h'; apply resize_ring_ok, Hok|].
  split; [intros v i q' h'; apply push_back_ring_ok, Hok|].
  split; [intros v q' h'; apply pop_ring_ok, Hok|].
  split; [intros v r q' h'; apply push_pop_ring_ok, Hok|].
  split; [intros fuel q' h' Hc; exact (proj1 (clear_ring_ok fuel q h q' h' Hok Hc))|].
  split; [intros v q' h' H1; apply pop_back_ring_ok; assumption|].
  intros n h0 q0 h0' Hc. exact (proj1 (proj2 (ctor_ring_ok n h0) q0 h0' Hc)).
Qed.

End Counting.

Lemma push_back_counts_witness :
  size (Queue 3 1 0 0) = size bytes_queue + 1 /\ capacity (Queue 3 1 0 0) = 3.
Proof.
  assert (Hok : ring_ok bytes_queue) by (apply ring_okb_sound; reflexivity).
  assert (Hrun : push_back x0c (bytes_queue, bytes_heap)
                 = (Done 3, (Queue 3 1 0 0,
                             Heap [Some [Some x01; Some x0a; Some x0b; Some x0c]] 4092)))
    by (vm_compute; reflexivity).
  destruct (push_back_counts x0c bytes_queue bytes_heap 3 _ _ Hok Hrun)
    as (_ & Hsz & Hcap).
  split; [exact Hsz | exact Hcap].
Defined.

Lemma index_invariant_kept_witness : ring_ok (Queue 3 2 3 0).
Proof.
  assert (Hok : ring_ok bytes_queue) by (apply ring_okb_sound; reflexivity).
  assert (Hrun : pop (T := byte) (bytes_queue, bytes_heap)
                 = (Done x0a, (Queue 3 2 3 0, bytes_heap)))
    by (vm_compute; reflexivity).
  destruct (index_invariant_kept (T := byte) bytes_queue bytes_heap Hok)
    as (_ & _ & Hpop & _).
  exact (Hpop x0a (Queue 3 2 3 0) bytes_heap Hrun).
Defined.

(** ** Copying a wrapped buffer *)

Section CopyingWrapped.
Context {T : Type} `{HL : ElemLaws T}.

(** The copying loop on a source whose [stop_] lies below the index it
    starts from: it copies up to the last slot and then reads the slot
    after it. *)
Lemma copy_loop_overruns (other : queue) (d : nat) (bsrc : block) (n : nat) :
  d <> data_ other ->
  mask_ other + 1 < modulus ->
  len bsrc = (mask_ other + 1) * sizeofT ->
  forall (fuel : nat) i this h bdst,
    data_ this = d ->
    live_block (data_ other) h = Some bsrc ->
    live_block d h = Some bdst ->
    len bdst = len bsrc ->
    0 <= i -> stop_ other < i -> i + Z.of_nat n = mask_ other + 1 ->
    (forall j, i <= j <= mask_ other -> is_Some (slot_value bsrc j)) ->
    (n < fuel)%nat ->
    exists h',
      for_loop fuel (copy_cond other) (copy_step other) i tt (this, h)
      = (Undefined out_of_bounds, (this, h')).
Proof.
  intros Hd Hcap Hsrc. pose proof sizeofT_pos as Hsz.
  induction n as [|n IH]; intros fuel i this h bdst Hthis Hbs Hbd Hlen Hi Hstop Hn Hdet Hf.
  - destruct fuel as [|fuel]; [lia|].
    assert (i = mask_ other + 1) by lia. subst i.
    exists h. cbn [for_loop]. unfold copy_cond at 1, copy_step at 1. run.
    destruct (Z.eqb_spec (mask_ other + 1) (stop_ other)); [lia|]. cbn [negb].
    unfold read_elem, load_bytes, elem_ptr. cbn [base offset]. rewrite Hbs.
    destruct (Z.leb_spec ((mask_ other + 1) * sizeofT + sizeofT) (len bsrc)); [lia|].
    rewrite andb_false_r. reflexivity.
  - destruct fuel as [|fuel]; [lia|].
    destruct (Hdet i ltac:(lia)) as [v Hv].
    assert (Hin : i * sizeofT + sizeofT <= len bsrc) by nia.
    cbn [for_loop]. unfold copy_cond at 1, copy_step at 1. run.
    destruct (Z.eqb_spec i (stop_ other)); [lia|]. cbn [negb].
    rewrite (read_elem_slot (data_ other) i this h bsrc v) by assumption.
    run. rewrite Hthis.
    assert (Hin' : i * sizeofT + sizeofT <= len bdst) by (rewrite Hlen; exact Hin).
    destruct (write_elem_slot d i v this h bdst Hbd Hi Hin')
      as (h1 & Hw & Hbd1 & _ & _ & Hother).
    rewrite Hw. run.
    rewrite wrap_small by lia.
    pose proof (repr_length v) as Hr.
    assert (Hl1 : length (set_slot bdst i (map Some (repr v))) = length bdst).
    { apply set_slot_length; lia. }
    assert (Hbs1 : live_block (data_ other) h1 = Some bsrc).
    { rewrite Hother by congruence. exact Hbs. }
    assert (Hlen1 : len (set_slot bdst i (map Some (repr v))) = len bsrc).
    { unfold len in *. lia. }
    assert (Hdet1 : forall j, i + 1 <= j <= mask_ other -> is_Some (slot_value bsrc j)).
    { intros j Hj. apply Hdet. lia. }
    destruct (IH fuel (i + 1) this h1 _ Hthis Hbs1 Hbd1 Hlen1
                ltac:(lia) ltac:(lia) ltac:(lia) Hdet1 ltac:(lia))
      as (h' & Hrun).
    exists h'. exact Hrun.
Qed.

(** X25: the copy constructor, given a wrapped buffer
    ([stop_ < start_]), copies the slots from [start_] to the last one and
    then, its index not being masked, reads the slot after the end of the
    source block. *)
Theorem copy_ctor_of_wrapped_overruns q h vs (fuel : nat) :
  holds q h vs -> stop_ q < start_ q ->
  capacity q + 1 < 2 ^ 32 -> sizeofT < 2 ^ 32 ->
  (capacity q + 1) * sizeofT <= avail h ->
  capacity q + 1 - start_ q < Z.of_nat fuel ->
  exists h', copy_ctor fuel q h = (Undefined out_of_bounds, h').
Proof.
  unfold capacity. intros (Hok & b & (Hb & Hlen) & Hvs) Hwrap Hcap Hsz32 Havail Hfuel.
  pose proof sizeofT_pos as Hsz. pose proof Hok as (Hm & Hs & He).
  assert (Hmod : mask_ q + 1 < modulus) by (rewrite modulus_eq; exact Hcap).
  unfold copy_ctor.
  assert (Hbytes : size_mul sizeofT (wrap (mask_ q + 1)) = (mask_ q + 1) * sizeofT).
  { unfold size_mul. rewrite wrap_small by lia.
    rewrite Z.mul_comm. apply Z.mod_small.
    change (2 ^ 64) with (2 ^ 32 * 2 ^ 32). nia. }
  rewrite Hbytes, malloc_fresh by nia. cbv beta iota zeta.
  set (bnew := replicate (Z.to_nat ((mask_ q + 1) * sizeofT)) (@None byte)).
  set (h0 := Heap (blocks h ++ [Some bnew]) (avail h - (mask_ q + 1) * sizeofT)).
  set (d := length (blocks h)).
  set (this := Queue (mask_ q) (start_ q) (stop_ q) d).
  destruct (live_block_app_old (data_ q) h b (Some bnew) (avail h0) Hb)
    as [Hb0 Hfresh].
  fold h0 in Hb0.
  assert (Hd0 : live_block d h0 = Some bnew) by apply live_block_app_new.
  assert (Hlnew : len bnew = len b).
  { unfold len, bnew. rewrite length_replicate. unfold len in Hlen. nia. }
  pose proof (size_distance q Hok) as Hsize.
  destruct (Z.leb_spec (start_ q) (stop_ q)); [lia|].
  assert (Hdet : forall j, start_ q <= j <= mask_ q -> is_Some (slot_value b j)).
  { intros j Hj. apply mapM_Some in Hvs.
    assert (Hin : j ∈ ring_indices q).
    { unfold ring_indices. apply list_elem_of_fmap.
      exists (Z.to_nat (j - start_ q)). split.
      - rewrite land_mask_id; [lia | exact Hm | lia].
      - apply elem_of_seq. lia. }
    apply list_elem_of_lookup in Hin as [n Hn].
    destruct (Forall2_lookup_l _ _ _ _ _ Hvs Hn) as (v & _ & Hv). eauto. }
  destruct (copy_loop_overruns q d b (Z.to_nat (mask_ q + 1 - start_ q))
              ltac:(lia) Hmod Hlen
              fuel (start_ q) this h0 bnew eq_refl Hb0 Hd0 Hlnew
              ltac:(lia) Hwrap ltac:(lia) Hdet ltac:(lia))
    as (h' & Hrun).
  rewrite Hrun. exists h'. reflexivity.
Qed.

End CopyingWrapped.

Lemma wrapped_queue_holds : holds (T := byte) wrapped_queue wrapped_heap [x0a; x0b; x0c].
Proof.
  split; [apply ring_okb_sound; reflexivity|].
  exists wrapped_block. split; [split; reflexivity | reflexivity].
Qed.

Lemma copy_ctor_of_wrapped_overruns_witness :
  exists h', copy_ctor (T := byte) 8 wrapped_queue wrapped_heap
             = (Undefined out_of_bounds, h').
Proof.
  assert (Hw : stop_ wrapped_queue < start_ wrapped_queue) by reflexivity.
  assert (Hcap : capacity wrapped_queue + 1 < 2 ^ 32) by reflexivity.
  assert (Hsz : sizeofT (T := byte) < 2 ^ 32) by reflexivity.
  assert (Hav : (capacity wrapped_queue + 1) * sizeofT (T := byte) <= avail wrapped_heap)
    by (vm_compute; discriminate).
  assert (Hfuel : capacity wrapped_queue + 1 - start_ wrapped_queue < Z.of_nat 8)
    by reflexivity.
  exact (copy_ctor_of_wrapped_overruns wrapped_queue wrapped_heap [x0a; x0b; x0c] 8
           wrapped_queue_holds Hw Hcap Hsz Hav Hfuel).
Defined.

(** ** [front], [back], and a failing scratch allocation *)

Section References.
Context {T : Type} `{HL : ElemLaws T}.

(** X26: on a buffer that is not empty, [front()] refers to the
    element [pop] would return, and, when [stop_] is not 0, [back()]
    refers to the element pushed last. *)
Theorem front_and_back_refer q h (vs : list T) :
  holds q h vs ->
  (forall v vs', vs = v :: vs' -> deref (front (T := T) q) h = Done v) /\
  (forall v vs', vs = vs' ++ [v] -> 1 <= stop_ q -> deref (back (T := T) q) h = Done v).
Proof.
  intros Hh. pose proof (holds_size _ _ _ Hh) as Hsize.
  destruct Hh as (Hok & b & (Hb & Hlen) & Hvs).
  pose proof Hok as (Hm & Hs & He).
  split.
  - intros v vs' ->.
    assert (Hne : start_ q <> stop_ q).
    { intros E. rewrite (size_empty q E) in Hsize. simpl in Hsize. lia. }
    destruct (ring_indices_pop q Hok Hne) as (_ & _ & Hidx).
    rewrite Hidx in Hvs. apply mapM_cons_Some in Hvs as (Hv & _).
    unfold front. destruct (slot_in_block q b (start_ q) Hlen Hs) as (H0 & Hin).
    rewrite (deref_slot _ _ _ b Hb H0 Hin), Hv. reflexivity.
  - intros v vs' -> H1.
    assert (Hne : start_ q <> stop_ q).
    { intros E. rewrite (size_empty q E), length_app in Hsize. simpl in Hsize. lia. }
    destruct (ring_indices_pop_back q Hok Hne H1) as (_ & _ & Hidx).
    rewrite Hidx in Hvs. apply mapM_snoc in Hvs as (_ & Hv).
    rewrite (back_within q Hok H1).
    pose proof Hm as (k & Hk & Hq). pose proof (ones_range k Hk) as Hr.
    rewrite Hq in He. rewrite wrap_small by lia.
    rewrite (land_mask_id (stop_ q - 1)) by (try exact Hm; rewrite Hq; lia).
    destruct (slot_in_block q b (stop_ q - 1) Hlen ltac:(rewrite Hq; lia)) as (H0 & Hin).
    rewrite (deref_slot _ _ _ b Hb H0 Hin), Hv. reflexivity.
Qed.

(** X27: when [resize] of a wrapped buffer has reallocated the block
    and the allocation of its scratch buffer then fails, it throws
    [bad_alloc]; the object owns the reallocated block, whose first bytes
    are those of the old block, and its offsets and mask are as
    before. *)
Theorem resize_scratch_failure_keeps_elements n q h b :
  ring_ok q -> block_ok (T := T) q h b -> stop_ q < start_ q ->
  capacity q <= n -> capacity q + 1 <= roundup n -> capacity q < 2 ^ 31 ->
  roundup n * sizeofT < 2 ^ 64 ->
  roundup n * sizeofT - len b <= avail h ->
  avail h - (roundup n * sizeofT - len b) < (capacity q + 1) * sizeofT ->
  exists h' b',
    resize (T := T) n (q, h)
    = (Throw bad_alloc,
       (Queue (mask_ q) (start_ q) (stop_ q) (length (blocks h)), h')) /\
    live_block (length (blocks h)) h' = Some b' /\
    take (length b) b' = b /\
    len b' = roundup n * sizeofT /\
    live_block (data_ q) h' = None.
Proof.
  unfold capacity. intros Hok [Hb Hlen] Hwrap Hn Hr Hm31 Hsz64 Hav Hfail.
  pose proof Hok as (Hm & Hs & He). pose proof sizeofT_pos as Hsz.
  assert (Hmul : size_mul (roundup n) sizeofT = roundup n * sizeofT).
  { unfold size_mul. apply Z.mod_small. nia. }
  assert (Hmul' : size_mul (wrap (mask_ q + 1)) sizeofT = (mask_ q + 1) * sizeofT).
  { rewrite wrap_small by (rewrite modulus_eq; lia).
    unfold size_mul. apply Z.mod_small. nia. }
  set (b' := b ++ replicate (Z.to_nat (roundup n * sizeofT) - length b) None).
  set (h' := Heap (<[data_ q := None]> (blocks h) ++ [Some b'])
                  (avail h - (roundup n * sizeofT - len b))).
  exists h', b'. split.
  { unfold resize. run.
    destruct (Z.ltb_spec n (mask_ q)); [lia|]. run.
    rewrite Hmul, (realloc_grows (data_ q) _ h b Hb) by nia. run.
    destruct (Z.eqb_spec (start_ q) (stop_ q)); [lia|].
    destruct (Z.ltb_spec (stop_ q) (start_ q)); [|lia]. run.
    rewrite Hmul'. unfold malloc. cbn [avail].
    destruct (Z.leb_spec ((mask_ q + 1) * sizeofT)
                (avail h - (roundup n * sizeofT - len b))); [lia|].
    reflexivity. }
  split; [apply live_block_after_realloc|].
  split; [unfold b'; apply take_app_length|].
  split.
  { unfold len, b'. rewrite length_app, length_replicate. unfold len in *. nia. }
  unfold live_block, h'. cbn [blocks].
  unfold live_block in Hb. destruct (blocks h !! data_ q) as [ob|] eqn:E; [|discriminate].
  pose proof (lookup_lt_Some _ _ _ E) as Hlt.
  rewrite lookup_app_l by (rewrite length_insert; exact Hlt).
  rewrite list_lookup_insert_eq by exact Hlt. reflexivity.
Qed.

End References.

Lemma front_and_back_refer_witness :
  deref (front (T := byte) bytes_queue) bytes_heap = Done x0a /\
  deref (back (T := byte) bytes_queue) bytes_heap = Done x0b.
Proof.
  destruct (front_and_back_refer bytes_queue bytes_heap [x0a; x0b] bytes_queue_holds)
    as (Hf & Hbk).
  assert (H1 : 1 <= stop_ bytes_queue) by (vm_compute; discriminate).
  split; [exact (Hf x0a [x0b] eq_refl) | exact (Hbk x0b [x0a] eq_refl H1)].
Defined.

Lemma resize_scratch_failure_keeps_elements_witness :
  exists h' b',
    resize (T := byte) 8 (wrapped_queue, scarce_heap)
    = (Throw bad_alloc, (Queue 3 2 1 1, h')) /\
    live_block 1 h' = Some b' /\ take 4 b' = wrapped_block.
Proof.
  assert (Hok : ring_ok wrapped_queue) by (apply ring_okb_sound; reflexivity).
  assert (Hblk : block_ok (T := byte) wrapped_queue scarce_heap wrapped_block)
    by (split; reflexivity).
  assert (Hw : stop_ wrapped_queue < start_ wrapped_queue) by reflexivity.
  assert (Hn : capacity wrapped_queue <= 8) by (vm_compute; discriminate).
  assert (Hr : capacity wrapped_queue + 1 <= roundup 8) by (vm_compute; discriminate).
  assert (Hm : capacity wrapped_queue < 2 ^ 31) by reflexivity.
  assert (H64 : roundup 8 * sizeofT (T := byte) < 2 ^ 64) by reflexivity.
  assert (Hav : roundup 8 * sizeofT (T := byte) - len wrapped_block <= avail scarce_heap)
    by (vm_compute; discriminate).
  assert (Hfail : avail scarce_heap - (roundup 8 * sizeofT (T := byte) - len wrapped_block)
                  < (capacity wrapped_queue + 1) * sizeofT (T := byte))
    by reflexivity.
  destruct (resize_scratch_failure_keeps_elements 8 wrapped_queue scarce_heap wrapped_block
              Hok Hblk Hw Hn Hr Hm H64 Hav Hfail)
    as (h' & b' & Hrun & Hb' & Htake & _).
  exists h', b'. split; [exact Hrun|]. split; [exact Hb' | exact Htake].
Defined.

(** ** [resize] on a wrapped buffer of one-byte elements *)

Lemma splice_lookup_inside (b bs : block) (o : Z) (j : nat) :
  0 <= o -> o + len bs <= len b ->
  o <= Z.of_nat j < o + len bs ->
  (take (Z.to_nat o) b ++ bs ++ drop (Z.to_nat (o + len bs)) b) !! j
  = bs !! (j - Z.to_nat o)%nat.
Proof.
  unfold len. intros Ho Hlen Hj.
  rewrite lookup_app_r by (rewrite length_take; lia).
  rewrite length_take, Nat.min_l by lia.
  apply lookup_app_l. lia.
Qed.

(** [memcpy] between two blocks, both ranges inside. *)
Lemma memcpy_blocks dst src n h (bd bs : block) :
  base dst <> base src ->
  live_block (base src) h = Some bs -> live_block (base dst) h = Some bd ->
  0 <= offset src -> 0 <= n -> offset src + n <= len bs ->
  0 <= offset dst -> offset dst + n <= len bd ->
  exists h' cs,
    memcpy dst src n h = Some h' /\
    cs = take (Z.to_nat n) (drop (Z.to_nat (offset src)) bs) /\ len cs = n /\
    live_block (base dst) h'
    = Some (take (Z.to_nat (offset dst)) bd ++ cs ++
            drop (Z.to_nat (offset dst + len cs)) bd) /\
    (forall p, p <> base dst -> live_block p h' = live_block p h) /\
    avail h' = avail h /\ length (blocks h') = length (blocks h).
Proof.
  intros Hne Hs Hd Hos Hn Hsn Hod Hdn.
  set (cs := take (Z.to_nat n) (drop (Z.to_nat (offset src)) bs)).
  assert (Hcs : len cs = n).
  { unfold len, cs. rewrite length_take, length_drop. unfold len in *. lia. }
  unfold memcpy, load_bytes. rewrite Hs.
  destruct (Z.leb_spec 0 (offset src)); [|lia].
  destruct (Z.leb_spec 0 n); [|lia].
  destruct (Z.leb_spec (offset src + n) (len bs)); [|lia].
  cbn [andb]. fold cs.
  destruct (store_bytes dst cs h) as [h'|] eqn:Hst.
  - destruct (store_bytes_frame dst cs h h' Hst) as (Hav & Hl & Hfr & b0 & Hb0 & _ & _ & Hb').
    assert (b0 = bd) by congruence. subst b0.
    exists h', cs. split; [reflexivity|]. split; [reflexivity|]. split; [exact Hcs|].
    split; [exact Hb'|]. split; [|split; assumption].
    intros p Hp. unfold live_block. rewrite (Hfr p Hp). reflexivity.
  - exfalso. unfold store_bytes in Hst. rewrite Hd in Hst.
    destruct (Z.leb_spec 0 (offset dst)); [|lia].
    destruct (Z.leb_spec (offset dst + len cs) (len bd)); [|lia].
    discriminate Hst.
Qed.

Lemma mapM_map_agree {A B C} (f f' : B -> option C) (g g' : A -> B)
    (l : list A) (k : list C) :
  (forall x, x ∈ l -> f' (g' x) = f (g x)) ->
  mapM f (map g l) = Some k -> mapM f' (map g' l) = Some k.
Proof.
  intros Hag Hm. apply mapM_Some. apply mapM_Some in Hm.
  apply Forall2_fmap_l. apply Forall2_fmap_l in Hm.
  apply (Forall2_impl_in _ _ _ _ Hm). intros x y Hx Hy. cbn in *.
  rewrite Hag by exact Hx. exact Hy.
Qed.

(** With one-byte elements a slot is one byte. *)
Lemma slot_value_byte {T : Type} `{HL : ElemLaws T} (b b' : block) i i' :
  sizeofT = 1 -> 0 <= i -> 0 <= i' ->
  b' !! Z.to_nat i' = b !! Z.to_nat i ->
  slot_value (T := T) b' i' = slot_value b i.
Proof.
  intros H1 Hi Hi' Hl. unfold slot_value.
  assert (Hc : slot_cells b' i' = slot_cells b i).
  { apply list_eq. intros p. rewrite !slot_cells_lookup by lia. rewrite H1.
    case_decide; [|reflexivity].
    assert (p = 0%nat) by lia. subst p. rewrite !Z.mul_1_r, !Nat.add_0_r. exact Hl. }
  rewrite Hc. reflexivity.
Qed.

Ltac llia := unfold len, block, cell in *; lia.

Section ResizeWrappedBytes.
Context {T : Type} `{HL : ElemLaws T}.

(** [memcpy] between element pointers into two blocks of one-byte
    elements. *)
Lemma memcpy_elems dst src i j n h (bd bs : block) :
  sizeofT = 1 -> dst <> src ->
  live_block src h = Some bs -> live_block dst h = Some bd ->
  0 <= j -> 0 <= n -> j + n <= len bs -> 0 <= i -> i + n <= len bd ->
  exists h',
    memcpy (elem_ptr dst i) (elem_ptr src j) n h = Some h' /\
    live_block dst h'
    = Some (take (Z.to_nat i) bd ++
            take (Z.to_nat n) (drop (Z.to_nat j) bs) ++
            drop (Z.to_nat (i + n)) bd) /\
    (forall p, p <> dst -> live_block p h' = live_block p h) /\
    avail h' = avail h /\ length (blocks h') = length (blocks h).
Proof.
  intros H1 Hne Hs Hd Hj Hn Hjn Hi Hin.
  pose proof (memcpy_blocks (elem_ptr dst i) (elem_ptr src j) n h bd bs) as Hmc.
  unfold elem_ptr in *. cbn [base offset] in Hmc. rewrite H1, !Z.mul_1_r in *.
  destruct (Hmc Hne Hs Hd Hj Hn Hjn Hi Hin)
    as (h' & cs & Hc & -> & Hl & Hb' & Hfr & Hav & Hlb).
  rewrite Hl in Hb'.
  exists h'. split; [exact Hc|]. split; [exact Hb'|]. split; [exact Hfr|].
  split; assumption.
Qed.

Lemma resize_wrapped_one_byte_run n q h b vs :
  sizeofT = 1 ->
  ring_ok q -> block_ok (T := T) q h b ->
  mapM (slot_value b) (ring_indices q) = Some vs ->
  stop_ q < start_ q ->
  mask_ q + 1 <= 2 ^ 30 -> mask_ q <= n -> roundup n = 2 * (mask_ q + 1) ->
  2 * (mask_ q + 1) <= avail h ->
  exists q' h',
    resize (T := T) n (q, h) = (Done tt, (q', h')) /\
    holds q' h' vs /\ start_ q' = 0 /\ mask_ q' = 2 * mask_ q + 1 /\
    avail h' = avail h - (mask_ q + 1).
Proof.
  intros H1 Hok [Hb Hlen] Hvs Hwrap H30 Hn Hr Hav.
  pose proof Hok as (Hm & Hs & He).
  rewrite H1, Z.mul_1_r in Hlen.
  pose proof (size_distance q Hok) as Hsize.
  destruct (Z.leb_spec (start_ q) (stop_ q)) as [|_]; [lia|].
  assert (H30' : 2 ^ 30 = 1073741824) by reflexivity.
  assert (Hw1 : wrap (mask_ q + 1) = mask_ q + 1)
    by (apply wrap_small; rewrite modulus_eq; lia).
  assert (Hmask' : wrap (Z.shiftl (wrap (mask_ q + 1)) 1 - 1) = 2 * mask_ q + 1).
  { rewrite Hw1, Z.shiftl_mul_pow2 by lia. change (2 ^ 1) with 2.
    replace ((mask_ q + 1) * 2 - 1) with (2 * mask_ q + 1) by lia.
    apply wrap_small. rewrite modulus_eq. lia. }
  assert (Hw2 : wrap (mask_ q + 1 - start_ q) = mask_ q + 1 - start_ q)
    by (apply wrap_small; rewrite modulus_eq; lia).
  assert (Hsm : forall x, 0 <= x < 2 ^ 32 -> size_mul x 1 = x).
  { intros x Hx. unfold size_mul. rewrite Z.mul_1_r. apply Z.mod_small.
    change (2 ^ 64) with (2 ^ 32 * 2 ^ 32). nia. }
  set (c := mask_ q + 1) in *.
  set (b1 := b ++ replicate (Z.to_nat (2 * c) - length b) None).
  set (d1 := length (blocks h)).
  set (h1 := Heap (<[data_ q := None]> (blocks h) ++ [Some b1]) (avail h - (2 * c - len b))).
  assert (Hreal : realloc (data_ q) (2 * c) h = Some (Some d1, h1))
    by (apply realloc_grows; [exact Hb | lia | lia | lia]).
  assert (Hb1 : live_block d1 h1 = Some b1) by apply live_block_after_realloc.
  assert (Hlen1 : len b1 = 2 * c).
  { unfold len, b1. rewrite length_app, length_replicate. unfold len in *. lia. }
  set (t0 := replicate (Z.to_nat c) (@None byte)).
  set (d2 := length (blocks h1)).
  set (h2 := Heap (blocks h1 ++ [Some t0]) (avail h1 - c)).
  assert (Hmal : malloc c h1 = (Some d2, h2))
    by (apply malloc_fresh; cbn [h1 avail]; lia).
  assert (Hd12 : d1 <> d2).
  { unfold d2, h1, d1. cbn [blocks]. rewrite length_app, length_insert. simpl. lia. }
  assert (Hlent0 : len t0 = c) by (unfold len, t0; rewrite length_replicate; lia).
  assert (Hb1' : live_block d1 h2 = Some b1)
    by exact (proj1 (live_block_app_old d1 h1 b1 (Some t0) (avail h1 - c) Hb1)).
  assert (Ht0 : live_block d2 h2 = Some t0) by apply live_block_app_new.
  (* the three copies *)
  destruct (memcpy_elems d2 d1 0 (start_ q) (c - start_ q) h2 t0 b1 H1)
    as (h3 & Hc1 & Ht1 & Hfr1 & Hav1 & Hbl1); try assumption; try lia.
  set (t1 := take (Z.to_nat 0) t0 ++ take (Z.to_nat (c - start_ q)) (drop (Z.to_nat (start_ q)) b1)
             ++ drop (Z.to_nat (0 + (c - start_ q))) t0) in *.
  assert (Hlent1 : len t1 = c).
  { unfold len, t1. rewrite !length_app, !length_take, !length_drop.
    unfold len, block, cell in *. lia. }
  assert (Hb13 : live_block d1 h3 = Some b1) by (rewrite Hfr1 by exact Hd12; exact Hb1').
  destruct (memcpy_elems d2 d1 (c - start_ q) 0 (stop_ q) h3 t1 b1 H1)
    as (h4 & Hc2 & Ht2 & Hfr2 & Hav2 & Hbl2); try assumption; try lia.
  set (t2 := take (Z.to_nat (c - start_ q)) t1 ++ take (Z.to_nat (stop_ q)) (drop (Z.to_nat 0) b1)
             ++ drop (Z.to_nat (c - start_ q + stop_ q)) t1) in *.
  assert (Hlent2 : len t2 = c).
  { unfold len, t2. rewrite !length_app, !length_take, !length_drop.
    unfold len, block, cell in *. lia. }
  assert (Hb14 : live_block d1 h4 = Some b1) by (rewrite Hfr2 by exact Hd12; exact Hb13).
  destruct (memcpy_elems d1 d2 0 0 (size q) h4 b1 t2 H1)
    as (h5 & Hc3 & Hb3 & Hfr3 & Hav3 & Hbl3); try assumption; try lia.
  set (b3 := take (Z.to_nat 0) b1 ++ take (Z.to_nat (size q)) (drop (Z.to_nat 0) t2)
             ++ drop (Z.to_nat (0 + size q)) b1) in *.
  assert (Hlen3 : len b3 = 2 * c).
  { unfold len, b3. rewrite !length_app, !length_take, !length_drop.
    unfold len, block, cell in *. lia. }
  assert (Ht25 : live_block d2 h5 = Some t2) by (rewrite Hfr3 by congruence; exact Ht2).
  set (h6 := Heap (<[d2 := None]> (blocks h5)) (avail h5 + len t2)).
  assert (Hfree : free_block d2 h5 = Some h6) by (unfold free_block; rewrite Ht25; reflexivity).
  assert (Hb36 : live_block d1 h6 = Some b3).
  { unfold live_block, h6. cbn [blocks]. rewrite list_lookup_insert_ne by congruence.
    exact Hb3. }
  set (q' := Queue (2 * mask_ q + 1) 0 (size q) d1).
  exists q', h6.
  split.
  { unfold resize. run.
    destruct (Z.ltb_spec n (mask_ q)); [lia|]. run.
    rewrite Hr, H1, Hsm by (fold c; lia). fold c. rewrite Hreal. run.
    destruct (Z.eqb_spec (start_ q) (stop_ q)); [lia|].
    destruct (Z.ltb_spec (stop_ q) (start_ q)); [|lia]. run.
    fold c. rewrite Hw1, Hw2, !Hsm by lia. rewrite Hmal. run.
    rewrite Hc1. run. rewrite Hc2. run.
    change (Z.land (wrap (stop_ q - start_ q)) (mask_ q)) with (size q).
    rewrite Hc3. run. rewrite Hfree. run. fold c. rewrite Hw1.
    fold c in Hmask'. rewrite Hw1 in Hmask'. rewrite Hmask'. reflexivity. }
  assert (Hm' : pow2_mask (2 * mask_ q + 1)).
  { destruct (mask_doubles_pow2 (mask_ q) Hm) as (Hm' & _).
    fold c in Hm'. rewrite Hmask' in Hm'. exact Hm'. }
  pose proof (size_range q Hm) as Hsr.
  assert (Hok' : ring_ok q') by (split; [exact Hm' | cbn [q' start_ stop_ mask_]; lia]).
  assert (Hlb : length b = Z.to_nat c) by llia.
  assert (Hlb1 : length b1 = Z.to_nat (2 * c)) by llia.
  assert (Hlt1 : length t1 = Z.to_nat c) by llia.
  assert (Hlt0 : length t0 = Z.to_nat c) by llia.
  (* where the bytes of the scratch buffer come from *)
  assert (Hfirst : forall x : nat, Z.of_nat x < c - start_ q ->
            t2 !! x = b !! (Z.to_nat (start_ q) + x)%nat).
  { intros x Hx. unfold t2.
    rewrite lookup_app_l by (rewrite length_take; llia).
    rewrite lookup_take_lt by llia. unfold t1.
    change (Z.to_nat 0) with 0%nat. rewrite take_0, app_nil_l.
    rewrite lookup_app_l by (rewrite length_take, length_drop; llia).
    rewrite lookup_take_lt by llia. rewrite lookup_drop. unfold b1.
    apply lookup_app_l. llia. }
  assert (Hsecond : forall x : nat, c - start_ q <= Z.of_nat x < size q ->
            t2 !! x = b !! (x - Z.to_nat (c - start_ q))%nat).
  { intros x Hx. unfold t2.
    rewrite lookup_app_r by (rewrite length_take; llia).
    rewrite length_take, Nat.min_l by llia.
    change (Z.to_nat 0) with 0%nat. rewrite drop_0.
    rewrite lookup_app_l by (rewrite length_take; llia).
    rewrite lookup_take_lt by llia. unfold b1.
    apply lookup_app_l. llia. }
  assert (Hthird : forall x : nat, Z.of_nat x < size q -> b3 !! x = t2 !! x).
  { intros x Hx. unfold b3.
    change (Z.to_nat 0) with 0%nat. rewrite take_0, app_nil_l, drop_0.
    rewrite lookup_app_l by (rewrite length_take; llia).
    apply lookup_take_lt. llia. }
  split.
  { split; [exact Hok'|]. exists b3. split.
    - split; [exact Hb36|]. rewrite Hlen3, H1. cbn [q' mask_]. lia.
    - rewrite (ring_indices_unwrapped_eq q' Hok') by (cbn [q' start_ stop_]; lia).
      cbn [q' start_ stop_]. rewrite Z.sub_0_r.
      unfold ring_indices in Hvs.
      refine (mapM_map_agree (slot_value b) _
                (fun j => Z.land (start_ q + Z.of_nat j) (mask_ q)) _ _ _ _ Hvs).
      intros x Hx. apply elem_of_seq in Hx.
      destruct Hm as (k & Hk & Hq). rewrite Hq, Z.land_ones by lia.
      assert (Hc : c = 2 ^ k) by (unfold c; rewrite Hq, Z.ones_equiv; lia).
      rewrite <- Hc.
      destruct (Z.lt_ge_cases (start_ q + Z.of_nat x) c) as [Hlo|Hhi].
      + rewrite Z.mod_small by lia.
        apply slot_value_byte; [exact H1 | lia | lia |].
        replace (Z.to_nat (0 + Z.of_nat x)) with x by lia.
        rewrite Hthird, Hfirst by lia. f_equal. lia.
      + assert (Hmod : (start_ q + Z.of_nat x) mod c = start_ q + Z.of_nat x - c).
        { symmetry. apply (Z.mod_unique_pos _ _ 1); lia. }
        rewrite Hmod.
        apply slot_value_byte; [exact H1 | lia | lia |].
        replace (Z.to_nat (0 + Z.of_nat x)) with x by lia.
        rewrite Hthird, Hsecond by lia. f_equal. lia. }
  split; [reflexivity|]. split; [reflexivity|].
  cbn [h6 avail]. rewrite Hav3, Hav2, Hav1, Hlent2. cbn [h2 h1 avail]. lia.
Qed.

End ResizeWrappedBytes.

Section OneByteElements.
Context {T : Type} `{HL : ElemLaws T}.

(** X28: for elements of one byte, on a wrapped buffer of at most
    [2^30] slots with [2 * (capacity() + 1)] bytes left to allocate,
    [resize(n)] with [capacity() + 1 < n <= 2 * (capacity() + 1)] doubles
    the number of slots and moves the contents, in order, to the front of
    the block. *)
Theorem resize_wrapped_one_byte n q h vs :
  sizeofT = 1 -> holds q h vs -> stop_ q < start_ q ->
  capacity q + 1 < n <= 2 * (capacity q + 1) ->
  capacity q + 1 <= 2 ^ 30 ->
  2 * (capacity q + 1) <= avail h ->
  exists q' h',
    resize (T := T) n (q, h) = (Done tt, (q', h')) /\ holds q' h' vs /\
    start_ q' = 0 /\ stop_ q' = size q /\
    capacity q' = 2 * capacity q + 1 /\
    avail h' = avail h - (capacity q + 1).
Proof.
  unfold capacity. intros H1 Hh Hwrap Hn Hcap Hav.
  pose proof (holds_size _ _ _ Hh) as Hsize.
  destruct Hh as (Hok & b & Hblk & Hvs). pose proof Hok as (Hm & _).
  destruct (mask_slots (mask_ q) Hm ltac:(lia)) as (k & Hk & Hmk).
  assert (Hk30 : k <= 30).
  { destruct (Z.le_gt_cases k 30) as [|Hgt]; [assumption|].
    assert (2 ^ 31 <= 2 ^ k) by (apply Z.pow_le_mono_r; lia). lia. }
  assert (Hr : roundup n = 2 * (mask_ q + 1)).
  { rewrite Hmk. rewrite <- (Z.pow_succ_r 2 k) by lia.
    apply roundup_between; [lia | |]; rewrite Z.pow_succ_r by lia; lia. }
  destruct (resize_wrapped_one_byte_run n q h b vs H1 Hok Hblk Hvs Hwrap Hcap
              ltac:(lia) Hr Hav)
    as (q' & h' & Hrun & Hh' & Hs' & Hm' & Hav').
  exists q', h'. split; [exact Hrun|]. split; [exact Hh'|]. split; [exact Hs'|].
  split; [|split; [exact Hm' | exact Hav']].
  pose proof (holds_size _ _ _ Hh') as Hsize'. destruct Hh' as (Hok' & _).
  pose proof Hok' as (_ & _ & He').
  rewrite Hsize, <- Hsize'. rewrite (size_unwrapped q' Hok') by lia. lia.
Qed.

(** X29: for elements of one byte, [push_back] appends the element to
    the contents whatever the offsets are, growing a full buffer first,
    as long as the buffer has at most [2^30] slots and the allocator can
    provide twice as many bytes as it has slots. *)
Theorem push_back_always_appends_one_byte (v : T) q h vs :
  sizeofT = 1 -> holds q h vs ->
  capacity q + 1 <= 2 ^ 30 -> 2 * (capacity q + 1) <= avail h ->
  exists i q' h',
    push_back v (q, h) = (Done i, (q', h')) /\ holds q' h' (vs ++ [v]) /\
    size q' = size q + 1.
Proof.
  unfold capacity. intros H1 Hh Hcap Hav.
  pose proof (holds_size _ _ _ Hh) as Hsize.
  assert (Hgoal : exists i q' h',
            push_back v (q, h) = (Done i, (q', h')) /\ holds q' h' (vs ++ [v])).
  { destruct (Z.eq_dec (size q) (mask_ q)) as [Hfull|Hnf].
    - pose proof Hh as (Hok & b & Hblk & Hvs). pose proof Hok as (Hm & Hs & He).
      pose proof (size_distance q Hok) as Hd.
      destruct (Z.leb_spec (start_ q) (stop_ q)) as [Hle|Hgt].
      + destruct (push_back_grows v q h vs Hh ltac:(lia) Hfull Hcap)
          as (q' & h' & Hrun & Hh' & _); [rewrite H1; lia | rewrite H1; lia |].
        eauto.
      + set (n := wrap (Z.shiftl (wrap (mask_ q + 1)) 1)).
        assert (Hn : n = 2 * (mask_ q + 1)).
        { unfold n. rewrite Z.shiftl_mul_pow2 by lia. change (2 ^ 1) with 2.
          change (2 ^ 30) with 1073741824 in *.
          rewrite (wrap_small (mask_ q + 1)) by (rewrite modulus_eq; lia).
          rewrite wrap_small by (rewrite modulus_eq; lia). lia. }
        destruct (mask_slots (mask_ q) Hm ltac:(lia)) as (k & Hk & Hmk).
        assert (Hk30 : k <= 30).
        { destruct (Z.le_gt_cases k 30) as [|Hgt']; [assumption|].
          assert (2 ^ 31 <= 2 ^ k) by (apply Z.pow_le_mono_r; lia). lia. }
        assert (Hr : roundup n = 2 * (mask_ q + 1)).
        { rewrite Hn, Hmk, <- (Z.pow_succ_r 2 k) by lia.
          apply roundup_fixes_pow2. lia. }
        destruct (resize_wrapped_one_byte_run n q h b vs H1 Hok Hblk Hvs Hgt Hcap
                    ltac:(lia) Hr Hav)
          as (q1 & h1 & Hres & Hh1 & Hs1 & Hm1 & _).
        assert (Hnf1 : size q1 <> mask_ q1).
        { rewrite (holds_size _ _ _ Hh1), <- Hsize, Hm1. lia. }
        destruct (push_back_appends v q1 h1 vs Hh1 Hnf1) as (h' & Hpush & Hh' & _).
        pose proof Hh1 as (Hok1 & _).
        assert (Hnot : Z.land (wrap (stop_ q1 + 1)) (mask_ q1) <> start_ q1).
        { intros E. apply Hnf1. apply (full_iff q1 Hok1). exact E. }
        assert (Hfull' : Z.land (wrap (stop_ q + 1)) (mask_ q) = start_ q)
          by (apply (full_iff q Hok); exact Hfull).
        rewrite <- (push_back_via_resize v q h q1 h1 Hfull' Hres Hnot) in Hpush.
        eauto.
    - destruct (push_back_appends v q h vs Hh Hnf) as (h' & Hrun & Hh' & _). eauto. }
  destruct Hgoal as (i & q' & h' & Hrun & Hh').
  exists i, q', h'. split; [exact Hrun|]. split; [exact Hh'|].
  rewrite (holds_size _ _ _ Hh'), Hsize, length_app. simpl. lia.
Qed.

End OneByteElements.

Lemma resize_wrapped_one_byte_witness :
  exists q' h',
    resize (T := byte) 8 (wrapped_queue, wrapped_heap) = (Done tt, (q', h')) /\
    holds q' h' [x0a; x0b; x0c] /\ start_ q' = 0 /\ capacity q' = 7.
Proof.
  assert (H1 : sizeofT (T := byte) = 1) by reflexivity.
  assert (Hw : stop_ wrapped_queue < start_ wrapped_queue) by reflexivity.
  assert (Hn : capacity wrapped_queue + 1 < 8 <= 2 * (capacity wrapped_queue + 1))
    by (split; [reflexivity | vm_compute; discriminate]).
  assert (Hcap : capacity wrapped_queue + 1 <= 2 ^ 30) by (vm_compute; discriminate).
  assert (Hav : 2 * (capacity wrapped_queue + 1) <= avail wrapped_heap)
    by (vm_compute; discriminate).
  destruct (resize_wrapped_one_byte 8 wrapped_queue wrapped_heap [x0a; x0b; x0c]
              H1 wrapped_queue_holds Hw Hn Hcap Hav)
    as (q' & h' & Hrun & Hh & Hs & _ & Hc & _).
  exists q', h'. split; [exact Hrun|]. split; [exact Hh|]. split; [exact Hs | exact Hc].
Defined.

Lemma push_back_always_appends_one_byte_witness :
  exists i q' h',
    push_back x0d (wrapped_queue, wrapped_heap) = (Done i, (q', h')) /\
    holds q' h' [x0a; x0b; x0c; x0d].
Proof.
  assert (H1 : sizeofT (T := byte) = 1) by reflexivity.
  assert (Hcap : capacity wrapped_queue + 1 <= 2 ^ 30) by (vm_compute; discriminate).
  assert (Hav : 2 * (capacity wrapped_queue + 1) <= avail wrapped_heap)
    by (vm_compute; discriminate).
  destruct (push_back_always_appends_one_byte x0d wrapped_queue wrapped_heap
              [x0a; x0b; x0c] H1 wrapped_queue_holds Hcap Hav)
    as (i & q' & h' & Hrun & Hh & _).
  exists i, q', h'. split; [exact Hrun | exact Hh].
Defined.
